(** * Volleyball scheduler: round construction and completion toggles

    A shallow embedding of the three generations of the scheduler found in
    the repository, and the properties of the schedules they build.

    - [Plain]        : [generatePairs] + [groupRounds]         (plain greedy)
    - [LoadBalanced] : [scheduleRounds teamCount]              (fixed opening
                       round, re-sorted by matches played before every round)
    - [Seeded]       : [precomputeSchedules]                   (fixed opening
                       round, Fisher-Yates shuffle driven by mulberry32)

    JavaScript numbers that hold integers are modelled by [Z]; arrays by
    lists; [Set] of numbers by [gset Z]; [Set] of strings by [gset string];
    objects used as dictionaries by [gmap].  Every [while] loop is run with
    an explicit amount of fuel and returns [None] when the fuel runs out;
    the termination section shows that the fuel handed over by the
    top-level functions is always enough. *)

From stdpp Require Import base option list sorting gmap strings pretty.
From Stdlib Require Import ZArith Lia Ascii.

Local Open Scope Z_scope.

(** ** Data model *)

(** A pair of team ids, the JavaScript array [[a, b]]. *)
Abbreviation Pair := (Z * Z)%type (only parsing).

(** A match object [{ teams: [a, b], complete }]. *)
Record Match := mkMatch { teams : Pair; complete : bool }.

(** The team ids of a pair, in array order. *)
Definition teamsOf (p : Pair) : list Z := [p.1; p.2].

(** [normalizePair([a, b])]: smaller id first. *)
Definition normalizePair (p : Pair) : Pair :=
  if p.1 <? p.2 then (p.1, p.2) else (p.2, p.1).

(** The test used by every [findIndex] that removes a scheduled pair:
    [(x === t0 && y === t1) || (x === t1 && y === t0)]. *)
Definition sameTeams (t p : Pair) : bool :=
  ((p.1 =? t.1) && (p.2 =? t.2)) || ((p.1 =? t.2) && (p.2 =? t.1)).

(** [findIndex] followed by [splice(idx, 1)] when the index is not -1:
    the first element satisfying the test is dropped, if there is one. *)
Fixpoint removeFirst {A : Type} (test : A → bool) (l : list A) : list A :=
  match l with
  | [] => []
  | x :: rest => if test x then rest else x :: removeFirst test rest
  end.

(** [generatePairs] / [generateAllPairs]: the two nested [for] loops
    [i = 1..teamCount], [j = i+1..teamCount], pushing [[i, j]]. *)
Definition generatePairs (teamCount : Z) : list Pair :=
  i ← seqZ 1 teamCount; (λ j, (i, j)) <$> seqZ (i + 1) (teamCount - i).

(** The fixed opening round, as pairs. *)
Definition openingPairs : list Pair := [(1, 2); (3, 4)].

(** ** Plain greedy builder *)

Module Plain.

(** State of the inner [for] loop of [groupRounds]. *)
Record Scan := mkScan { usedTeams : gset Z; round : list Match }.

(** One pass of the loop body on the element [m = remaining[i]]. *)
Definition visit (st : Scan) (m : Match) : Scan :=
  let '(a, b) := teams m in
  if bool_decide (a ∉ usedTeams st) && bool_decide (b ∉ usedTeams st)
  then mkScan ({[b]} ∪ ({[a]} ∪ usedTeams st)) (round st ++ [m])
  else st.

(** The inner [for] loop: visit the elements in order, leaving as soon as
    the round holds two matches (the test comes after every visit). *)
Fixpoint fillRound (st : Scan) (remaining : list Match) : Scan :=
  match remaining with
  | [] => st
  | m :: rest =>
      let st' := visit st m in
      if (length (round st') =? 2)%nat then st' else fillRound st' rest
  end.

(** The [for (const match of round)] loop that removes the used pairs. *)
Definition removeUsed (remaining round : list Match) : list Match :=
  foldl (λ rem m, removeFirst (λ x, sameTeams (teams m) (teams x)) rem)
        remaining round.

(** One iteration of the [while] loop, entered with a non-empty
    [remaining]: [None] when the loop is left by [break], otherwise the
    round that is pushed and the new [remaining]. *)
Definition iteration (remaining : list Match)
  : option (list Match * list Match) :=
  let r := round (fillRound (mkScan ∅ []) remaining) in
  if (length r <? 2)%nat then None else Some (r, removeUsed remaining r).

(** The [while (remaining.length > 0)] loop. *)
Fixpoint loop (fuel : nat) (remaining : list Match)
    (rounds : list (list Match)) : option (list (list Match)) :=
  match fuel with
  | O => None
  | S fuel' =>
      match remaining with
      | [] => Some rounds
      | _ :: _ =>
          match iteration remaining with
          | None => Some rounds
          | Some (r, remaining') => loop fuel' remaining' (rounds ++ [r])
          end
      end
  end.

Definition groupRounds (pairs : list Pair) : option (list (list Match)) :=
  loop (S (length pairs)) ((λ p, mkMatch p false) <$> pairs) [].

End Plain.

(** ** Load-balanced builder with a fixed opening round *)

Module LoadBalanced.

(** The template string [`${a}-${b}`] used as a key of [playedPairs]. *)
Definition pairKey (a b : Z) : string := pretty a +:+ "-" +:+ pretty b.

Definition round1 : list Match :=
  [mkMatch (1, 2) false; mkMatch (3, 4) false].

(** [allPairs.filter(...)]: the pairs of the opening round, in either
    orientation, are dropped from the candidates. *)
Definition notOpening (p : Pair) : bool :=
  let '(a, b) := p in
  negb (((a =? 1) && (b =? 2)) || ((a =? 2) && (b =? 1))
        || ((a =? 3) && (b =? 4)) || ((a =? 4) && (b =? 3))).

Definition initialRemaining (teamCount : Z) : list Pair :=
  List.filter notOpening (generatePairs teamCount).

(** [matchesCount]: zero for the teams [1..teamCount], then one for the
    four teams of the opening round. *)
Definition initialCount (teamCount : Z) : gmap Z Z :=
  <[4:=1]> (<[3:=1]> (<[2:=1]> (<[1:=1]>
    (foldl (λ mc i, <[i:=0]> mc) ∅ (seqZ 1 teamCount))))).

(** [playedPairs]: both orientations of every pair of the opening round. *)
Definition initialPlayed : gset string :=
  foldl (λ played m,
           let '(t0, t1) := teams m in
           {[pairKey t1 t0]} ∪ ({[pairKey t0 t1]} ∪ played))
        ∅ round1.

(** [matchesCount[t]].  Every team of a candidate pair lies in
    [1..teamCount], so the entry is always present. *)
Definition countOf (mc : gmap Z Z) (t : Z) : Z := default 0 (mc !! t).

(** The sort key of a pair: [matchesCount[p[0]] + matchesCount[p[1]]]. *)
Definition playedSum (mc : gmap Z Z) (p : Pair) : Z :=
  countOf mc p.1 + countOf mc p.2.

(** [Array.prototype.sort] with the comparator [aSum - bSum] is a stable
    ascending sort on [playedSum]; a stable sort is determined by its key,
    so it is written here as a stable insertion sort. *)
Fixpoint insertSorted (key : Pair → Z) (p : Pair) (sorted : list Pair)
  : list Pair :=
  match sorted with
  | [] => [p]
  | q :: rest =>
      if key p <=? key q then p :: q :: rest
      else q :: insertSorted key p rest
  end.

Definition sortBy (key : Pair → Z) (l : list Pair) : list Pair :=
  foldr (insertSorted key) [] l.

(** State of the inner [for] loop. *)
Record Scan := mkScan {
  usedTeams : gset Z;
  round : list Match;
  playedPairs : gset string;
  matchesCount : gmap Z Z
}.

Definition visit (st : Scan) (p : Pair) : Scan :=
  let '(a, b) := p in
  if bool_decide (a ∉ usedTeams st) && bool_decide (b ∉ usedTeams st)
     && bool_decide (pairKey a b ∉ playedPairs st)
  then
    let mc := <[a := countOf (matchesCount st) a + 1]> (matchesCount st) in
    mkScan ({[b]} ∪ ({[a]} ∪ usedTeams st))
           (round st ++ [mkMatch (a, b) false])
           ({[pairKey b a]} ∪ ({[pairKey a b]} ∪ playedPairs st))
           (<[b := countOf mc b + 1]> mc)
  else st.

Fixpoint fillRound (st : Scan) (remainingPairs : list Pair) : Scan :=
  match remainingPairs with
  | [] => st
  | p :: rest =>
      let st' := visit st p in
      if (length (round st') =? 2)%nat then st' else fillRound st' rest
  end.

(** [round.forEach(...)]: drop each scheduled pair from [remainingPairs]. *)
Definition removeUsed (remainingPairs : list Pair) (round : list Match)
  : list Pair :=
  foldl (λ rem m, removeFirst (sameTeams (teams m)) rem)
        remainingPairs round.

(** What the [while] loop carries from one iteration to the next. *)
Record Build := mkBuild {
  remainingPairs : list Pair;
  counts : gmap Z Z;
  played : gset string;
  rounds : list (list Match)
}.

(** One iteration of the [while] loop, entered with a non-empty
    [remainingPairs]; [None] when it is left by [break]. *)
Definition iteration (b : Build) : option Build :=
  let sorted := sortBy (playedSum (counts b)) (remainingPairs b) in
  let st := fillRound (mkScan ∅ [] (played b) (counts b)) sorted in
  if (length (round st) <? 2)%nat then None
  else Some (mkBuild (removeUsed sorted (round st)) (matchesCount st)
                     (playedPairs st) (rounds b ++ [round st])).

Fixpoint loop (fuel : nat) (b : Build) : option (list (list Match)) :=
  match fuel with
  | O => None
  | S fuel' =>
      match remainingPairs b with
      | [] => Some (rounds b)
      | _ :: _ =>
          match iteration b with
          | None => Some (rounds b)
          | Some b' => loop fuel' b'
          end
      end
  end.

Definition initialBuild (teamCount : Z) : Build :=
  mkBuild (initialRemaining teamCount) (initialCount teamCount)
          initialPlayed [round1].

Definition scheduleRounds (teamCount : Z) : option (list (list Match)) :=
  loop (S (length (initialRemaining teamCount))) (initialBuild teamCount).

End LoadBalanced.

(** ** Seeded-shuffle builder with a fixed opening round *)

Module Seeded.

(** *** 32-bit integer operators of JavaScript *)

Definition toUint32 (x : Z) : Z := x mod 2 ^ 32.

Definition toInt32 (x : Z) : Z :=
  let u := toUint32 x in if 2 ^ 31 <=? u then u - 2 ^ 32 else u.

(** [x ^ y] *)
Definition xor32 (x y : Z) : Z := Z.lxor (toInt32 x) (toInt32 y).
(** [x | y] *)
Definition or32 (x y : Z) : Z := Z.lor (toInt32 x) (toInt32 y).
(** [x >>> n] for a shift count [n] in [0..31] *)
Definition ushr32 (x n : Z) : Z := Z.shiftr (toUint32 x) n.
(** [Math.imul(x, y)] *)
Definition imul (x y : Z) : Z := toInt32 (toInt32 x * toInt32 y).

(** One call of the closure returned by [mulberry32], whose captured
    variable holds [a]: the new value of the captured variable and the
    32-bit numerator [n] of the returned number [n / 4294967296].  The
    captured variable is increased by plain number addition, without
    wrapping. *)
Definition mulberry32 (a : Z) : Z * Z :=
  let a := a + 0x6d2b79f5 in
  let t := a in
  let t := imul (xor32 t (ushr32 t 15)) (or32 t 1) in
  let t := xor32 t (t + imul (xor32 t (ushr32 t 7)) (or32 t 61)) in
  (a, ushr32 (xor32 t (ushr32 t 14)) 0).

(** [t = arr[m]; arr[m] = arr[i]; arr[i] = t].  Both indices are inside
    the array whenever the shuffle calls it. *)
Definition swap {A : Type} (arr : list A) (m i : nat) : list A :=
  match arr !! m, arr !! i with
  | Some t, Some x => <[i:=t]> (<[m:=x]> arr)
  | _, _ => arr
  end.

(** [Math.floor(random() * m)] where [random()] is [n / 4294967296]:
    both the quotient by a power of two and its product by [m] are exact
    in double precision for the array lengths at hand, so the result is
    the integer quotient of [n * m] by [2^32]. *)
Definition pick (n : Z) (m : nat) : nat :=
  Z.to_nat (n * Z.of_nat m / 2 ^ 32).

(** The [while (m)] loop of [seededShuffle]; [a] is the generator state. *)
Fixpoint shuffleLoop {A : Type} (m : nat) (a : Z) (arr : list A) : list A :=
  match m with
  | O => arr
  | S m' =>
      let '(a', n) := mulberry32 a in
      shuffleLoop m' a' (swap arr m' (pick n (S m')))
  end.

Definition seededShuffle {A : Type} (array : list A) (seed : Z) : list A :=
  shuffleLoop (length array) seed array.

Definition generateAllPairs (teamCount : Z) : list Pair :=
  generatePairs teamCount.

(** The inner [for] loop of [scheduleRounds]: an accepted pair is spliced
    out of [remaining] on the spot, a rejected one is stepped over.  The
    result is the round and what is left of [remaining]. *)
Fixpoint fillRound (usedTeams : gset Z) (round : list Pair)
    (remaining : list Pair) : list Pair * list Pair :=
  match remaining with
  | [] => (round, [])
  | (a, b) :: rest =>
      if bool_decide (a ∉ usedTeams) && bool_decide (b ∉ usedTeams) then
        let round' := round ++ [(a, b)] in
        if (length round' =? 2)%nat then (round', rest)
        else fillRound ({[b]} ∪ ({[a]} ∪ usedTeams)) round' rest
      else
        let '(r, kept) := fillRound usedTeams round rest in
        (r, (a, b) :: kept)
  end.

(** One iteration of the [while] loop, entered with a non-empty
    [remaining]; [None] when it is left by [break]. *)
Definition iteration (remaining : list Pair)
  : option (list Pair * list Pair) :=
  let '(r, remaining') := fillRound ∅ [] remaining in
  if (length r =? 2)%nat then Some (r, remaining') else None.

Fixpoint loop (fuel : nat) (remaining : list Pair)
    (rounds : list (list Pair)) : option (list (list Pair)) :=
  match fuel with
  | O => None
  | S fuel' =>
      match remaining with
      | [] => Some rounds
      | _ :: _ =>
          match iteration remaining with
          | None => Some rounds
          | Some (r, remaining') => loop fuel' remaining' (rounds ++ [r])
          end
      end
  end.

Definition scheduleRounds (pairs : list Pair) : option (list (list Pair)) :=
  loop (S (length pairs)) pairs [].

(** [JSON.stringify([a, b])] *)
Definition stringify (p : Pair) : string :=
  "[" +:+ pretty p.1 +:+ "," +:+ pretty p.2 +:+ "]".

Definition firstRound : list Pair := [(1, 2); (3, 4)].

(** [remainingPairs]: all pairs but the ones of the first round, compared
    through the JSON text of their normal form. *)
Definition remainingPairs (teamCount : Z) : list Pair :=
  let allPairs := generateAllPairs teamCount in
  let firstRoundNorm := stringify <$> (normalizePair <$> firstRound) in
  List.filter
    (λ p, negb (bool_decide (stringify (normalizePair p) ∈ firstRoundNorm)))
    allPairs.

(** [shuffledPairs]: the shuffle is seeded with the team count. *)
Definition shuffledPairs (teamCount : Z) : list Pair :=
  seededShuffle (remainingPairs teamCount) teamCount.

(** The body of the [for] loop of [precomputeSchedules] for one
    [teamCount]: the value stored in [schedules[teamCount]]. *)
Definition scheduleFor (teamCount : Z) : option (list (list Pair)) :=
  remainingRounds ← scheduleRounds (shuffledPairs teamCount);
  Some (firstRound :: remainingRounds).

(** [precomputeSchedules]: the object filled for [teamCount = 4..15]. *)
Definition precomputeSchedules : option (gmap Z (list (list Pair))) :=
  foldl (λ acc teamCount,
           schedules ← acc;
           schedule ← scheduleFor teamCount;
           Some (<[teamCount := schedule]> schedules))
        (Some ∅) (seqZ 4 12).

(** [schedules[teamCount] || []], as read by the component. *)
Definition scheduleOf (schedules : gmap Z (list (list Pair)))
    (teamCount : Z) : list (list Pair) :=
  default [] (schedules !! teamCount).

End Seeded.

(** ** Completion state *)

Module Completion.

(** [toggleComplete] of the two variants that keep the flag inside the
    match object: [rounds.map((round, rIdx) => round.map((match, cIdx) =>
    ...))].  The indices handed over are JavaScript numbers. *)
Definition flipAt (roundIndex courtIndex : Z) (rIdx cIdx : nat) (m : Match)
  : Match :=
  if (Z.of_nat rIdx =? roundIndex) && (Z.of_nat cIdx =? courtIndex)
  then mkMatch (teams m) (negb (complete m))
  else m.

Definition toggleComplete (rounds : list (list Match))
    (roundIndex courtIndex : Z) : list (list Match) :=
  imap (λ rIdx round, imap (flipAt roundIndex courtIndex rIdx) round) rounds.

(** The match addressed by [(r, c)], if there is one. *)
Definition matchAt (rounds : list (list Match)) (r c : nat) : option Match :=
  rounds !! r ≫= (.!! c).

(** [new Set(array)]: the elements in order of first occurrence. *)
Fixpoint setOfArray (array : list Z) : list Z :=
  match array with
  | [] => []
  | x :: rest => x :: List.filter (λ y, negb (y =? x)) (setOfArray rest)
  end.

(** [toggleMatchComplete] of the seeded variant, on the object
    [completedMatches] that maps a round index to an array of court
    indices: [delete] drops the index from the set, [add] appends it,
    [Array.from] lists the set in insertion order. *)
Definition toggleMatchComplete (prev : gmap Z (list Z))
    (roundIndex courtIndex : Z) : gmap Z (list Z) :=
  let roundMatches := setOfArray (default [] (prev !! roundIndex)) in
  let roundMatches' :=
    if bool_decide (courtIndex ∈ roundMatches)
    then List.filter (λ y, negb (y =? courtIndex)) roundMatches
    else roundMatches ++ [courtIndex] in
  <[roundIndex := roundMatches']> prev.

(** [completedMatches[roundIndex]?.includes(courtIndex) ?? false] *)
Definition isCompleted (completedMatches : gmap Z (list Z))
    (roundIndex courtIndex : Z) : bool :=
  match completedMatches !! roundIndex with
  | Some courts => bool_decide (courtIndex ∈ courts)
  | None => false
  end.

End Completion.

(** ** The three generators side by side *)

Inductive Variant := PlainGreedy | LoadBalancedFixed | SeededFixed.

(** The variants that force teams 1-2 and 3-4 into the first round. *)
Definition fixedOpening (v : Variant) : bool :=
  match v with PlainGreedy => false | _ => true end.

(** The pairs of a schedule whose matches carry a flag. *)
Definition pairsOf (rounds : list (list Match)) : list (list Pair) :=
  (λ round : list Match, teams <$> round) <$> rounds.

(** The schedule each variant shows for a team count, as rounds of pairs:
    [groupRounds(generatePairs(n))], [scheduleRounds(n)] and
    [schedules[n] || []]. *)
Definition generateSchedule (v : Variant) (teamCount : Z)
  : option (list (list Pair)) :=
  match v with
  | PlainGreedy => option_map pairsOf (Plain.groupRounds (generatePairs teamCount))
  | LoadBalancedFixed => option_map pairsOf (LoadBalanced.scheduleRounds teamCount)
  | SeededFixed =>
      option_map (λ schedules, Seeded.scheduleOf schedules teamCount)
                 Seeded.precomputeSchedules
  end.

(** How a call of a builder can end.  No path of the three builders has a
    [throw], and none validates the team count, so a call that comes to an
    end always ends in [Built]. *)
Inductive BuildError := InvalidArgument.

Inductive BuildResult :=
  | Built (schedule : list (list Pair))
  | Failed (e : BuildError).

Definition runBuilder (v : Variant) (teamCount : Z) : option BuildResult :=
  option_map Built (generateSchedule v teamCount).

(** The callers' restriction of the team count: the number input of the
    seeded variant, [Math.min(15, Math.max(4, parseInt(value) || 4))], where
    [None] stands for a [NaN] result of [parseInt]. *)
Definition clampTeamCount (parsed : option Z) : Z :=
  let val := match parsed with Some 0 | None => 4 | Some v => v end in
  Z.min 15 (Z.max 4 val).

(** The number input of the plain variant accepts a value only through
    [if (val >= 4 && val <= 15)]. *)
Definition acceptTeamCount (val : Z) : bool := (4 <=? val) && (val <=? 15).

(** ** Properties of schedules *)

(** No team id occurs in two different matches of the round. *)
Definition roundDisjoint (round : list Pair) : Prop :=
  ∀ i j p q, i ≠ j → round !! i = Some p → round !! j = Some q →
             ∀ t, t ∈ teamsOf p → t ∉ teamsOf q.

(** All matches of a schedule, in playing order. *)
Definition matchesOf (schedule : list (list Pair)) : list Pair :=
  concat schedule.

(** No unordered pair is scheduled twice. *)
Definition noRepeat (schedule : list (list Pair)) : Prop :=
  NoDup (normalizePair <$> matchesOf schedule).

(** Two pairs with no team in common. *)
Definition apart (p q : Pair) : Prop := ∀ t, t ∈ teamsOf p → t ∉ teamsOf q.

(** A round as every builder pushes it: two matches, no shared team. *)
Definition fullRound (round : list Pair) : Prop :=
  length round = 2%nat ∧ roundDisjoint round.

(** What the inner loop of the plain builder maintains while it scans
    candidates taken from [L]: the round is drawn from [L], its teams are
    recorded as used, and its matches are pairwise apart. *)
Definition plainInv (L : list Match) (st : Plain.Scan) : Prop :=
  (∀ m, m ∈ Plain.round st → m ∈ L) ∧
  (∀ m t, m ∈ Plain.round st → t ∈ teamsOf (teams m) →
          t ∈ Plain.usedTeams st) ∧
  roundDisjoint (teams <$> Plain.round st).

(** The same invariant for the inner loop of the load-balanced builder. *)
Definition balancedInv (L : list Pair) (st : LoadBalanced.Scan) : Prop :=
  (∀ m, m ∈ LoadBalanced.round st → teams m ∈ L) ∧
  (∀ m t, m ∈ LoadBalanced.round st → t ∈ teamsOf (teams m) →
          t ∈ LoadBalanced.usedTeams st) ∧
  roundDisjoint (teams <$> LoadBalanced.round st).


(** Along the loop of the load-balanced builder every team of a remaining
    pair has an entry in [matchesCount]: reading it never misses. *)
Definition countsCover (b : LoadBalanced.Build) : Prop :=
  ∀ p t, p ∈ LoadBalanced.remainingPairs b → t ∈ teamsOf p →
         is_Some (LoadBalanced.counts b !! t).

(** ** Progress counters and the leave warning *)

Module Progress.

(** The value held by a counter: a number, or [NaN] once a counter that was
    never initialised has been incremented. *)
Inductive JsNumber := Num (z : Z) | NaN.

(** [counts[t]++]: a missing entry reads [undefined], whose increment is
    [NaN]; [NaN] stays [NaN]. *)
Definition increment (counts : gmap Z JsNumber) (t : Z) : gmap Z JsNumber :=
  <[t := match counts !! t with
         | Some (Num z) => Num (z + 1)
         | _ => NaN
         end]> counts.

(** [for (let i = 1; i <= teamCount; i++) counts[i] = 0] *)
Definition zeroCounts (teamCount : Z) : gmap Z JsNumber :=
  foldl (λ counts i, <[i := Num 0]> counts) ∅ (seqZ 1 teamCount).

(** [matchesCount] of the variants that keep the flag in the match: the
    two nested [forEach] count the complete matches of each team. *)
Definition matchesCount (teamCount : Z) (rounds : list (list Match))
  : gmap Z JsNumber :=
  foldl (λ counts round,
           foldl (λ counts m,
                    if complete m
                    then increment (increment counts (teams m).1) (teams m).2
                    else counts)
                 counts round)
        (zeroCounts teamCount) rounds.

(** [playCounts] of the seeded variant: every match of the schedule counts,
    complete or not. *)
Definition playCounts (teamCount : Z) (schedule : list (list Pair))
  : gmap Z JsNumber :=
  foldl (λ counts round,
           foldl (λ counts p, increment (increment counts p.1) p.2)
                 counts round)
        (zeroCounts teamCount) schedule.

(** [resetProgress]: every match is rebuilt with [complete: false]. *)
Definition resetProgress (rounds : list (list Match)) : list (list Match) :=
  (λ round : list Match, (λ m, mkMatch (teams m) false) <$> round) <$> rounds.

(** [Object.values(completedMatches).reduce((acc, arr) => acc + arr.length,
    0)]; the sum does not depend on the order of the values. *)
Definition completedCount (completedMatches : gmap Z (list Z)) : nat :=
  map_fold (λ _ courts acc, (acc + length courts)%nat) 0%nat completedMatches.

(** [rounds.length * 2] *)
Definition totalMatches (rounds : list (list Pair)) : nat :=
  (length rounds * 2)%nat.

(** The test of [handleBeforeUnload]: [completedCount < totalMatches]. *)
Definition warnsOnLeave (rounds : list (list Pair))
    (completedMatches : gmap Z (list Z)) : bool :=
  (completedCount completedMatches <? totalMatches rounds)%nat.

End Progress.

(** ** Reading the greedy round *)

(** Both teams of [q] are outside [used]. *)
Definition free (used : gset Z) (q : Pair) : bool :=
  bool_decide (q.1 ∉ used) && bool_decide (q.2 ∉ used).

(** The first element that passes [test], and the list without it. *)
Fixpoint takeFirst {A : Type} (test : A → bool) (l : list A)
  : option (A * list A) :=
  match l with
  | [] => None
  | x :: rest =>
      if test x then Some (x, rest)
      else match takeFirst test rest with
           | Some (y, rest') => Some (y, x :: rest')
           | None => None
           end
  end.

(** The round a greedy pass builds, stated on its own: the first pair, and
    the first later pair that has no team in common with it; nothing when
    there is no such pair. *)
Definition greedyRound (l : list Pair) : option (list Pair * list Pair) :=
  match l with
  | [] => None
  | p :: rest =>
      match takeFirst (free ({[p.2]} ∪ ({[p.1]} ∪ ∅))) rest with
      | Some (q, rest') => Some ([p; q], rest')
      | None => None
      end
  end.

(** Lexicographic order of pairs. *)
Definition lexLt (p q : Pair) : Prop := p.1 < q.1 ∨ (p.1 = q.1 ∧ p.2 < q.2).

(** How often team [t] occurs in a list of pairs, a pair of a team with
    itself counting twice. *)
Definition occurrences (t : Z) (pairs : list Pair) : Z :=
  Z.of_nat (length (List.filter (λ p, p.1 =? t) pairs)
            + length (List.filter (λ p, p.2 =? t) pairs)).

(** The pairs that count for [matchesCount]: those of the complete
    matches. *)
Definition completePairs (rounds : list (list Match)) : list Pair :=
  teams <$> List.filter complete (concat rounds).

(** A match as the plain builder creates it, and a schedule of such. *)
Definition freshMatch (p : Pair) : Match := mkMatch p false.

Definition freshRounds (rounds : list (list Pair)) : list (list Match) :=
  (λ round : list Pair, freshMatch <$> round) <$> rounds.

(** Counting a list of pairs into a table of counters, as the inner
    [forEach] of both counting loops does. *)
Definition tally (counts : gmap Z Progress.JsNumber) (pairs : list Pair)
  : gmap Z Progress.JsNumber :=
  foldl (λ counts p,
           Progress.increment (Progress.increment counts p.1) p.2)
        counts pairs.

(** A counter after [k] increments: a number grows, [NaN] stays, and a
    missing entry becomes [NaN] with the first increment. *)
Definition incrementedBy (k : Z) (o : option Progress.JsNumber)
  : option Progress.JsNumber :=
  match o with
  | Some (Progress.Num z) => Some (Progress.Num (z + k))
  | Some Progress.NaN => Some Progress.NaN
  | None => if k =? 0 then None else Some Progress.NaN
  end.

Definition sumZ (l : list Z) : Z := foldr Z.add 0 l.

(** The completion object after a series of toggles, from the empty
    object. *)
Definition afterToggles (addresses : list (Z * Z)) : gmap Z (list Z) :=
  foldl (λ completedMatches a,
           Completion.toggleMatchComplete completedMatches a.1 a.2)
        ∅ addresses.

(** No match of the rounds is marked complete. *)
Definition allIncomplete (rounds : list (list Match)) : Prop :=
  Forall (Forall (λ m, complete m = false)) rounds.

(** ** Reading the load-balanced loop *)

(** A string in which the character [c] does not occur. *)
Fixpoint lacks (c : ascii) (s : string) : Prop :=
  match s with
  | EmptyString => True
  | String d s' => d ≠ c ∧ lacks c s'
  end.

(** The matches pushed so far. *)
Definition scheduledSoFar (b : LoadBalanced.Build) : list Pair :=
  concat (pairsOf (LoadBalanced.rounds b)).

(** The number of matches of a list that the two teams of a pair take
    part in, together. *)
Definition loadIn (scheduled : list Pair) (p : Pair) : Z :=
  occurrences p.1 scheduled + occurrences p.2 scheduled.

(** What the load-balanced loop keeps true from one iteration to the next:
    the candidates are the generated pairs that are not scheduled yet, each
    once; none of them has its key in [playedPairs]; and [matchesCount]
    holds, for every team, the number of its matches pushed so far. *)
Definition balancedState (n : Z) (b : LoadBalanced.Build) : Prop :=
  NoDup (LoadBalanced.remainingPairs b) ∧
  (∀ p, p ∈ LoadBalanced.remainingPairs b ↔
        p ∈ generatePairs n ∧ p ∉ scheduledSoFar b) ∧
  (∀ p, p ∈ LoadBalanced.remainingPairs b →
        LoadBalanced.pairKey p.1 p.2 ∉ LoadBalanced.played b) ∧
  (∀ t, LoadBalanced.countOf (LoadBalanced.counts b) t
        = occurrences t (scheduledSoFar b)).

(** The scan state after a pair has been accepted into the round. *)
Definition accepted (st : LoadBalanced.Scan) (p : Pair) : LoadBalanced.Scan :=
  let mc := <[p.1 := LoadBalanced.countOf (LoadBalanced.matchesCount st) p.1 + 1]>
              (LoadBalanced.matchesCount st) in
  LoadBalanced.mkScan
    ({[p.2]} ∪ ({[p.1]} ∪ LoadBalanced.usedTeams st))
    (LoadBalanced.round st ++ [mkMatch p false])
    ({[LoadBalanced.pairKey p.2 p.1]}
       ∪ ({[LoadBalanced.pairKey p.1 p.2]} ∪ LoadBalanced.playedPairs st))
    (<[p.2 := LoadBalanced.countOf mc p.2 + 1]> mc).

(** A pair that is a candidate after the matches [before] (a generated
    pair not scheduled yet), passes [eligible], and whose two teams have,
    together, taken part in no more matches of [before] than the teams of
    any other such pair. *)
Definition leastLoaded (n : Z) (before : list Pair) (eligible : Pair → Prop)
    (p : Pair) : Prop :=
  p ∈ generatePairs n ∧ (p ∉ before) ∧ eligible p ∧
  ∀ x, x ∈ generatePairs n → x ∉ before → eligible x →
       loadIn before p ≤ loadIn before x.

(** The addresses the component renders a toggle button for: court
    [courtIndex] of round [roundIndex] exists in [rounds]. *)
Definition shown (rounds : list (list Pair)) (roundIndex courtIndex : Z)
  : Prop :=
  0 ≤ roundIndex ∧ 0 ≤ courtIndex ∧
  ∃ round, rounds !! Z.to_nat roundIndex = Some round ∧
           courtIndex < Z.of_nat (length round).

(** The team count a component starts with:
    [parseInt(localStorage.getItem("teamCount")) || fallback], where [None]
    stands for a [NaN] result of [parseInt].  The fallback is 7 in the
    seeded variant and 6 in the other two. *)
Definition initialTeamCount (fallback : Z) (stored : option Z) : Z :=
  match stored with Some 0 | None => fallback | Some v => v end.

(** * Facts *)

(** ** Lists and pairs *)

Section RemoveFirst.
Context {A : Type}.
Implicit Types (test : A → bool) (l : list A).

Lemma removeFirst_length test l :
  Exists (λ x, test x = true) l →
  S (length (removeFirst test l)) = length l.
Proof.
  induction l as [|x l IH]; intros HE; simpl.
  - inversion HE.
  - destruct (test x) eqn:Hx; [reflexivity|].
    simpl. f_equal. apply IH.
    inversion HE; subst; [congruence|assumption].
Qed.

Lemma removeFirst_keeps test l x :
  x ∈ l → test x = false → x ∈ removeFirst test l.
Proof.
  induction l as [|y l IH]; intros Hin Hx; simpl.
  - inversion Hin.
  - apply elem_of_cons in Hin as [->|Hin].
    + rewrite Hx. left.
    + destruct (test y); [assumption|]. right. auto.
Qed.

Lemma removeFirst_elem_of test l x : x ∈ removeFirst test l → x ∈ l.
Proof.
  induction l as [|y l IH]; simpl; [trivial|].
  destruct (test y); intros Hin.
  - now right.
  - apply elem_of_cons in Hin as [->|Hin]; [left|right; auto].
Qed.

Lemma removeFirst_none test l :
  Forall (λ x, test x = false) l → removeFirst test l = l.
Proof.
  induction 1 as [|x l Hx _ IH]; simpl; [reflexivity|].
  now rewrite Hx, IH.
Qed.
End RemoveFirst.

Lemma elem_of_filter_bool {A} (f : A → bool) (l : list A) x :
  x ∈ List.filter f l ↔ x ∈ l ∧ f x = true.
Proof. rewrite !list_elem_of_In. apply filter_In. Qed.

Lemma filter_split {A} (f : A → bool) (l : list A) :
  List.filter f l ++ List.filter (λ x, negb (f x)) l ≡ₚ l.
Proof.
  induction l as [|x l IH]; simpl; [reflexivity|].
  destruct (f x); simpl.
  - now rewrite IH.
  - now rewrite <- Permutation_middle, IH.
Qed.

Lemma sameTeams_refl (t : Pair) : sameTeams t t = true.
Proof. unfold sameTeams. now rewrite !Z.eqb_refl. Qed.

Lemma sameTeams_shares (t p : Pair) :
  sameTeams t p = true → t.1 ∈ teamsOf p.
Proof.
  unfold sameTeams, teamsOf. intros H.
  apply orb_prop in H as [H|H]; apply andb_prop in H as [H1 H2].
  - apply Z.eqb_eq in H1 as ->. left.
  - apply Z.eqb_eq in H2 as ->. right. left.
Qed.

Lemma elem_of_teamsOf (t : Z) (p : Pair) : t ∈ teamsOf p ↔ t = p.1 ∨ t = p.2.
Proof.
  unfold teamsOf. rewrite !elem_of_cons, elem_of_nil. tauto.
Qed.

Lemma apart_sym p q : apart p q → apart q p.
Proof. intros H t Hq Hp. exact (H t Hp Hq). Qed.

Lemma apart_not_same p q : apart p q → sameTeams p q = false.
Proof.
  intros H. destruct (sameTeams p q) eqn:E; [|reflexivity].
  exfalso. apply sameTeams_shares in E.
  apply (H p.1); [apply elem_of_teamsOf; now left|assumption].
Qed.

Lemma roundDisjoint_nil : roundDisjoint [].
Proof. intros i j p q _ Hi. now rewrite lookup_nil in Hi. Qed.

Lemma roundDisjoint_snoc (round : list Pair) (p : Pair) :
  roundDisjoint round → (∀ q, q ∈ round → apart q p) →
  roundDisjoint (round ++ [p]).
Proof.
  intros Hr Hp i j x y Hij Hi Hj.
  apply lookup_snoc_Some in Hi as [[Hi1 Hi2]|[Hi1 <-]];
    apply lookup_snoc_Some in Hj as [[Hj1 Hj2]|[Hj1 <-]].
  - exact (Hr i j x y Hij Hi2 Hj2).
  - apply Hp. eapply list_elem_of_lookup_2; eassumption.
  - apply apart_sym, Hp. eapply list_elem_of_lookup_2; eassumption.
  - lia.
Qed.

Lemma roundDisjoint_two (p q : Pair) : roundDisjoint [p; q] → apart p q.
Proof. intros H. exact (H 0%nat 1%nat p q ltac:(lia) eq_refl eq_refl). Qed.

(** Teams that are free of the set [used] are apart from every pair whose
    teams are in [used]. *)
Lemma apart_of_fresh (used : gset Z) (q p : Pair) :
  (∀ t, t ∈ teamsOf q → t ∈ used) → p.1 ∉ used → p.2 ∉ used → apart q p.
Proof.
  intros Hq H1 H2 t Ht Hp. apply elem_of_teamsOf in Hp as [->| ->]; auto.
Qed.

(** ** The plain greedy builder *)

Section PlainFacts.
Import Plain.

Lemma plain_visit_inv L st m :
  plainInv L st → m ∈ L → plainInv L (visit st m).
Proof.
  intros (HL & HU & HD) Hm. unfold visit.
  destruct (teams m) as [a b] eqn:Hab.
  destruct (bool_decide (a ∉ usedTeams st)) eqn:Ha; [|now repeat split].
  destruct (bool_decide (b ∉ usedTeams st)) eqn:Hb; [|now repeat split].
  apply bool_decide_eq_true in Ha, Hb. simpl.
  split; [|split]; simpl.
  - intros x Hx. apply elem_of_app in Hx as [Hx|Hx]; [auto|].
    apply list_elem_of_singleton in Hx as ->. assumption.
  - intros x t Hx Ht. apply elem_of_app in Hx as [Hx|Hx].
    + specialize (HU x t Hx Ht). rewrite !elem_of_union. auto.
    + apply list_elem_of_singleton in Hx as ->. rewrite Hab in Ht.
      rewrite !elem_of_union, !elem_of_singleton.
      apply elem_of_teamsOf in Ht as [->| ->]; auto.
  - rewrite fmap_app. simpl. apply roundDisjoint_snoc; [assumption|].
    intros q Hq. apply list_elem_of_fmap in Hq as (x & -> & Hx).
    rewrite Hab. apply (apart_of_fresh (usedTeams st)); eauto.
Qed.

Lemma plain_visit_length st m :
  (length (round (visit st m)) ≤ S (length (round st)))%nat.
Proof.
  unfold visit. destruct (teams m) as [a b].
  destruct (_ && _); simpl; [rewrite length_app; simpl|]; lia.
Qed.

Lemma plain_fillRound_inv L l : ∀ st,
  plainInv L st → (∀ m, m ∈ l → m ∈ L) → plainInv L (fillRound st l).
Proof.
  induction l as [|m l IH]; intros st Hst Hl; simpl; [assumption|].
  assert (plainInv L (visit st m)) as Hv.
  { apply plain_visit_inv; [assumption|]. apply Hl. left. }
  destruct (length (round (visit st m)) =? 2)%nat; [assumption|].
  apply IH; [assumption|]. intros x Hx. apply Hl. now right.
Qed.

Lemma plain_fillRound_length l : ∀ st,
  (length (round st) < 2)%nat →
  (length (round (fillRound st l)) ≤ 2)%nat.
Proof.
  induction l as [|m l IH]; intros st Hst; simpl; [lia|].
  pose proof (plain_visit_length st m) as Hv.
  destruct (length (round (visit st m)) =? 2)%nat eqn:E.
  - apply Nat.eqb_eq in E. lia.
  - apply Nat.eqb_neq in E. apply IH. lia.
Qed.

(** An iteration that does not leave the loop pushes a full round and
    takes exactly its two matches out of [remaining]. *)
Lemma plain_iteration_spec remaining r remaining' :
  iteration remaining = Some (r, remaining') →
  fullRound (teams <$> r) ∧
  (length remaining' + 2 = length remaining)%nat.
Proof.
  unfold iteration.
  set (st := fillRound (mkScan ∅ []) remaining).
  destruct (length (round st) <? 2)%nat eqn:E; [discriminate|].
  intros [= <- <-]. apply Nat.ltb_ge in E.
  assert (plainInv remaining st) as (HL & HU & HD).
  { apply plain_fillRound_inv; [|auto]. split; [|split]; simpl.
    - intros ? H. now inversion H.
    - intros ? ? H. now inversion H.
    - apply roundDisjoint_nil. }
  assert (length (round st) ≤ 2)%nat as Hle
    by (apply plain_fillRound_length; simpl; lia).
  assert (length (round st) = 2%nat) as Hlen by lia.
  split; [split; [now rewrite length_fmap|assumption]|].
  destruct (round st) as [|m1 [|m2 [|? ?]]] eqn:Hr; try discriminate.
  unfold removeUsed; simpl.
  assert (apart (teams m1) (teams m2)) as Hap
    by (apply roundDisjoint_two; exact HD).
  assert (S (length (removeFirst (λ x, sameTeams (teams m1) (teams x))
                                 remaining)) = length remaining) as H1.
  { apply removeFirst_length, list.Exists_exists. exists m1. split.
    - apply HL. left.
    - apply sameTeams_refl. }
  assert (S (length (removeFirst (λ x, sameTeams (teams m2) (teams x))
             (removeFirst (λ x, sameTeams (teams m1) (teams x)) remaining)))
          = length (removeFirst (λ x, sameTeams (teams m1) (teams x))
                                remaining)) as H2.
  { apply removeFirst_length, list.Exists_exists. exists m2. split.
    - apply removeFirst_keeps.
      + apply HL. right. left.
      + now apply apart_not_same.
    - apply sameTeams_refl. }
  lia.
Qed.

(** With more fuel than candidates the loop comes to an end; what it
    returns extends [rounds] by full rounds only. *)
Lemma plain_loop_spec fuel : ∀ remaining rounds,
  (length remaining < fuel)%nat →
  ∃ more, loop fuel remaining rounds = Some (rounds ++ more) ∧
          Forall fullRound (pairsOf more) ∧
          (2 * length more ≤ length remaining)%nat.
Proof.
  induction fuel as [|fuel IH]; intros remaining rounds Hf; [lia|].
  simpl. destruct remaining as [|m rest] eqn:Hrem.
  { exists []. rewrite app_nil_r. repeat split; [constructor|simpl; lia]. }
  rewrite <- Hrem in *. clear Hrem m rest.
  destruct (iteration remaining) as [[r remaining']|] eqn:Hit.
  - apply plain_iteration_spec in Hit as [Hfull Hlen].
    destruct (IH remaining' (rounds ++ [r]) ltac:(lia)) as (more & -> & HF & HL).
    exists (r :: more). rewrite <- app_assoc. simpl.
    repeat split; [constructor; assumption|lia].
  - exists []. rewrite app_nil_r. repeat split; [constructor|simpl; lia].
Qed.

Lemma plain_groupRounds_spec pairs :
  ∃ rounds, groupRounds pairs = Some rounds ∧
            Forall fullRound (pairsOf rounds) ∧
            (2 * length rounds ≤ length pairs)%nat.
Proof.
  unfold groupRounds.
  destruct (plain_loop_spec (S (length pairs))
              ((λ p, mkMatch p false) <$> pairs) [])
    as (more & Heq & HF & HL).
  - rewrite length_fmap. lia.
  - exists more. rewrite length_fmap in HL. auto.
Qed.

(** More fuel never changes the result. *)
Lemma plain_loop_fuel fuel : ∀ remaining rounds out fuel',
  loop fuel remaining rounds = Some out → (fuel ≤ fuel')%nat →
  loop fuel' remaining rounds = Some out.
Proof.
  induction fuel as [|fuel IH]; intros remaining rounds out fuel' H Hle;
    [discriminate|].
  destruct fuel' as [|fuel']; [lia|]. simpl in *.
  destruct remaining; [assumption|].
  destruct (iteration _) as [[r remaining']|]; [|assumption].
  apply IH; [assumption|lia].
Qed.

End PlainFacts.

(** ** The load-balanced builder *)

Section LoadBalancedFacts.
Import LoadBalanced.

Lemma insertSorted_length key p l :
  length (insertSorted key p l) = S (length l).
Proof.
  induction l as [|q l IH]; simpl; [reflexivity|].
  destruct (key p <=? key q); simpl; [reflexivity|now rewrite IH].
Qed.

Lemma sortBy_length key l : length (sortBy key l) = length l.
Proof.
  induction l as [|p l IH]; simpl; [reflexivity|].
  now rewrite insertSorted_length, IH.
Qed.

Lemma balanced_visit_inv L st p :
  balancedInv L st → p ∈ L → balancedInv L (visit st p).
Proof.
  intros (HL & HU & HD) Hp. unfold visit. destruct p as [a b].
  destruct (bool_decide (a ∉ usedTeams st)) eqn:Ha; [|now repeat split].
  destruct (bool_decide (b ∉ usedTeams st)) eqn:Hb; [|now repeat split].
  destruct (bool_decide (pairKey a b ∉ playedPairs st));
    [|now repeat split].
  apply bool_decide_eq_true in Ha, Hb. simpl.
  split; [|split]; simpl.
  - intros x Hx. apply elem_of_app in Hx as [Hx|Hx]; [auto|].
    apply list_elem_of_singleton in Hx as ->. assumption.
  - intros x t Hx Ht. rewrite !elem_of_union, !elem_of_singleton.
    apply elem_of_app in Hx as [Hx|Hx]; [eauto|].
    apply list_elem_of_singleton in Hx as ->.
    apply elem_of_teamsOf in Ht as [->| ->]; auto.
  - rewrite fmap_app. simpl. apply roundDisjoint_snoc; [assumption|].
    intros q Hq. apply list_elem_of_fmap in Hq as (x & -> & Hx).
    apply (apart_of_fresh (usedTeams st)); eauto.
Qed.

Lemma balanced_visit_length st p :
  (length (round (visit st p)) ≤ S (length (round st)))%nat.
Proof.
  unfold visit. destruct p as [a b].
  destruct (_ && _); simpl; [rewrite length_app; simpl|]; lia.
Qed.

Lemma balanced_fillRound_inv L l : ∀ st,
  balancedInv L st → (∀ p, p ∈ l → p ∈ L) → balancedInv L (fillRound st l).
Proof.
  induction l as [|p l IH]; intros st Hst Hl; simpl; [assumption|].
  assert (balancedInv L (visit st p)) as Hv.
  { apply balanced_visit_inv; [assumption|]. apply Hl. left. }
  destruct (length (round (visit st p)) =? 2)%nat; [assumption|].
  apply IH; [assumption|]. intros x Hx. apply Hl. now right.
Qed.

Lemma balanced_fillRound_length l : ∀ st,
  (length (round st) < 2)%nat →
  (length (round (fillRound st l)) ≤ 2)%nat.
Proof.
  induction l as [|p l IH]; intros st Hst; simpl; [lia|].
  pose proof (balanced_visit_length st p) as Hv.
  destruct (length (round (visit st p)) =? 2)%nat eqn:E.
  - apply Nat.eqb_eq in E. lia.
  - apply Nat.eqb_neq in E. apply IH. lia.
Qed.

(** An iteration that does not leave the loop appends one full round and
    takes exactly its two pairs out of [remainingPairs]. *)
Lemma balanced_iteration_spec b b' :
  iteration b = Some b' →
  ∃ r, rounds b' = rounds b ++ [r] ∧ fullRound (teams <$> r) ∧
       (length (remainingPairs b') + 2 = length (remainingPairs b))%nat.
Proof.
  unfold iteration.
  set (sorted := sortBy (playedSum (counts b)) (remainingPairs b)).
  set (st := fillRound (mkScan ∅ [] (played b) (counts b)) sorted).
  destruct (length (round st) <? 2)%nat eqn:E; [discriminate|].
  intros [= <-]. apply Nat.ltb_ge in E. simpl.
  exists (round st). split; [reflexivity|].
  assert (balancedInv sorted st) as (HL & HU & HD).
  { apply balanced_fillRound_inv; [|auto]. split; [|split]; simpl.
    - intros ? H. now inversion H.
    - intros ? ? H. now inversion H.
    - apply roundDisjoint_nil. }
  assert (length (round st) ≤ 2)%nat as Hle
    by (apply balanced_fillRound_length; simpl; lia).
  assert (length (round st) = 2%nat) as Hlen by lia.
  split; [split; [now rewrite length_fmap|assumption]|].
  rewrite <- (sortBy_length (playedSum (counts b)) (remainingPairs b)).
  fold sorted.
  destruct (round st) as [|m1 [|m2 [|? ?]]] eqn:Hr; try discriminate.
  unfold removeUsed; simpl.
  assert (apart (teams m1) (teams m2)) as Hap
    by (apply roundDisjoint_two; exact HD).
  assert (S (length (removeFirst (sameTeams (teams m1)) sorted))
          = length sorted) as H1.
  { apply removeFirst_length, list.Exists_exists. exists (teams m1). split.
    - apply HL. left.
    - apply sameTeams_refl. }
  assert (S (length (removeFirst (sameTeams (teams m2))
                       (removeFirst (sameTeams (teams m1)) sorted)))
          = length (removeFirst (sameTeams (teams m1)) sorted)) as H2.
  { apply removeFirst_length, list.Exists_exists. exists (teams m2). split.
    - apply removeFirst_keeps.
      + apply HL. right. left.
      + now apply apart_not_same.
    - apply sameTeams_refl. }
  lia.
Qed.

Lemma balanced_loop_spec fuel : ∀ b,
  (length (remainingPairs b) < fuel)%nat →
  ∃ more, loop fuel b = Some (rounds b ++ more) ∧
          Forall fullRound (pairsOf more) ∧
          (2 * length more ≤ length (remainingPairs b))%nat.
Proof.
  induction fuel as [|fuel IH]; intros b Hf; [lia|].
  simpl. destruct (remainingPairs b) as [|p rest] eqn:Hrem.
  { exists []. rewrite app_nil_r. repeat split; [constructor|simpl; lia]. }
  rewrite <- Hrem in *. clear Hrem p rest.
  destruct (iteration b) as [b'|] eqn:Hit.
  - apply balanced_iteration_spec in Hit as (r & Hr & Hfull & Hlen).
    destruct (IH b' ltac:(lia)) as (more & -> & HF & HL).
    exists (r :: more). rewrite Hr, <- app_assoc. simpl.
    repeat split; [constructor; assumption|lia].
  - exists []. rewrite app_nil_r. repeat split; [constructor|simpl; lia].
Qed.

Lemma balanced_scheduleRounds_spec teamCount :
  ∃ more, scheduleRounds teamCount = Some (round1 :: more) ∧
          Forall fullRound (pairsOf more) ∧
          (2 * length more ≤ length (initialRemaining teamCount))%nat.
Proof.
  unfold scheduleRounds.
  destruct (balanced_loop_spec (S (length (initialRemaining teamCount)))
              (initialBuild teamCount)) as (more & Heq & HF & HL).
  - simpl. lia.
  - exists more. auto.
Qed.

Lemma balanced_loop_fuel fuel : ∀ b out fuel',
  loop fuel b = Some out → (fuel ≤ fuel')%nat → loop fuel' b = Some out.
Proof.
  induction fuel as [|fuel IH]; intros b out fuel' H Hle; [discriminate|].
  destruct fuel' as [|fuel']; [lia|]. simpl in *.
  destruct (remainingPairs b); [assumption|].
  destruct (iteration b) as [b'|]; [|assumption].
  apply IH; [assumption|lia].
Qed.

End LoadBalancedFacts.

(** ** The seeded builder *)

Section SeededFacts.
Import Seeded.

(** The inner loop keeps every candidate, either in the round or in what
    is left, never lets the round grow beyond two matches, and only adds
    pairs that are apart from the ones already in the round. *)
Lemma seeded_fillRound_spec remaining : ∀ used round r kept,
  fillRound used round remaining = (r, kept) →
  (length round < 2)%nat →
  (∀ q t, q ∈ round → t ∈ teamsOf q → t ∈ used) →
  roundDisjoint round →
  (length r ≤ 2)%nat ∧ roundDisjoint r ∧
  (length r + length kept = length round + length remaining)%nat.
Proof.
  induction remaining as [|[a b] rest IH];
    intros used round r kept Hfill Hlen HU HD; simpl in Hfill.
  { injection Hfill as <- <-. simpl. split; [lia|split; [assumption|lia]]. }
  destruct (bool_decide (a ∉ used) && bool_decide (b ∉ used)) eqn:Hfree.
  - apply andb_prop in Hfree as [Ha Hb].
    apply bool_decide_eq_true in Ha, Hb.
    assert (roundDisjoint (round ++ [(a, b)])) as HD'.
    { apply roundDisjoint_snoc; [assumption|].
      intros q Hq. apply (apart_of_fresh used); eauto. }
    rewrite length_app in Hfill. simpl in Hfill.
    destruct (length round + 1 =? 2)%nat eqn:E.
    + injection Hfill as <- <-. apply Nat.eqb_eq in E.
      rewrite length_app. simpl.
      split; [lia|split; [assumption|lia]].
    + apply Nat.eqb_neq in E.
      apply IH in Hfill as (H1 & H2 & H3).
      * split; [assumption|split; [assumption|]].
        rewrite H3, length_app. simpl. lia.
      * rewrite length_app. simpl. lia.
      * intros q t Hq Ht. rewrite !elem_of_union, !elem_of_singleton.
        apply elem_of_app in Hq as [Hq|Hq]; [eauto|].
        apply list_elem_of_singleton in Hq as ->.
        apply elem_of_teamsOf in Ht as [->| ->]; auto.
      * assumption.
  - destruct (fillRound used round rest) as [r0 kept0] eqn:Hrest.
    injection Hfill as <- <-.
    destruct (IH _ _ _ _ Hrest Hlen HU HD) as (H1 & H2 & H3).
    split; [assumption|split; [assumption|simpl; lia]].
Qed.

Lemma seeded_iteration_spec remaining r remaining' :
  iteration remaining = Some (r, remaining') →
  fullRound r ∧ (length remaining' + 2 = length remaining)%nat.
Proof.
  unfold iteration.
  destruct (fillRound ∅ [] remaining) as [r0 kept] eqn:Hfill.
  destruct (length r0 =? 2)%nat eqn:E; [|discriminate].
  intros [= <- <-]. apply Nat.eqb_eq in E.
  apply seeded_fillRound_spec in Hfill as (H1 & H2 & H3).
  - split; [split; assumption|]. simpl in H3. lia.
  - simpl. lia.
  - intros ? ? H. now inversion H.
  - apply roundDisjoint_nil.
Qed.

Lemma seeded_loop_spec fuel : ∀ remaining rounds,
  (length remaining < fuel)%nat →
  ∃ more, loop fuel remaining rounds = Some (rounds ++ more) ∧
          Forall fullRound more ∧
          (2 * length more ≤ length remaining)%nat.
Proof.
  induction fuel as [|fuel IH]; intros remaining rounds Hf; [lia|].
  simpl. destruct remaining as [|p rest] eqn:Hrem.
  { exists []. rewrite app_nil_r. repeat split; [constructor|simpl; lia]. }
  rewrite <- Hrem in *. clear Hrem p rest.
  destruct (iteration remaining) as [[r remaining']|] eqn:Hit.
  - apply seeded_iteration_spec in Hit as [Hfull Hlen].
    destruct (IH remaining' (rounds ++ [r]) ltac:(lia))
      as (more & -> & HF & HL).
    exists (r :: more). rewrite <- app_assoc. simpl.
    repeat split; [constructor; assumption|lia].
  - exists []. rewrite app_nil_r. repeat split; [constructor|simpl; lia].
Qed.

Lemma seeded_scheduleRounds_spec pairs :
  ∃ rounds, scheduleRounds pairs = Some rounds ∧ Forall fullRound rounds ∧
            (2 * length rounds ≤ length pairs)%nat.
Proof.
  unfold scheduleRounds.
  destruct (seeded_loop_spec (S (length pairs)) pairs [] ltac:(lia))
    as (more & Heq & HF & HL).
  exists more. auto.
Qed.

Lemma seeded_loop_fuel fuel : ∀ remaining rounds out fuel',
  loop fuel remaining rounds = Some out → (fuel ≤ fuel')%nat →
  loop fuel' remaining rounds = Some out.
Proof.
  induction fuel as [|fuel IH]; intros remaining rounds out fuel' H Hle;
    [discriminate|].
  destruct fuel' as [|fuel']; [lia|]. simpl in *.
  destruct remaining; [assumption|].
  destruct (iteration _) as [[r remaining']|]; [|assumption].
  apply IH; [assumption|lia].
Qed.

End SeededFacts.

(** ** The generator, the shuffle and the table of schedules *)

Section ShuffleFacts.
Import Seeded.

Lemma toUint32_range x : 0 ≤ toUint32 x < 2 ^ 32.
Proof. unfold toUint32. apply Z.mod_pos_bound. lia. Qed.

(** The numerator returned by the generator is a 32-bit unsigned
    integer, so the returned number lies in [0, 1). *)
Lemma mulberry32_range a : 0 ≤ (mulberry32 a).2 < 2 ^ 32.
Proof.
  unfold mulberry32, ushr32. cbv zeta. cbn [snd].
  rewrite Z.shiftr_0_r. apply toUint32_range.
Qed.

Lemma pick_range n m : 0 ≤ n < 2 ^ 32 → (pick n (S m) < S m)%nat.
Proof.
  intros Hn. unfold pick.
  assert (0 ≤ n * Z.of_nat (S m) / 2 ^ 32 < Z.of_nat (S m)) as H.
  { split.
    - apply Z.div_pos; lia.
    - apply Z.div_lt_upper_bound; nia. }
  lia.
Qed.

Lemma insert_Permutation {A} (l : list A) : ∀ i x y,
  l !! i = Some x → x :: <[i:=y]> l ≡ₚ y :: l.
Proof.
  induction l as [|z l IH]; intros [|i] x y H; simpl in *;
    try discriminate.
  - injection H as ->. apply perm_swap.
  - etrans; [apply perm_swap|].
    etrans; [apply perm_skip, (IH i x y H)|]. apply perm_swap.
Qed.

Lemma swap_Permutation {A} (arr : list A) : ∀ m i, swap arr m i ≡ₚ arr.
Proof.
  unfold swap. induction arr as [|z arr IH]; intros m i; [now destruct m|].
  destruct m as [|m], i as [|i]; simpl.
  - reflexivity.
  - destruct (arr !! i) as [x|] eqn:Hi; [|reflexivity]. simpl.
    now apply insert_Permutation.
  - destruct (arr !! m) as [t|] eqn:Hm; [|reflexivity]. simpl.
    now apply insert_Permutation.
  - specialize (IH m i).
    destruct (arr !! m) as [t|]; [|reflexivity].
    destruct (arr !! i) as [x|]; [|reflexivity].
    simpl. now rewrite IH.
Qed.

Lemma swap_length {A} (arr : list A) m i :
  length (swap arr m i) = length arr.
Proof. apply Permutation_length, swap_Permutation. Qed.

Lemma shuffleLoop_Permutation {A} m : ∀ a (arr : list A),
  shuffleLoop m a arr ≡ₚ arr.
Proof.
  induction m as [|m IH]; intros a arr; simpl; [reflexivity|].
  destruct (mulberry32 a) as [a' n]. rewrite IH. apply swap_Permutation.
Qed.

(** The shuffle only reorders its argument. *)
Lemma seededShuffle_Permutation {A} (array : list A) seed :
  seededShuffle array seed ≡ₚ array.
Proof. apply shuffleLoop_Permutation. Qed.

Lemma scheduleFor_spec teamCount :
  ∃ more, scheduleFor teamCount = Some (firstRound :: more) ∧
          Forall fullRound more ∧
          (2 * length more ≤ length (remainingPairs teamCount))%nat.
Proof.
  unfold scheduleFor.
  destruct (seeded_scheduleRounds_spec (shuffledPairs teamCount))
    as (more & -> & HF & HL).
  exists more. simpl. split; [reflexivity|split; [assumption|]].
  unfold shuffledPairs in HL.
  now rewrite (Permutation_length (seededShuffle_Permutation _ _)) in HL.
Qed.

(** The table built by the [for] loop over a list of team counts holds,
    for each of them, the schedule of the loop body. *)
Lemma precompute_fold (teamCounts : list Z) :
  ∀ table : gmap Z (list (list Pair)),
  ∃ table' : gmap Z (list (list Pair)),
    foldl (λ acc teamCount,
             schedules ← acc;
             schedule ← scheduleFor teamCount;
             Some (<[teamCount := schedule]> schedules))
          (Some table) teamCounts = Some table' ∧
    ∀ n, table' !! n =
         if decide (n ∈ teamCounts) then scheduleFor n else table !! n.
Proof.
  induction teamCounts as [|tc l IH]; intros table; simpl.
  - exists table. split; [reflexivity|]. intros n.
    destruct (decide (n ∈ [])) as [H|_]; [now inversion H|reflexivity].
  - destruct (scheduleFor_spec tc) as (more & Htc & _). rewrite Htc. simpl.
    destruct (IH (<[tc := firstRound :: more]> table)) as (table' & -> & HL).
    exists table'. split; [reflexivity|]. intros n. rewrite HL.
    destruct (decide (n = tc)) as [->|Hne].
    + rewrite lookup_insert_eq, Htc.
      destruct (decide (tc ∈ l)); destruct (decide (tc ∈ tc :: l)) as [|Hn];
        try reflexivity; try assumption.
      all: exfalso; apply Hn; left.
    + rewrite lookup_insert_ne by congruence.
      destruct (decide (n ∈ l)) as [Hin|Hnin];
        destruct (decide (n ∈ tc :: l)) as [Hin'|Hnin']; try reflexivity.
      * exfalso. apply Hnin'. now right.
      * exfalso. apply elem_of_cons in Hin' as [?|?]; auto.
Qed.

Lemma precomputeSchedules_spec :
  ∃ schedules, precomputeSchedules = Some schedules ∧
    ∀ n, schedules !! n =
         if decide (4 ≤ n ≤ 15) then scheduleFor n else None.
Proof.
  destruct (precompute_fold (seqZ 4 12) ∅) as (table & Heq & HL).
  exists table. split; [exact Heq|]. intros n. rewrite HL, lookup_empty.
  destruct (decide (n ∈ seqZ 4 12)) as [Hin|Hnin];
    destruct (decide (4 ≤ n ≤ 15)) as [Hr|Hnr]; try reflexivity.
  - apply elem_of_seqZ in Hin. lia.
  - exfalso. apply Hnin, elem_of_seqZ. lia.
Qed.

End ShuffleFacts.

(** ** Every variant at once *)

Lemma openingPairs_full : fullRound openingPairs.
Proof.
  split; [reflexivity|].
  apply (roundDisjoint_snoc [(1, 2)] (3, 4)).
  - apply (roundDisjoint_snoc [] (1, 2)); [apply roundDisjoint_nil|].
    intros q Hq. inversion Hq.
  - intros q Hq. apply list_elem_of_singleton in Hq as ->.
    intros t Ht Ht'. apply elem_of_teamsOf in Ht, Ht'. simpl in *. lia.
Qed.

Lemma generateSchedule_seeded_in_range n :
  4 ≤ n ≤ 15 → generateSchedule SeededFixed n = Seeded.scheduleFor n.
Proof.
  intros Hn. unfold generateSchedule, Seeded.scheduleOf.
  destruct precomputeSchedules_spec as (schedules & -> & HL). simpl.
  rewrite HL. destruct (decide (4 ≤ n ≤ 15)); [|contradiction].
  destruct (scheduleFor_spec n) as (more & -> & _). reflexivity.
Qed.

Lemma generateSchedule_seeded_out_of_range n :
  ¬ (4 ≤ n ≤ 15) → generateSchedule SeededFixed n = Some [].
Proof.
  intros Hn. unfold generateSchedule, Seeded.scheduleOf.
  destruct precomputeSchedules_spec as (schedules & -> & HL). simpl.
  rewrite HL. destruct (decide (4 ≤ n ≤ 15)); [contradiction|reflexivity].
Qed.

(** Whatever the variant and the team count, the generation comes to an
    end and every round of its schedule is full. *)
Lemma generateSchedule_full v n :
  ∃ schedule, generateSchedule v n = Some schedule ∧
              Forall fullRound schedule.
Proof.
  destruct v.
  - destruct (plain_groupRounds_spec (generatePairs n)) as (rs & H & HF & _).
    exists (pairsOf rs). simpl. rewrite H. auto.
  - destruct (balanced_scheduleRounds_spec n) as (more & H & HF & _).
    exists (pairsOf (LoadBalanced.round1 :: more)). simpl. rewrite H.
    split; [reflexivity|]. constructor; [apply openingPairs_full|assumption].
  - destruct (decide (4 ≤ n ≤ 15)) as [Hn|Hn].
    + rewrite (generateSchedule_seeded_in_range n Hn).
      destruct (scheduleFor_spec n) as (more & -> & HF & _).
      eexists. split; [reflexivity|].
      constructor; [apply openingPairs_full|assumption].
    + rewrite (generateSchedule_seeded_out_of_range n Hn).
      eexists. split; [reflexivity|constructor].
Qed.

(** ** The pair generator *)

Lemma elem_of_generatePairs (p : Pair) (n : Z) :
  p ∈ generatePairs n ↔ 1 ≤ p.1 ∧ p.1 < p.2 ∧ p.2 ≤ n.
Proof.
  unfold generatePairs. rewrite list_elem_of_bind. split.
  - intros (i & Hp & Hi). apply list_elem_of_fmap in Hp as (j & -> & Hj).
    apply elem_of_seqZ in Hi, Hj. simpl. lia.
  - intros (H1 & H2 & H3). exists p.1. split.
    + apply list_elem_of_fmap. exists p.2. split; [now destruct p|].
      apply elem_of_seqZ. lia.
    + apply elem_of_seqZ. lia.
Qed.

Lemma NoDup_generatePairs (n : Z) : NoDup (generatePairs n).
Proof.
  unfold generatePairs. apply NoDup_bind.
  - intros i1 i2 p _ _ H1 H2.
    apply list_elem_of_fmap in H1 as (j1 & -> & _).
    apply list_elem_of_fmap in H2 as (j2 & [= -> _] & _). reflexivity.
  - intros i _. apply NoDup_fmap_2; [|apply NoDup_seqZ].
    intros j1 j2 [= ->]. reflexivity.
  - apply NoDup_seqZ.
Qed.

Lemma normalizePair_ordered (p : Pair) : p.1 < p.2 → normalizePair p = p.
Proof.
  intros H. unfold normalizePair. apply Z.ltb_lt in H. rewrite H.
  now destruct p.
Qed.

Lemma normalizePair_generatePairs (n : Z) :
  normalizePair <$> generatePairs n = generatePairs n.
Proof.
  rewrite <- (list_fmap_id (generatePairs n)) at 2.
  apply list_fmap_ext. intros i p Hp.
  apply list_elem_of_lookup_2, elem_of_generatePairs in Hp.
  apply normalizePair_ordered. unfold id. lia.
Qed.

(** The rows [i = 1..k] of the double loop hold [k*n - k*(k+1)/2] pairs. *)
Lemma length_generatePairs_rows (n : Z) (k : nat) :
  Z.of_nat k ≤ n →
  2 * Z.of_nat (length (seqZ 1 (Z.of_nat k) ≫=
                          λ i, (λ j, (i, j)) <$> seqZ (i + 1) (n - i)))
  = 2 * Z.of_nat k * n - Z.of_nat k * (Z.of_nat k + 1).
Proof.
  induction k as [|k IH]; intros Hk; [reflexivity|].
  rewrite seqZ_S, bind_app, length_app. simpl.
  rewrite app_nil_r, length_fmap, length_seqZ.
  rewrite Nat2Z.inj_add, Z.mul_add_distr_l, IH by lia.
  rewrite Z2Nat.id by lia. lia.
Qed.

(** [generatePairs n] holds [n*(n-1)/2] pairs. *)
Lemma length_generatePairs (n : Z) :
  0 ≤ n → Z.of_nat (length (generatePairs n)) = n * (n - 1) / 2.
Proof.
  intros Hn. pose proof (length_generatePairs_rows n (Z.to_nat n)) as H.
  rewrite Z2Nat.id in H by lia. specialize (H ltac:(lia)).
  fold (generatePairs n) in H.
  apply Z.div_unique_exact; lia.
Qed.

(** ** Scheduled pairs are taken from the candidates *)

Lemma NoDup_fmap_eq {A B} (f : A → B) (l : list A) x y :
  NoDup (f <$> l) → x ∈ l → y ∈ l → f x = f y → x = y.
Proof.
  induction l as [|z l IH]; intros Hnd Hx Hy Hf; [inversion Hx|].
  rewrite fmap_cons in Hnd. apply NoDup_cons in Hnd as [Hz Hnd].
  apply elem_of_cons in Hx as [->|Hx], Hy as [->|Hy]; auto.
  - exfalso. apply Hz. rewrite Hf. now apply list_elem_of_fmap_2.
  - exfalso. apply Hz. rewrite <- Hf. now apply list_elem_of_fmap_2.
Qed.

Lemma removeFirst_Permutation {A} (test : A → bool) (l : list A) x :
  x ∈ l → test x = true → (∀ y, y ∈ l → test y = true → y = x) →
  x :: removeFirst test l ≡ₚ l.
Proof.
  induction l as [|z l IH]; intros Hx Ht Hu; [inversion Hx|]. simpl.
  destruct (test z) eqn:Hz.
  - rewrite (Hu z) by (assumption || left). reflexivity.
  - apply elem_of_cons in Hx as [->|Hx]; [congruence|].
    etrans; [apply perm_swap|]. apply perm_skip, IH; [assumption..|].
    intros y Hy. apply Hu. now right.
Qed.

Lemma sameTeams_normalizePair (t p : Pair) :
  sameTeams t p = true → normalizePair p = normalizePair t.
Proof.
  destruct t as [a b], p as [c d]. unfold sameTeams, normalizePair. simpl.
  intros H. apply orb_prop in H as [H|H]; apply andb_prop in H as [H1 H2];
    apply Z.eqb_eq in H1, H2; subst; [reflexivity|].
  destruct (Z.ltb_spec b a), (Z.ltb_spec a b); try reflexivity; try lia.
  f_equal; lia.
Qed.

(** Removing two pairs that are apart, each by the [findIndex] test, from
    a list without repeated unordered pairs takes out exactly these two
    elements. *)
Lemma removeFirst_two {A} (proj : A → Pair) (L : list A) x1 x2 :
  NoDup (normalizePair ∘ proj <$> L) → x1 ∈ L → x2 ∈ L →
  apart (proj x1) (proj x2) →
  x1 :: x2 :: removeFirst (λ y, sameTeams (proj x2) (proj y))
                (removeFirst (λ y, sameTeams (proj x1) (proj y)) L) ≡ₚ L.
Proof.
  intros Hnd H1 H2 Hap.
  assert (∀ x y, x ∈ L → y ∈ L → sameTeams (proj x) (proj y) = true → y = x)
    as Huniq.
  { intros x y Hx Hy Hs. apply (NoDup_fmap_eq _ L y x Hnd Hy Hx). simpl.
    now apply sameTeams_normalizePair. }
  set (L1 := removeFirst (λ y, sameTeams (proj x1) (proj y)) L).
  assert (x1 :: L1 ≡ₚ L) as HL1.
  { apply removeFirst_Permutation; [assumption|apply sameTeams_refl|].
    intros y Hy. now apply Huniq. }
  assert (x2 ∈ L1) as H2'.
  { apply removeFirst_keeps; [assumption|now apply apart_not_same]. }
  rewrite <- HL1. apply perm_skip.
  apply removeFirst_Permutation; [assumption|apply sameTeams_refl|].
  intros y Hy. apply Huniq; [assumption|].
  eapply removeFirst_elem_of, Hy.
Qed.

Lemma NoDup_fmap_app_r {A B} (f : A → B) (l k m : list A) :
  l ++ k ≡ₚ m → NoDup (f <$> m) → NoDup (f <$> k).
Proof.
  intros Hp Hnd. rewrite <- Hp, fmap_app in Hnd.
  now apply NoDup_app in Hnd as (_ & _ & Hnd).
Qed.

Section SeededPairs.
Import Seeded.

Lemma seeded_fillRound_perm remaining : ∀ used round r kept,
  fillRound used round remaining = (r, kept) →
  r ++ kept ≡ₚ round ++ remaining.
Proof.
  induction remaining as [|[a b] rest IH]; intros used round r kept H;
    simpl in H.
  { now injection H as <- <-. }
  destruct (bool_decide (a ∉ used) && bool_decide (b ∉ used)).
  - destruct (length (round ++ [(a, b)]) =? 2)%nat.
    + injection H as <- <-. now rewrite <- app_assoc.
    + apply IH in H. now rewrite H, <- app_assoc.
  - destruct (fillRound used round rest) as [r0 kept0] eqn:Hrest.
    injection H as <- <-. apply IH in Hrest.
    rewrite <- Permutation_middle, Hrest. apply Permutation_middle.
Qed.

Lemma seeded_iteration_perm remaining r remaining' :
  iteration remaining = Some (r, remaining') → r ++ remaining' ≡ₚ remaining.
Proof.
  unfold iteration.
  destruct (fillRound ∅ [] remaining) as [r0 kept] eqn:Hfill.
  destruct (length r0 =? 2)%nat; [|discriminate].
  intros [= <- <-]. now apply seeded_fillRound_perm in Hfill.
Qed.

Lemma seeded_loop_perm fuel : ∀ remaining rounds out,
  loop fuel remaining rounds = Some out →
  ∃ more leftover, out = rounds ++ more ∧
                   concat more ++ leftover ≡ₚ remaining.
Proof.
  induction fuel as [|fuel IH]; intros remaining rounds out H;
    [discriminate|].
  simpl in H. destruct remaining as [|p rest] eqn:Hrem.
  { injection H as <-. exists [], []. now rewrite app_nil_r. }
  rewrite <- Hrem in *. clear Hrem p rest.
  destruct (iteration remaining) as [[r remaining']|] eqn:Hit.
  - apply IH in H as (more & leftover & -> & Hp).
    apply seeded_iteration_perm in Hit.
    exists (r :: more), leftover. rewrite <- app_assoc. split; [reflexivity|].
    simpl. now rewrite <- app_assoc, Hp.
  - injection H as <-. exists [], remaining. now rewrite app_nil_r.
Qed.
End SeededPairs.

Section PlainPairs.
Import Plain.

(** The round of an iteration that goes on: two matches of [remaining]
    that are apart. *)
Lemma plain_iteration_shape remaining r remaining' :
  iteration remaining = Some (r, remaining') →
  ∃ m1 m2, r = [m1; m2] ∧ m1 ∈ remaining ∧ m2 ∈ remaining ∧
           apart (teams m1) (teams m2) ∧
           remaining' = removeUsed remaining [m1; m2].
Proof.
  intros Hit. pose proof Hit as Hspec.
  apply plain_iteration_spec in Hspec as [[Hlen HD] _].
  unfold iteration in Hit.
  set (st := fillRound (mkScan ∅ []) remaining) in *.
  destruct (length (round st) <? 2)%nat; [discriminate|].
  injection Hit as <- <-.
  assert (plainInv remaining st) as (HL & _ & _).
  { apply plain_fillRound_inv; [|auto]. split; [|split]; simpl.
    - intros ? H. now inversion H.
    - intros ? ? H. now inversion H.
    - apply roundDisjoint_nil. }
  rewrite length_fmap in Hlen.
  destruct (round st) as [|m1 [|m2 [|? ?]]]; try discriminate.
  exists m1, m2. split; [reflexivity|].
  split; [apply HL; left|]. split; [apply HL; right; left|].
  split; [now apply roundDisjoint_two|reflexivity].
Qed.

Lemma plain_iteration_perm remaining r remaining' :
  NoDup (normalizePair ∘ teams <$> remaining) →
  iteration remaining = Some (r, remaining') →
  r ++ remaining' ≡ₚ remaining.
Proof.
  intros Hnd Hit.
  apply plain_iteration_shape in Hit as (m1 & m2 & -> & H1 & H2 & Hap & ->).
  unfold removeUsed. simpl. now apply (removeFirst_two teams).
Qed.

Lemma plain_loop_perm fuel : ∀ remaining rounds out,
  NoDup (normalizePair ∘ teams <$> remaining) →
  loop fuel remaining rounds = Some out →
  ∃ more leftover, out = rounds ++ more ∧
                   concat more ++ leftover ≡ₚ remaining.
Proof.
  induction fuel as [|fuel IH]; intros remaining rounds out Hnd H;
    [discriminate|].
  simpl in H. destruct remaining as [|p rest] eqn:Hrem.
  { injection H as <-. exists [], []. now rewrite app_nil_r. }
  rewrite <- Hrem in *. clear Hrem p rest.
  destruct (iteration remaining) as [[r remaining']|] eqn:Hit.
  - apply plain_iteration_perm in Hit; [|assumption].
    apply IH in H as (more & leftover & -> & Hp);
      [|exact (NoDup_fmap_app_r _ _ _ _ Hit Hnd)].
    exists (r :: more), leftover. rewrite <- app_assoc. split; [reflexivity|].
    simpl. now rewrite <- app_assoc, Hp.
  - injection H as <-. exists [], remaining. now rewrite app_nil_r.
Qed.
End PlainPairs.

Section LoadBalancedPairs.
Import LoadBalanced.

Lemma insertSorted_Permutation key p l : insertSorted key p l ≡ₚ p :: l.
Proof.
  induction l as [|q l IH]; simpl; [reflexivity|].
  destruct (key p <=? key q); [reflexivity|].
  rewrite IH. apply perm_swap.
Qed.

(** Sorting only reorders the candidates. *)
Lemma sortBy_Permutation key l : sortBy key l ≡ₚ l.
Proof.
  induction l as [|p l IH]; simpl; [reflexivity|].
  now rewrite insertSorted_Permutation, IH.
Qed.

Lemma balanced_iteration_perm b b' :
  NoDup (normalizePair <$> remainingPairs b) →
  iteration b = Some b' →
  ∃ r, rounds b' = rounds b ++ [r] ∧
       (teams <$> r) ++ remainingPairs b' ≡ₚ remainingPairs b.
Proof.
  intros Hnd Hit. pose proof Hit as Hspec.
  apply balanced_iteration_spec in Hspec as (r0 & Hr0 & [Hlen HD] & _).
  unfold iteration in Hit.
  set (sorted := sortBy (playedSum (counts b)) (remainingPairs b)) in *.
  set (st := fillRound (mkScan ∅ [] (played b) (counts b)) sorted) in *.
  destruct (length (round st) <? 2)%nat; [discriminate|].
  injection Hit as <-. simpl in *.
  apply app_inj_tail in Hr0 as [_ <-].
  exists (round st). split; [reflexivity|].
  assert (balancedInv sorted st) as (HL & _ & _).
  { apply balanced_fillRound_inv; [|auto]. split; [|split]; simpl.
    - intros ? H. now inversion H.
    - intros ? ? H. now inversion H.
    - apply roundDisjoint_nil. }
  rewrite length_fmap in Hlen.
  destruct (round st) as [|m1 [|m2 [|? ?]]]; try discriminate.
  rewrite <- (sortBy_Permutation (playedSum (counts b)) (remainingPairs b)).
  fold sorted. unfold removeUsed. simpl.
  apply (removeFirst_two id sorted (teams m1) (teams m2)).
  - change (normalizePair ∘ id) with normalizePair. subst sorted.
    now rewrite sortBy_Permutation.
  - apply HL. left.
  - apply HL. right. left.
  - now apply roundDisjoint_two.
Qed.

Lemma balanced_loop_perm fuel : ∀ b out,
  NoDup (normalizePair <$> remainingPairs b) →
  loop fuel b = Some out →
  ∃ more leftover, out = rounds b ++ more ∧
                   concat (pairsOf more) ++ leftover ≡ₚ remainingPairs b.
Proof.
  induction fuel as [|fuel IH]; intros b out Hnd H; [discriminate|].
  simpl in H. destruct (remainingPairs b) as [|p rest] eqn:Hrem.
  { injection H as <-. exists [], []. now rewrite app_nil_r. }
  rewrite <- Hrem in *. clear Hrem p rest.
  destruct (iteration b) as [b'|] eqn:Hit.
  - apply balanced_iteration_perm in Hit as (r & Hr & Hp); [|assumption].
    apply IH in H as (more & leftover & -> & Hp');
      [|exact (NoDup_fmap_app_r _ _ _ _ Hp Hnd)].
    exists (r :: more), leftover. rewrite Hr, <- app_assoc.
    split; [reflexivity|].
    simpl. now rewrite <- app_assoc, Hp'.
  - injection H as <-. exists [], (remainingPairs b). now rewrite app_nil_r.
Qed.
End LoadBalancedPairs.

(** ** The whole schedule *)

Lemma concat_pairsOf (rounds : list (list Match)) :
  concat (pairsOf rounds) = teams <$> concat rounds.
Proof.
  induction rounds as [|r rounds IH]; simpl; [reflexivity|].
  now rewrite fmap_app, <- IH.
Qed.

Lemma NoDup_filter_generatePairs (keep : Pair → bool) (n : Z) :
  NoDup (normalizePair <$> List.filter keep (generatePairs n)).
Proof.
  pose proof (NoDup_generatePairs n) as Hnd.
  rewrite <- normalizePair_generatePairs in Hnd.
  rewrite <- (filter_split keep (generatePairs n)), fmap_app in Hnd.
  now apply NoDup_app in Hnd as (Hnd & _ & _).
Qed.

(** With four teams or more, the candidates of a fixed-opening variant
    and the two opening pairs are all among the generated pairs, the
    opening pairs not being candidates. *)
Lemma opening_removed (keep : Pair → bool) (n : Z) :
  4 ≤ n → keep (1, 2) = false → keep (3, 4) = false →
  ∃ rest, openingPairs ++ List.filter keep (generatePairs n) ++ rest
          ≡ₚ generatePairs n.
Proof.
  intros Hn H12 H34.
  pose proof (filter_split keep (generatePairs n)) as Hs.
  set (removed := List.filter (λ x, negb (keep x)) (generatePairs n)) in *.
  assert ((1, 2) ∈ removed) as Hin12.
  { apply elem_of_filter_bool. rewrite H12. split; [|reflexivity].
    apply elem_of_generatePairs. simpl. lia. }
  assert ((3, 4) ∈ removed) as Hin34.
  { apply elem_of_filter_bool. rewrite H34. split; [|reflexivity].
    apply elem_of_generatePairs. simpl. lia. }
  apply elem_of_Permutation in Hin12 as [k1 Hk1].
  rewrite Hk1 in Hin34. apply elem_of_cons in Hin34 as [?|Hin34];
    [discriminate|].
  apply elem_of_Permutation in Hin34 as [rest Hrest].
  exists rest. etrans; [|exact Hs]. rewrite Hk1, Hrest. unfold openingPairs.
  rewrite app_assoc, (Permutation_app_comm [(1, 2); (3, 4)]), <- app_assoc.
  reflexivity.
Qed.

(** Every variant, for four teams or more, schedules a part of the
    generated pairs, each at most as often as it was generated. *)
Lemma schedule_drawn_from_pairs (v : Variant) (n : Z) :
  4 ≤ n →
  ∃ schedule leftover,
    generateSchedule v n = Some schedule ∧
    matchesOf schedule ++ leftover ≡ₚ generatePairs n.
Proof.
  intros Hn. destruct v.
  - destruct (plain_groupRounds_spec (generatePairs n)) as (rounds & H & _).
    pose proof H as H'. unfold Plain.groupRounds in H'.
    apply plain_loop_perm in H' as (more & lo & Heq & Hp).
    + simpl in Heq. subst more.
      exists (pairsOf rounds), (teams <$> lo). simpl. rewrite H.
      split; [reflexivity|]. unfold matchesOf.
      rewrite concat_pairsOf, <- fmap_app, Hp, <- list_fmap_compose.
      apply reflexive_eq, list_fmap_id.
    + rewrite <- list_fmap_compose.
      change (NoDup (normalizePair <$> generatePairs n)).
      rewrite normalizePair_generatePairs. apply NoDup_generatePairs.
  - destruct (balanced_scheduleRounds_spec n) as (more & H & _).
    pose proof H as H'. unfold LoadBalanced.scheduleRounds in H'.
    apply balanced_loop_perm in H' as (more' & lo & Heq & Hp);
      [|apply NoDup_filter_generatePairs].
    simpl in Heq. injection Heq as <-.
    destruct (opening_removed LoadBalanced.notOpening n Hn eq_refl eq_refl)
      as [rest Hrest].
    exists (pairsOf (LoadBalanced.round1 :: more)), (lo ++ rest).
    simpl. rewrite H. split; [reflexivity|].
    rewrite <- Hrest. simpl in Hp. unfold LoadBalanced.initialRemaining in Hp.
    rewrite <- Hp. unfold matchesOf. simpl. rewrite <- !app_assoc. reflexivity.
  - destruct (decide (n ≤ 15)) as [Hn'|Hn'].
    + rewrite (generateSchedule_seeded_in_range n) by lia.
      unfold Seeded.scheduleFor.
      destruct (seeded_scheduleRounds_spec (Seeded.shuffledPairs n))
        as (rounds & H & _).
      rewrite H. pose proof H as H'. unfold Seeded.scheduleRounds in H'.
      apply seeded_loop_perm in H' as (more & lo & Heq & Hp).
      simpl in Heq. subst more.
      unfold Seeded.shuffledPairs in Hp.
      rewrite seededShuffle_Permutation in Hp.
      unfold Seeded.remainingPairs, Seeded.generateAllPairs in Hp.
      match type of Hp with _ ≡ₚ List.filter ?keep _ =>
        destruct (opening_removed keep n Hn eq_refl eq_refl) as [rest Hrest]
      end.
      exists (Seeded.firstRound :: rounds), (lo ++ rest).
      split; [reflexivity|].
      rewrite <- Hrest, <- Hp. unfold matchesOf. simpl.
      rewrite <- !app_assoc. reflexivity.
    + rewrite (generateSchedule_seeded_out_of_range n) by lia.
      exists [], (generatePairs n). split; reflexivity.
Qed.

(** ** Side conditions of the embedding *)

(** The shuffle only touches indices inside the array. *)
Lemma shuffle_indices_in_range {A} (arr : list A) (m : nat) (a : Z) :
  (S m ≤ length arr)%nat →
  is_Some (arr !! m) ∧
  is_Some (arr !! Seeded.pick (Seeded.mulberry32 a).2 (S m)).
Proof.
  intros Hm. pose proof (pick_range _ m (mulberry32_range a)) as Hp.
  split; apply lookup_lt_is_Some; lia.
Qed.

Lemma balanced_visit_counts st p t :
  is_Some (LoadBalanced.matchesCount st !! t) →
  is_Some (LoadBalanced.matchesCount (LoadBalanced.visit st p) !! t).
Proof.
  intros Ht. unfold LoadBalanced.visit. destruct p as [a b].
  destruct (_ && _); [|assumption]. simpl.
  rewrite !lookup_insert_is_Some'. auto.
Qed.

Lemma balanced_fillRound_counts l : ∀ st t,
  is_Some (LoadBalanced.matchesCount st !! t) →
  is_Some (LoadBalanced.matchesCount (LoadBalanced.fillRound st l) !! t).
Proof.
  induction l as [|p l IH]; intros st t Ht; simpl; [assumption|].
  destruct (_ =? _)%nat; [|apply IH]; now apply balanced_visit_counts.
Qed.

Lemma initialCount_defined (n t : Z) :
  1 ≤ t ≤ n → is_Some (LoadBalanced.initialCount n !! t).
Proof.
  intros Ht. unfold LoadBalanced.initialCount.
  rewrite !lookup_insert_is_Some'. do 4 right.
  assert (∀ (l : list Z) (mc : gmap Z Z),
            t ∈ l ∨ is_Some (mc !! t) →
            is_Some (foldl (λ mc i, <[i:=0]> mc) mc l !! t)) as Hfold.
  { induction l as [|i l IH]; intros mc H; simpl.
    - destruct H as [H|H]; [inversion H|assumption].
    - apply IH. rewrite lookup_insert_is_Some'.
      destruct H as [H|H]; [|auto].
      apply elem_of_cons in H as [->|H]; auto. }
  apply Hfold. left. apply elem_of_seqZ. lia.
Qed.

Lemma removeUsed_elem_of round : ∀ remaining p,
  p ∈ LoadBalanced.removeUsed remaining round → p ∈ remaining.
Proof.
  unfold LoadBalanced.removeUsed.
  induction round as [|m round IH]; intros remaining p Hp; simpl in Hp;
    [assumption|].
  apply IH in Hp. eapply removeFirst_elem_of, Hp.
Qed.

Lemma countsCover_initial (n : Z) : countsCover (LoadBalanced.initialBuild n).
Proof.
  intros p t Hp Ht. simpl in *. unfold LoadBalanced.initialRemaining in Hp.
  apply elem_of_filter_bool in Hp as [Hp _].
  apply elem_of_generatePairs in Hp. apply initialCount_defined.
  apply elem_of_teamsOf in Ht as [->| ->]; lia.
Qed.

Lemma countsCover_iteration b b' :
  countsCover b → LoadBalanced.iteration b = Some b' → countsCover b'.
Proof.
  intros Hb Hit. unfold LoadBalanced.iteration in Hit.
  destruct (_ <? _)%nat; [discriminate|]. injection Hit as <-.
  intros p t Hp Ht. simpl in *.
  apply balanced_fillRound_counts. simpl.
  apply removeUsed_elem_of in Hp. rewrite sortBy_Permutation in Hp.
  exact (Hb p t Hp Ht).
Qed.

(** [sortBy] is the stable ascending sort: its result is ordered by the
    key, and the pairs that share a key keep their relative order. *)
Lemma insertSorted_class key p l k :
  List.filter (λ q, key q =? k) (LoadBalanced.insertSorted key p l)
  = List.filter (λ q, key q =? k) (p :: l).
Proof.
  induction l as [|q l IH]; [reflexivity|]. simpl in *.
  destruct (Z.leb_spec (key p) (key q)) as [Hle|Hgt]; [reflexivity|].
  simpl. rewrite IH.
  destruct (Z.eqb_spec (key p) k), (Z.eqb_spec (key q) k);
    try reflexivity. lia.
Qed.

Lemma sortBy_stable key l k :
  List.filter (λ q, key q =? k) (LoadBalanced.sortBy key l)
  = List.filter (λ q, key q =? k) l.
Proof.
  induction l as [|p l IH]; [reflexivity|]. simpl.
  rewrite insertSorted_class. simpl. now rewrite IH.
Qed.

Lemma insertSorted_sorted key p l :
  StronglySorted (λ x y, key x ≤ key y) l →
  StronglySorted (λ x y, key x ≤ key y) (LoadBalanced.insertSorted key p l).
Proof.
  induction 1 as [|q l Hl IH Hq]; simpl; [repeat constructor|].
  destruct (Z.leb_spec (key p) (key q)) as [Hle|Hgt].
  - constructor; [now constructor|]. constructor; [assumption|].
    eapply Forall_impl; [exact Hq|]. intros y Hy. simpl in Hy. lia.
  - constructor; [assumption|].
    rewrite insertSorted_Permutation. constructor; [lia|assumption].
Qed.

Lemma sortBy_sorted key l :
  StronglySorted (λ x y, key x ≤ key y) (LoadBalanced.sortBy key l).
Proof.
  induction l as [|p l IH]; simpl; [constructor|].
  now apply insertSorted_sorted.
Qed.

(** ** Sample runs *)

Example generatePairs_four :
  generatePairs 4 = [(1, 2); (1, 3); (1, 4); (2, 3); (2, 4); (3, 4)].
Proof. reflexivity. Qed.

(** Five teams, plain greedy: after three rounds only pairs with team 5 are
    left, the fourth round cannot be filled and is dropped. *)
Example plain_five_teams :
  generateSchedule PlainGreedy 5
  = Some [[(1, 2); (3, 4)]; [(1, 3); (2, 4)]; [(1, 4); (2, 3)]].
Proof. vm_compute. reflexivity. Qed.

(** Six teams, load-balanced: the second round starts with the two teams
    that have not played yet. *)
Example balanced_six_teams :
  generateSchedule LoadBalancedFixed 6
  = Some [[(1, 2); (3, 4)]; [(5, 6); (1, 3)]; [(2, 5); (4, 6)];
          [(2, 6); (4, 5)]; [(1, 5); (3, 6)]; [(1, 4); (2, 3)];
          [(2, 4); (1, 6)]].
Proof. vm_compute. reflexivity. Qed.

(** The first number drawn by the generator seeded with 0 is
    1144304738 / 4294967296. *)
Example mulberry32_seed_zero :
  Seeded.mulberry32 0 = (1831565813, 1144304738).
Proof. vm_compute. reflexivity. Qed.

Example seeded_five_teams :
  generateSchedule SeededFixed 5
  = Some [[(1, 2); (3, 4)]; [(2, 4); (1, 5)]; [(3, 5); (1, 4)];
          [(1, 3); (4, 5)]].
Proof. vm_compute. reflexivity. Qed.

(** Outside the precomputed range the seeded variant shows no round. *)
Example seeded_sixteen_teams : generateSchedule SeededFixed 16 = Some [].
Proof. vm_compute. reflexivity. Qed.

(** Toggling court 0 of round 0 twice, both courts being complete, moves
    the index to the end of the array. *)
Example toggle_twice_reorders :
  Completion.toggleMatchComplete
    (Completion.toggleMatchComplete {[0 := [0; 1]]} 0 0) 0 0 !! 0
  = Some [1; 0].
Proof. vm_compute. reflexivity. Qed.

(** ** Completion toggles *)

Section ToggleFacts.
Import Completion.

Lemma flipAt_involutive ri ci r c m :
  flipAt ri ci r c (flipAt ri ci r c m) = m.
Proof.
  unfold flipAt.
  destruct ((Z.of_nat r =? ri) && (Z.of_nat c =? ci)); [|reflexivity].
  destruct m as [t b]. simpl. now rewrite negb_involutive.
Qed.

Lemma flipAt_teams ri ci r c m : teams (flipAt ri ci r c m) = teams m.
Proof. unfold flipAt. now destruct (_ && _). Qed.

Lemma flipAt_elsewhere ri ci r c m :
  ¬ (Z.of_nat r = ri ∧ Z.of_nat c = ci) → flipAt ri ci r c m = m.
Proof.
  intros H. unfold flipAt.
  destruct (Z.eqb_spec (Z.of_nat r) ri), (Z.eqb_spec (Z.of_nat c) ci);
    simpl; tauto.
Qed.

Lemma flipAt_there ri ci r c m :
  Z.of_nat r = ri → Z.of_nat c = ci →
  flipAt ri ci r c m = mkMatch (teams m) (negb (complete m)).
Proof. intros <- <-. unfold flipAt. now rewrite !Z.eqb_refl. Qed.

(** Reading a match of the toggled state. *)
Lemma matchAt_toggleComplete rounds ri ci r c :
  matchAt (toggleComplete rounds ri ci) r c
  = flipAt ri ci r c <$> matchAt rounds r c.
Proof.
  unfold matchAt, toggleComplete. rewrite list_lookup_imap.
  destruct (rounds !! r) as [round|]; simpl; [|reflexivity].
  apply list_lookup_imap.
Qed.

Lemma elem_of_setOfArray (array : list Z) x :
  x ∈ setOfArray array ↔ x ∈ array.
Proof.
  induction array as [|y l IH]; simpl; [reflexivity|].
  rewrite !elem_of_cons, elem_of_filter_bool, IH.
  rewrite negb_true_iff, Z.eqb_neq.
  destruct (decide (x = y)); tauto.
Qed.

(** The court indices stored for the toggled round after one toggle. *)
Lemma elem_of_toggled (courts : list Z) ci x :
  x ∈ (if bool_decide (ci ∈ setOfArray courts)
       then List.filter (λ y, negb (y =? ci)) (setOfArray courts)
       else setOfArray courts ++ [ci])
  ↔ (x ∈ courts ∧ x ≠ ci) ∨ (x = ci ∧ ci ∉ courts).
Proof.
  destruct (bool_decide (ci ∈ setOfArray courts)) eqn:E.
  - apply bool_decide_eq_true in E. rewrite elem_of_setOfArray in E.
    rewrite elem_of_filter_bool, elem_of_setOfArray.
    rewrite negb_true_iff, Z.eqb_neq. tauto.
  - apply bool_decide_eq_false in E. rewrite elem_of_setOfArray in E.
    rewrite elem_of_app, elem_of_setOfArray, list_elem_of_singleton.
    destruct (decide (x = ci)) as [->|]; tauto.
Qed.

Lemma isCompleted_toggle prev ri ci r c :
  isCompleted (toggleMatchComplete prev ri ci) r c
  = if decide (r = ri ∧ c = ci) then negb (isCompleted prev r c)
    else isCompleted prev r c.
Proof.
  unfold isCompleted, toggleMatchComplete.
  destruct (decide (r = ri)) as [->|Hr].
  - rewrite lookup_insert_eq.
    set (courts := default [] (prev !! ri)).
    assert (match prev !! ri with
            | Some courts => bool_decide (c ∈ courts)
            | None => false
            end = bool_decide (c ∈ courts)) as ->.
    { subst courts. destruct (prev !! ri); reflexivity. }
    pose proof (elem_of_toggled courts ci c) as Ht.
    destruct (decide (ri = ri ∧ c = ci)) as [[_ ->]|Hne].
    + destruct (bool_decide (ci ∈ courts)) eqn:E; simpl.
      * apply bool_decide_eq_true in E.
        apply bool_decide_eq_false. rewrite Ht. tauto.
      * apply bool_decide_eq_false in E.
        apply bool_decide_eq_true. rewrite Ht. tauto.
    + apply bool_decide_ext. rewrite Ht. split.
      * intros [[H _]|[-> _]]; [assumption|exfalso; apply Hne; auto].
      * intros H. left. split; [assumption|]. intros ->. apply Hne; auto.
  - rewrite lookup_insert_ne by congruence.
    destruct (decide (r = ri ∧ c = ci)) as [[? _]|_];
      [contradiction|reflexivity].
Qed.

End ToggleFacts.

(** * Main results *)

(** ** Round disjointness *)

(** C1. For every team count in [4,15] and every variant, the generation
    yields a schedule in which every round is disjoint: no team id occurs
    in two different matches of the same round. *)
Theorem rounds_are_disjoint (v : Variant) (n : Z) :
  4 ≤ n ≤ 15 →
  ∃ schedule, generateSchedule v n = Some schedule ∧
              Forall roundDisjoint schedule.
Proof.
  intros _. destruct (generateSchedule_full v n) as (schedule & H & HF).
  exists schedule. split; [assumption|].
  eapply Forall_impl; [exact HF|]. now intros r [_ Hr].
Qed.

Lemma rounds_are_disjoint_witness :
  ∃ schedule, generateSchedule LoadBalancedFixed 6 = Some schedule ∧
              Forall roundDisjoint schedule.
Proof. apply (rounds_are_disjoint LoadBalancedFixed 6). lia. Defined.

(** ** No pair twice *)

(** C2. For every team count [n] in [4,15] and every variant, the
    generated schedule holds at most [n*(n-1)/2] matches and no unordered
    pair of teams appears in two of its matches, the matches of a fixed
    opening round included. *)
Theorem no_pair_twice (v : Variant) (n : Z) :
  4 ≤ n ≤ 15 →
  ∃ schedule,
    generateSchedule v n = Some schedule ∧
    Z.of_nat (length (matchesOf schedule)) ≤ n * (n - 1) / 2 ∧
    noRepeat schedule.
Proof.
  intros [Hn _].
  destruct (schedule_drawn_from_pairs v n Hn) as (schedule & lo & H & Hp).
  exists schedule. split; [assumption|]. split.
  - rewrite <- length_generatePairs by lia.
    rewrite <- Hp, length_app. lia.
  - unfold noRepeat.
    pose proof (NoDup_generatePairs n) as Hnd.
    rewrite <- normalizePair_generatePairs, <- Hp, fmap_app in Hnd.
    now apply NoDup_app in Hnd as (Hnd & _ & _).
Qed.

Lemma no_pair_twice_witness :
  ∃ schedule,
    generateSchedule SeededFixed 8 = Some schedule ∧
    Z.of_nat (length (matchesOf schedule)) ≤ 8 * (8 - 1) / 2 ∧
    noRepeat schedule.
Proof. apply (no_pair_twice SeededFixed 8). lia. Defined.

(** ** No short rounds *)

(** C3. For every team count in [4,15] and every variant, every round of
    the generated schedule holds exactly two matches; and in each of the
    three loops an iteration that cannot fill its round ends the whole
    build with the rounds pushed so far, the partial round being dropped. *)
Theorem rounds_hold_two_matches (v : Variant) (n : Z) :
  4 ≤ n ≤ 15 →
  (∃ schedule, generateSchedule v n = Some schedule ∧
               Forall (λ round, length round = 2%nat) schedule) ∧
  (∀ fuel remaining rounds,
     remaining ≠ [] → Plain.iteration remaining = None →
     Plain.loop (S fuel) remaining rounds = Some rounds) ∧
  (∀ fuel b,
     LoadBalanced.remainingPairs b ≠ [] → LoadBalanced.iteration b = None →
     LoadBalanced.loop (S fuel) b = Some (LoadBalanced.rounds b)) ∧
  (∀ fuel remaining rounds,
     remaining ≠ [] → Seeded.iteration remaining = None →
     Seeded.loop (S fuel) remaining rounds = Some rounds).
Proof.
  intros _. split; [|split; [|split]].
  - destruct (generateSchedule_full v n) as (schedule & H & HF).
    exists schedule. split; [assumption|].
    eapply Forall_impl; [exact HF|]. now intros r [Hr _].
  - intros fuel remaining rounds Hne Hit. simpl.
    destruct remaining; [contradiction|]. now rewrite Hit.
  - intros fuel b Hne Hit. simpl.
    destruct (LoadBalanced.remainingPairs b); [contradiction|].
    now rewrite Hit.
  - intros fuel remaining rounds Hne Hit. simpl.
    destruct remaining; [contradiction|]. now rewrite Hit.
Qed.

Lemma rounds_hold_two_matches_witness :
  ∃ schedule, generateSchedule PlainGreedy 5 = Some schedule ∧
              Forall (λ round, length round = 2%nat) schedule.
Proof. apply (rounds_hold_two_matches PlainGreedy 5). lia. Defined.

(** ** Fixed opening round *)



(** ** Determinism of the seeded generation *)




(** ** Four teams *)

(** C6. With four teams both fixed-opening variants build three rounds of
    two matches: the opening round (1,2),(3,4) and two further full rounds,
    the six matches being the six pairs of the four teams. *)
Theorem four_teams_round_robin (v : Variant) :
  fixedOpening v = true →
  ∃ more,
    generateSchedule v 4 = Some ([(1, 2); (3, 4)] :: more) ∧
    length more = 2%nat ∧
    Forall (λ round, length round = 2%nat) more ∧
    length (matchesOf ([(1, 2); (3, 4)] :: more)) = 6%nat ∧
    normalizePair <$> matchesOf ([(1, 2); (3, 4)] :: more) ≡ₚ generatePairs 4.
Proof.
  destruct v; intros Hv; [discriminate| |].
  - exists [[(1, 3); (2, 4)]; [(1, 4); (2, 3)]].
    split; [vm_compute; reflexivity|].
    split; [reflexivity|]. split; [repeat constructor|].
    split; [reflexivity|].
    change (normalizePair <$> matchesOf _)
      with [(1, 2); (3, 4); (1, 3); (2, 4); (1, 4); (2, 3)].
    change (generatePairs 4)
      with [(1, 2); (1, 3); (1, 4); (2, 3); (2, 4); (3, 4)].
    solve_Permutation.
  - exists [[(1, 4); (2, 3)]; [(1, 3); (2, 4)]].
    split; [vm_compute; reflexivity|].
    split; [reflexivity|]. split; [repeat constructor|].
    split; [reflexivity|].
    change (normalizePair <$> matchesOf _)
      with [(1, 2); (3, 4); (1, 4); (2, 3); (1, 3); (2, 4)].
    change (generatePairs 4)
      with [(1, 2); (1, 3); (1, 4); (2, 3); (2, 4); (3, 4)].
    solve_Permutation.
Qed.

Lemma four_teams_round_robin_witness :
  ∃ more,
    generateSchedule SeededFixed 4 = Some ([(1, 2); (3, 4)] :: more) ∧
    length more = 2%nat ∧
    Forall (λ round, length round = 2%nat) more ∧
    length (matchesOf ([(1, 2); (3, 4)] :: more)) = 6%nat ∧
    normalizePair <$> matchesOf ([(1, 2); (3, 4)] :: more) ≡ₚ generatePairs 4.
Proof. apply (four_teams_round_robin SeededFixed). reflexivity. Defined.

(** ** Failure modes *)

(** The builder is called with 3 teams and returns a schedule. *)
Lemma builder_accepts_three_teams :
  runBuilder LoadBalancedFixed 3 = Some (Built [[(1, 2); (3, 4)]]) ∧
  ¬ (¬ (4 ≤ 3 ≤ 15) →
     runBuilder LoadBalancedFixed 3 = Some (Failed InvalidArgument)).
Proof.
  assert (runBuilder LoadBalancedFixed 3 = Some (Built [[(1, 2); (3, 4)]]))
    as H by (vm_compute; reflexivity).
  split; [exact H|]. intros Hc. rewrite H in Hc.
  assert (¬ (4 ≤ 3 ≤ 15)) as Hout by lia.
  specialize (Hc Hout). discriminate.
Qed.

(** C7, as the code has it. No builder checks the team count and none
    fails: for every team count, inside or outside [4,15], the call ends
    and returns a schedule. Keeping the team count inside [4,15] is the
    callers' part: the clamp of the seeded variant always lands in [4,15]
    and the guard of the plain variant accepts exactly [4,15]. *)
Theorem builders_never_fail (v : Variant) (n : Z) :
  (∃ schedule, runBuilder v n = Some (Built schedule)) ∧
  (∀ e, runBuilder v n ≠ Some (Failed e)) ∧
  (∀ parsed, 4 ≤ clampTeamCount parsed ≤ 15) ∧
  (∀ val, acceptTeamCount val = true ↔ 4 ≤ val ≤ 15).
Proof.
  destruct (generateSchedule_full v n) as (schedule & H & _).
  assert (runBuilder v n = Some (Built schedule)) as HB
    by (unfold runBuilder; now rewrite H).
  split; [now exists schedule|split; [|split]].
  - intros e. rewrite HB. discriminate.
  - intros parsed. unfold clampTeamCount. lia.
  - intros val. unfold acceptTeamCount.
    rewrite andb_true_iff, !Z.leb_le. reflexivity.
Qed.

(** ** Termination *)

(** C8. Each of the three round builders terminates on every input. An
    iteration of the loop that does not leave it takes exactly two pairs
    out of the remaining list; hence the loop started with more fuel than
    there are remaining pairs always returns, and the fuel the top-level
    function hands over is enough (any larger amount gives the same
    rounds). For the load-balanced builder this holds from every state of
    its loop, in particular from the initial one of any team count. *)
Theorem builders_terminate :
  (∀ remaining,
     match Plain.iteration remaining with
     | Some (_, remaining') =>
         (length remaining' + 2 = length remaining)%nat
     | None => True
     end) ∧
  (∀ b,
     match LoadBalanced.iteration b with
     | Some b' =>
         (length (LoadBalanced.remainingPairs b') + 2
          = length (LoadBalanced.remainingPairs b))%nat
     | None => True
     end) ∧
  (∀ remaining,
     match Seeded.iteration remaining with
     | Some (_, remaining') =>
         (length remaining' + 2 = length remaining)%nat
     | None => True
     end) ∧
  (∀ pairs, ∃ rounds,
     Plain.groupRounds pairs = Some rounds ∧
     ∀ fuel, (length pairs < fuel)%nat →
             Plain.loop fuel ((λ p, mkMatch p false) <$> pairs) []
             = Some rounds) ∧
  (∀ b, ∃ rounds,
     LoadBalanced.loop (S (length (LoadBalanced.remainingPairs b))) b
     = Some rounds ∧
     ∀ fuel, (length (LoadBalanced.remainingPairs b) < fuel)%nat →
             LoadBalanced.loop fuel b = Some rounds) ∧
  (∀ teamCount, ∃ rounds, LoadBalanced.scheduleRounds teamCount = Some rounds) ∧
  (∀ pairs, ∃ rounds,
     Seeded.scheduleRounds pairs = Some rounds ∧
     ∀ fuel, (length pairs < fuel)%nat →
             Seeded.loop fuel pairs [] = Some rounds).
Proof.
  repeat apply conj.
  - intros remaining.
    destruct (Plain.iteration remaining) as [[r remaining']|] eqn:H; [|trivial].
    now apply plain_iteration_spec in H as [_ H].
  - intros b. destruct (LoadBalanced.iteration b) as [b'|] eqn:H; [|trivial].
    now apply balanced_iteration_spec in H as (r & _ & _ & H).
  - intros remaining.
    destruct (Seeded.iteration remaining) as [[r remaining']|] eqn:H; [|trivial].
    now apply seeded_iteration_spec in H as [_ H].
  - intros pairs.
    destruct (plain_groupRounds_spec pairs) as (rounds & H & _).
    exists rounds. split; [assumption|]. intros fuel Hf.
    apply (plain_loop_fuel (S (length pairs))); [exact H|lia].
  - intros b.
    destruct (balanced_loop_spec (S (length (LoadBalanced.remainingPairs b))) b)
      as (more & H & _); [lia|].
    eexists. split; [exact H|]. intros fuel Hf.
    apply (balanced_loop_fuel (S (length (LoadBalanced.remainingPairs b))));
      [exact H|lia].
  - intros teamCount.
    destruct (balanced_scheduleRounds_spec teamCount) as (more & H & _).
    eauto.
  - intros pairs.
    destruct (seeded_scheduleRounds_spec pairs) as (rounds & H & _).
    exists rounds. split; [assumption|]. intros fuel Hf.
    apply (seeded_loop_fuel (S (length pairs))); [exact H|lia].
Qed.

(** ** Toggling twice *)

(** The first match of the four-team seeded schedule is toggled twice,
    starting from the empty completion object: an empty entry stays behind
    for round 0. *)
Lemma toggling_twice_leaves_an_entry :
  (Seeded.scheduleFor 4 ≫= λ s, s !! 0%nat ≫= (.!! 0%nat)) = Some (1, 2) ∧
  Completion.toggleMatchComplete (Completion.toggleMatchComplete ∅ 0 0) 0 0
  = {[0 := []]} ∧
  Completion.toggleMatchComplete (Completion.toggleMatchComplete ∅ 0 0) 0 0
  ≠ ∅.
Proof.
  assert (Completion.toggleMatchComplete
            (Completion.toggleMatchComplete ∅ 0 0) 0 0
          = ({[0 := []]} : gmap Z (list Z))) as H.
  { unfold Completion.toggleMatchComplete.
    rewrite lookup_empty. simpl. rewrite lookup_insert_eq. simpl.
    rewrite insert_insert_eq. reflexivity. }
  split; [vm_compute; reflexivity|]. split; [exact H|].
  rewrite H. intros Hc. apply (f_equal (λ m : gmap Z (list Z), m !! 0)) in Hc.
  rewrite lookup_singleton_eq, lookup_empty in Hc. discriminate.
Qed.

(** C9, as the code has it. Toggling the same address twice returns the
    complete flag of that match, and of every other match, to its original
    value. Where the flag lives in the match object the whole rounds state
    is restored; where completion is an object of court-index arrays, what
    is restored is the flag read for every address. *)
Theorem toggle_twice_restores_flags :
  (∀ rounds roundIndex courtIndex,
     Completion.toggleComplete
       (Completion.toggleComplete rounds roundIndex courtIndex)
       roundIndex courtIndex = rounds) ∧
  (∀ prev roundIndex courtIndex r c,
     Completion.isCompleted
       (Completion.toggleMatchComplete
          (Completion.toggleMatchComplete prev roundIndex courtIndex)
          roundIndex courtIndex) r c
     = Completion.isCompleted prev r c) ∧
  (∀ prev roundIndex courtIndex,
     Completion.isCompleted
       (Completion.toggleMatchComplete prev roundIndex courtIndex)
       roundIndex courtIndex
     = negb (Completion.isCompleted prev roundIndex courtIndex)).
Proof.
  split; [|split].
  - intros rounds ri ci. unfold Completion.toggleComplete.
    apply list_eq. intros r. rewrite !list_lookup_imap.
    destruct (rounds !! r) as [round|]; simpl; [|reflexivity].
    f_equal. apply list_eq. intros c. rewrite !list_lookup_imap.
    destruct (round !! c) as [m|]; simpl; [|reflexivity].
    f_equal. apply flipAt_involutive.
  - intros prev ri ci r c. rewrite !isCompleted_toggle.
    destruct (decide (r = ri ∧ c = ci)); [apply negb_involutive|reflexivity].
  - intros prev ri ci. rewrite isCompleted_toggle.
    destruct (decide (ri = ri ∧ ci = ci)) as [_|H]; [reflexivity|].
    exfalso. apply H. auto.
Qed.

(** ** Frame of the toggle *)

(** C10. The toggle of the variants that keep the flag in the match keeps
    the shape of the rounds state, keeps the team pairing of every match,
    changes no match away from the address, flips the complete flag of the
    match at the address, and returns its input when the address holds no
    match. *)
Theorem toggle_frame (rounds : list (list Match)) (roundIndex courtIndex : Z) :
  let rounds' := Completion.toggleComplete rounds roundIndex courtIndex in
  length <$> rounds' = length <$> rounds ∧
  (∀ r c, Completion.matchAt rounds' r c
          = Completion.flipAt roundIndex courtIndex r c
              <$> Completion.matchAt rounds r c) ∧
  (∀ r c m, Completion.matchAt rounds r c = Some m →
     ∃ m', Completion.matchAt rounds' r c = Some m' ∧
           teams m' = teams m ∧
           (¬ (Z.of_nat r = roundIndex ∧ Z.of_nat c = courtIndex) → m' = m) ∧
           (Z.of_nat r = roundIndex ∧ Z.of_nat c = courtIndex →
            complete m' = negb (complete m))) ∧
  ((∀ r c, Z.of_nat r = roundIndex → Z.of_nat c = courtIndex →
           Completion.matchAt rounds r c = None) →
   rounds' = rounds).
Proof.
  intros rounds'. subst rounds'. split; [|split; [|split]].
  - unfold Completion.toggleComplete.
    apply list_eq. intros r. rewrite !list_lookup_fmap, list_lookup_imap.
    destruct (rounds !! r) as [round|]; simpl; [|reflexivity].
    now rewrite length_imap.
  - intros r c. apply matchAt_toggleComplete.
  - intros r c m Hm. rewrite matchAt_toggleComplete, Hm. simpl.
    eexists. split; [reflexivity|]. split; [apply flipAt_teams|]. split.
    + apply flipAt_elsewhere.
    + intros [Hr Hc]. now rewrite (flipAt_there _ _ _ _ _ Hr Hc).
  - intros Hnone. unfold Completion.toggleComplete.
    apply list_eq. intros r. rewrite list_lookup_imap.
    destruct (rounds !! r) as [round|] eqn:Hround; simpl; [|reflexivity].
    f_equal. apply list_eq. intros c. rewrite list_lookup_imap.
    destruct (round !! c) as [m|] eqn:Hm; simpl; [|reflexivity].
    f_equal. apply flipAt_elsewhere. intros [Hr Hc].
    specialize (Hnone r c Hr Hc). unfold Completion.matchAt in Hnone.
    rewrite Hround in Hnone. simpl in Hnone. congruence.
Qed.

(** * Further properties *)

(** ** The pair generator and unordered pairs *)

Lemma generatePairs_nil (n : Z) : n ≤ 1 → generatePairs n = [].
Proof.
  intros Hn. unfold generatePairs.
  destruct (decide (n ≤ 0)) as [H0|H0]; [now rewrite seqZ_nil|].
  assert (n = 1) as -> by lia. reflexivity.
Qed.

Lemma seqZ_sorted (k : nat) : ∀ m, StronglySorted Z.lt (seqZ m (Z.of_nat k)).
Proof.
  induction k as [|k IH]; intros m; [constructor|].
  rewrite seqZ_cons by lia.
  replace (Z.pred (Z.of_nat (S k))) with (Z.of_nat k) by lia.
  constructor; [apply IH|].
  apply Forall_forall. intros x Hx. apply elem_of_seqZ in Hx. lia.
Qed.

Lemma generatePairs_rows_sorted (n : Z) (k : nat) : ∀ m,
  StronglySorted lexLt
    (seqZ m (Z.of_nat k) ≫= λ i, (λ j, (i, j)) <$> seqZ (i + 1) (n - i)).
Proof.
  induction k as [|k IH]; intros m; [constructor|].
  rewrite seqZ_cons by lia.
  replace (Z.pred (Z.of_nat (S k))) with (Z.of_nat k) by lia.
  rewrite bind_cons. apply StronglySorted_app_2.
  - intros x1 x2 H1 H2.
    apply list_elem_of_fmap in H1 as (j1 & -> & _).
    apply list_elem_of_bind in H2 as (i2 & H2 & Hi2).
    apply list_elem_of_fmap in H2 as (j2 & -> & _).
    apply elem_of_seqZ in Hi2. left. simpl. lia.
  - destruct (decide (n - m ≤ 0)) as [Hle|Hgt];
      [rewrite seqZ_nil by lia; constructor|].
    rewrite <- (Z2Nat.id (n - m)) by lia.
    eapply StronglySorted_fmap; [|apply seqZ_sorted].
    intros x y Hxy. right. simpl. auto.
  - apply IH.
Qed.

(** X1. [generatePairs(n)] lists exactly the pairs (i, j) with
    1 <= i < j <= n, each of them once; there are n(n-1)/2 of them for
    n >= 0 and none for a negative n. *)
Theorem generatePairs_enumerates (n : Z) :
  (∀ p, p ∈ generatePairs n ↔ 1 ≤ p.1 ∧ p.1 < p.2 ∧ p.2 ≤ n) ∧
  NoDup (generatePairs n) ∧
  Z.of_nat (length (generatePairs n)) = Z.max 0 n * (Z.max 0 n - 1) / 2.
Proof.
  split; [|split].
  - intros p. apply elem_of_generatePairs.
  - apply NoDup_generatePairs.
  - destruct (decide (0 ≤ n)) as [Hn|Hn].
    + rewrite Z.max_r by lia. now apply length_generatePairs.
    + rewrite generatePairs_nil by lia. rewrite Z.max_l by lia. reflexivity.
Qed.

(** X2. [generatePairs(n)] comes in lexicographic order of (i, j), and it
    is the empty list, not a failure, for every team count below 2. *)
Theorem generatePairs_ordered (n : Z) :
  StronglySorted lexLt (generatePairs n) ∧
  (n ≤ 1 → generatePairs n = []).
Proof.
  split; [|apply generatePairs_nil].
  destruct (decide (n ≤ 0)) as [Hle|Hgt].
  - rewrite generatePairs_nil by lia. constructor.
  - unfold generatePairs. rewrite <- (Z2Nat.id n) at 1 by lia.
    apply generatePairs_rows_sorted.
Qed.

(** X3. The two tests of the code for "the same two teams" agree: the
    [findIndex] test that compares both orientations holds exactly when
    [normalizePair] gives the same result; [normalizePair] puts the smaller
    id first, ignores the orientation and changes nothing when applied
    again. *)
Theorem unordered_equality_agrees (t p : Pair) :
  (sameTeams t p = true ↔ normalizePair t = normalizePair p) ∧
  normalizePair (normalizePair p) = normalizePair p ∧
  normalizePair (p.2, p.1) = normalizePair p ∧
  (normalizePair p).1 ≤ (normalizePair p).2.
Proof.
  destruct t as [a b], p as [c d]. unfold sameTeams, normalizePair. simpl.
  split; [|split; [|split]].
  - rewrite orb_true_iff, !andb_true_iff, !Z.eqb_eq.
    destruct (Z.ltb_spec a b), (Z.ltb_spec c d); simpl; split;
      try (intros [[-> ->]|[-> ->]]; (reflexivity || lia || (f_equal; lia)));
      intros [= -> ->]; auto; try lia.
  - destruct (Z.ltb_spec c d); simpl.
    + destruct (Z.ltb_spec c d); [reflexivity|lia].
    + destruct (Z.ltb_spec d c); [reflexivity|f_equal; lia].
  - destruct (Z.ltb_spec c d), (Z.ltb_spec d c); try reflexivity; try lia.
    f_equal; lia.
  - destruct (Z.ltb_spec c d); simpl; lia.
Qed.

(** ** What a greedy round is *)

Lemma takeFirst_Some {A} (test : A → bool) (l : list A) q l' :
  takeFirst test l = Some (q, l') ↔
  ∃ before after, l = before ++ q :: after ∧
                  Forall (λ x, test x = false) before ∧
                  test q = true ∧ l' = before ++ after.
Proof.
  revert q l'. induction l as [|x l IH]; intros q l'; simpl.
  - split; [discriminate|]. intros (before & after & H & _).
    now destruct before.
  - destruct (test x) eqn:Hx.
    + split.
      * intros [= <- <-]. exists [], l. repeat split; auto.
      * intros (before & after & H & HF & Hq & ->).
        destruct before as [|y before]; simpl in H.
        -- now injection H as <- <-.
        -- injection H as <- ->. apply Forall_cons in HF as [Hy _].
           congruence.
    + split.
      * destruct (takeFirst test l) as [[y rest']|]; [|discriminate].
        intros [= <- <-].
        destruct (proj1 (IH y rest') eq_refl)
          as (before & after & -> & HF & Hq & ->).
        exists (x :: before), after. repeat split; auto.
      * intros (before & after & H & HF & Hq & ->).
        destruct before as [|y before]; simpl in H.
        -- injection H as <- <-. congruence.
        -- injection H as <- ->. apply Forall_cons in HF as [_ HF].
           assert (takeFirst test (before ++ q :: after)
                   = Some (q, before ++ after)) as ->; [|reflexivity].
           apply IH. exists before, after. auto.
Qed.

Lemma takeFirst_None {A} (test : A → bool) (l : list A) :
  takeFirst test l = None ↔ Forall (λ x, test x = false) l.
Proof.
  induction l as [|x l IH]; simpl; [split; [constructor|reflexivity]|].
  destruct (test x) eqn:Hx.
  - split; [discriminate|]. intros H. apply Forall_cons in H as [H _].
    congruence.
  - destruct (takeFirst test l) as [[y rest']|].
    + split; [discriminate|]. intros H. apply Forall_cons in H as [_ H].
      apply IH in H. discriminate.
    + split; [|reflexivity]. intros _. constructor; [assumption|].
      now apply IH.
Qed.

Lemma free_apart (p q : Pair) :
  free ({[p.2]} ∪ ({[p.1]} ∪ ∅)) q = true ↔ apart p q.
Proof.
  unfold free, apart.
  rewrite andb_true_iff, !bool_decide_eq_true.
  rewrite !elem_of_union, !elem_of_singleton. split.
  - intros [H1 H2] t Ht Hq.
    apply elem_of_teamsOf in Ht, Hq. destruct Hq as [->| ->]; tauto.
  - intros H. split; intros Hc.
    + destruct Hc as [Hc|[Hc|Hc]]; [| |now apply not_elem_of_empty in Hc].
      * apply (H p.2); apply elem_of_teamsOf; auto.
      * apply (H p.1); apply elem_of_teamsOf; auto.
    + destruct Hc as [Hc|[Hc|Hc]]; [| |now apply not_elem_of_empty in Hc].
      * apply (H p.2); apply elem_of_teamsOf; auto.
      * apply (H p.1); apply elem_of_teamsOf; auto.
Qed.

Lemma free_not_apart (p q : Pair) :
  free ({[p.2]} ∪ ({[p.1]} ∪ ∅)) q = false ↔ ¬ apart p q.
Proof. rewrite <- free_apart. now destruct (free _ q). Qed.

(** The seeded inner loop, once the first pair is in the round. *)
Lemma seeded_fillRound_second (used : gset Z) (p : Pair) (rest : list Pair) :
  Seeded.fillRound used [p] rest
  = match takeFirst (free used) rest with
    | Some (q, rest') => ([p; q], rest')
    | None => ([p], rest)
    end.
Proof.
  induction rest as [|[a b] rest IH]; simpl; [reflexivity|].
  unfold free at 1. simpl.
  destruct (bool_decide (a ∉ used) && bool_decide (b ∉ used));
    [reflexivity|].
  rewrite IH. now destruct (takeFirst (free used) rest) as [[q rest']|].
Qed.

Lemma seeded_iteration_greedy (l : list Pair) :
  Seeded.iteration l = greedyRound l.
Proof.
  destruct l as [|[a b] rest]; [reflexivity|].
  unfold Seeded.iteration, greedyRound. simpl.
  rewrite seeded_fillRound_second.
  now destruct (takeFirst _ rest) as [[q rest']|].
Qed.

(** The plain inner loop, once the first match is in the round. *)
Lemma plain_fillRound_second (used : gset Z) (p : Pair) (rest : list Pair) :
  Plain.round (Plain.fillRound (Plain.mkScan used [freshMatch p])
                 (freshMatch <$> rest))
  = match takeFirst (free used) rest with
    | Some (q, _) => [freshMatch p; freshMatch q]
    | None => [freshMatch p]
    end.
Proof.
  induction rest as [|[a b] rest IH]; simpl; [reflexivity|].
  unfold Plain.visit, free at 1. simpl.
  destruct (bool_decide (a ∉ used) && bool_decide (b ∉ used));
    [reflexivity|].
  simpl. etrans; [exact IH|].
  now destruct (takeFirst (free used) rest) as [[q rest']|].
Qed.

(** What [findIndex] and [splice] take out for the second match of a round
    is the very element the scan accepted. *)
Lemma removeFirst_taken (used : gset Z) (rest : list Pair) q rest' :
  takeFirst (free used) rest = Some (q, rest') →
  removeFirst (λ x, sameTeams q (teams x)) (freshMatch <$> rest)
  = freshMatch <$> rest'.
Proof.
  intros H. apply takeFirst_Some in H as (before & after & -> & HF & Hq & ->).
  rewrite !fmap_app, fmap_cons.
  induction before as [|x before IH]; simpl.
  - now rewrite sameTeams_refl.
  - apply Forall_cons in HF as [Hx HF].
    assert (sameTeams q x = false) as ->; [|f_equal; apply IH, HF].
    destruct (sameTeams q x) eqn:Hs; [|reflexivity]. exfalso.
    unfold free in Hq, Hx. apply andb_true_iff in Hq as [Hq1 Hq2].
    apply bool_decide_eq_true in Hq1, Hq2.
    unfold sameTeams in Hs.
    apply orb_prop in Hs as [Hs|Hs]; apply andb_prop in Hs as [H1 H2];
      apply Z.eqb_eq in H1, H2; rewrite H1, H2 in Hx;
      rewrite !bool_decide_true in Hx by assumption; discriminate.
Qed.

Lemma plain_visit_first (p : Pair) :
  Plain.visit (Plain.mkScan ∅ []) (freshMatch p)
  = Plain.mkScan ({[p.2]} ∪ ({[p.1]} ∪ ∅)) [freshMatch p].
Proof.
  destruct p as [a b]. unfold Plain.visit. simpl.
  rewrite !bool_decide_true by apply not_elem_of_empty. reflexivity.
Qed.

Lemma plain_iteration_greedy (l : list Pair) :
  Plain.iteration (freshMatch <$> l)
  = match greedyRound l with
    | Some (r, l') => Some (freshMatch <$> r, freshMatch <$> l')
    | None => None
    end.
Proof.
  destruct l as [|p rest]; [reflexivity|].
  unfold Plain.iteration, greedyRound. rewrite fmap_cons.
  cbn [Plain.fillRound]. rewrite plain_visit_first.
  cbn [Plain.round length Nat.eqb]. rewrite plain_fillRound_second.
  destruct (takeFirst _ rest) as [[q rest']|] eqn:Ht; [|reflexivity].
  change ((length [freshMatch p; freshMatch q] <? 2)%nat) with false.
  cbv iota. f_equal. f_equal.
  unfold Plain.removeUsed. cbn [foldl removeFirst].
  change (teams (freshMatch p)) with p. rewrite sameTeams_refl.
  exact (removeFirst_taken _ _ _ _ Ht).
Qed.

Lemma plain_seeded_loop (fuel : nat) : ∀ l rounds,
  Plain.loop fuel (freshMatch <$> l) (freshRounds rounds)
  = option_map freshRounds (Seeded.loop fuel l rounds).
Proof.
  induction fuel as [|fuel IH]; intros l rounds; [reflexivity|].
  destruct l as [|p rest]; [reflexivity|].
  assert (Plain.loop (S fuel) (freshMatch <$> p :: rest) (freshRounds rounds)
          = match Plain.iteration (freshMatch <$> p :: rest) with
            | None => Some (freshRounds rounds)
            | Some (r, remaining') =>
                Plain.loop fuel remaining' (freshRounds rounds ++ [r])
            end) as -> by reflexivity.
  assert (Seeded.loop (S fuel) (p :: rest) rounds
          = match Seeded.iteration (p :: rest) with
            | None => Some rounds
            | Some (r, remaining') =>
                Seeded.loop fuel remaining' (rounds ++ [r])
            end) as -> by reflexivity.
  rewrite plain_iteration_greedy, seeded_iteration_greedy.
  destruct (greedyRound (p :: rest)) as [[r l']|]; [|reflexivity].
  rewrite <- IH. unfold freshRounds. now rewrite fmap_app.
Qed.

(** X4. A round of the greedy builder is the first remaining pair together
    with the first later pair that shares no team with it, which is taken
    out of the remaining list at its place; the builder stops exactly when
    every later pair shares a team with the first one, even if two of the
    later pairs could be played together. *)
Theorem greedy_round_reading (p : Pair) (rest : list Pair) :
  (Seeded.iteration (p :: rest) = None ↔ ∀ q, q ∈ rest → ¬ apart p q) ∧
  (∀ r rest',
     Seeded.iteration (p :: rest) = Some (r, rest') ↔
     ∃ before q after,
       rest = before ++ q :: after ∧
       (∀ x, x ∈ before → ¬ apart p x) ∧ apart p q ∧
       r = [p; q] ∧ rest' = before ++ after) ∧
  Seeded.iteration [(1, 2); (1, 3); (2, 4)] = None.
Proof.
  rewrite seeded_iteration_greedy. unfold greedyRound. split; [|split].
  - destruct (takeFirst _ rest) as [[q rest']|] eqn:Ht.
    + split; [discriminate|]. intros H. exfalso.
      apply takeFirst_Some in Ht as (before & after & -> & _ & Hq & _).
      apply free_apart in Hq. apply (H q); [|assumption].
      apply elem_of_app. right. left.
    + split; [|reflexivity]. intros _ q Hq.
      apply takeFirst_None in Ht. rewrite Forall_forall in Ht.
      now apply free_not_apart, Ht.
  - intros r rest'. split.
    + destruct (takeFirst _ rest) as [[q l']|] eqn:Ht; [|discriminate].
      intros [= <- <-].
      apply takeFirst_Some in Ht as (before & after & -> & HF & Hq & ->).
      exists before, q, after. rewrite Forall_forall in HF.
      repeat split; [|now apply free_apart].
      intros x Hx. now apply free_not_apart, HF.
    + intros (before & q & after & -> & HF & Hq & -> & ->).
      assert (takeFirst (free ({[p.2]} ∪ ({[p.1]} ∪ ∅)))
                (before ++ q :: after) = Some (q, before ++ after)) as ->;
        [|reflexivity].
      apply takeFirst_Some. exists before, after.
      repeat split; [|now apply free_apart].
      apply Forall_forall. intros x Hx. now apply free_not_apart, HF.
  - reflexivity.
Qed.

Lemma plain_groupRounds_pairs (pairs : list Pair) :
  Plain.groupRounds pairs
  = option_map freshRounds (Seeded.scheduleRounds pairs) ∧
  option_map pairsOf (Plain.groupRounds pairs) = Seeded.scheduleRounds pairs.
Proof.
  assert (Plain.groupRounds pairs
          = option_map freshRounds (Seeded.scheduleRounds pairs)) as H.
  { unfold Plain.groupRounds, Seeded.scheduleRounds.
    apply (plain_seeded_loop (S (length pairs)) pairs []). }
  split; [exact H|]. rewrite H.
  destruct (Seeded.scheduleRounds pairs) as [rounds|]; [|reflexivity].
  simpl. f_equal. unfold pairsOf, freshRounds.
  rewrite <- list_fmap_compose. rewrite <- (list_fmap_id rounds) at 2.
  apply list_fmap_ext. intros i r _. simpl.
  rewrite <- list_fmap_compose. apply list_fmap_id.
Qed.

(** X5. The plain builder and the builder of the seeded variant are the
    same function of the pair list: [groupRounds], which removes the used
    pairs by [findIndex] after the scan, returns the rounds [scheduleRounds]
    builds by splicing during the scan, every match carrying
    [complete: false]. *)
Theorem plain_builder_is_seeded_builder (pairs : list Pair) :
  Plain.groupRounds pairs
  = option_map freshRounds (Seeded.scheduleRounds pairs) ∧
  option_map pairsOf (Plain.groupRounds pairs) = Seeded.scheduleRounds pairs.
Proof. apply plain_groupRounds_pairs. Qed.

(** ** Edges of the builders *)

(** X6. Below four teams the load-balanced builder still returns the fixed
    opening round, and nothing else: its schedule is [[(1,2),(3,4)]] for
    every team count under 4, although it names teams that do not exist. *)
Theorem balanced_below_four_teams (n : Z) :
  n < 4 →
  LoadBalanced.scheduleRounds n = Some [LoadBalanced.round1] ∧
  generateSchedule LoadBalancedFixed n = Some [[(1, 2); (3, 4)]].
Proof.
  intros Hn.
  assert (LoadBalanced.scheduleRounds n = Some [LoadBalanced.round1]) as H.
  { destruct (decide (n ≤ 1)) as [H1|H1].
    - unfold LoadBalanced.scheduleRounds, LoadBalanced.initialBuild,
        LoadBalanced.initialRemaining.
      rewrite generatePairs_nil by assumption. reflexivity.
    - assert (n = 2 ∨ n = 3) as [-> | ->] by lia; vm_compute; reflexivity. }
  split; [exact H|]. simpl. now rewrite H.
Qed.

Lemma balanced_below_four_teams_witness :
  LoadBalanced.scheduleRounds (-2) = Some [LoadBalanced.round1] ∧
  generateSchedule LoadBalancedFixed (-2) = Some [[(1, 2); (3, 4)]].
Proof. apply (balanced_below_four_teams (-2)). lia. Defined.

(** X7. The precomputed table has an entry exactly for the team counts
    4..15, each entry being the schedule of the loop body for that count;
    for any other team count the lookup misses and the component falls
    back to the empty schedule. *)
Theorem seeded_table_domain :
  ∃ schedules : gmap Z (list (list Pair)),
    Seeded.precomputeSchedules = Some schedules ∧
    (∀ n, is_Some (schedules !! n) ↔ 4 ≤ n ≤ 15) ∧
    (∀ n, 4 ≤ n ≤ 15 → schedules !! n = Seeded.scheduleFor n) ∧
    (∀ n, ¬ (4 ≤ n ≤ 15) → Seeded.scheduleOf schedules n = []).
Proof.
  destruct precomputeSchedules_spec as (schedules & H & HL).
  exists schedules. split; [exact H|]. split; [|split].
  - intros n. rewrite HL. destruct (decide (4 ≤ n ≤ 15)) as [Hn|Hn].
    + destruct (scheduleFor_spec n) as (more & -> & _).
      split; [auto|]. intros _. eauto.
    + split; [intros [? ?]; discriminate|contradiction].
  - intros n Hn. rewrite HL. now destruct (decide (4 ≤ n ≤ 15)).
  - intros n Hn. unfold Seeded.scheduleOf. rewrite HL.
    now destruct (decide (4 ≤ n ≤ 15)).
Qed.

(** X8. For every array and every seed, [seededShuffle] returns a
    reordering of the array: the same elements with the same
    multiplicities, hence the same length; an array of at most one element
    comes back unchanged. *)
Theorem seededShuffle_reorders {A : Type} (array : list A) (seed : Z) :
  Seeded.seededShuffle array seed ≡ₚ array ∧
  length (Seeded.seededShuffle array seed) = length array ∧
  ((length array ≤ 1)%nat → Seeded.seededShuffle array seed = array).
Proof.
  pose proof (seededShuffle_Permutation array seed) as Hp.
  split; [exact Hp|]. split; [now apply Permutation_length|].
  intros Hlen. destruct array as [|x [|y array]]; simpl in Hlen; [| |lia].
  - now apply Permutation_nil_r in Hp.
  - now apply Permutation_singleton_r in Hp.
Qed.

(** X9. The shuffle never leaves the array: the number drawn is a 32-bit
    unsigned integer, so with [m + 1] elements still to place inside an
    array of at least that length, the index picked is at most [m], both
    swapped positions exist, and the swap keeps the length. *)
Theorem shuffle_stays_in_bounds {A : Type} (arr : list A) (m : nat) (a : Z) :
  (S m ≤ length arr)%nat →
  let n := (Seeded.mulberry32 a).2 in
  0 ≤ n < 2 ^ 32 ∧
  (Seeded.pick n (S m) ≤ m)%nat ∧
  is_Some (arr !! m) ∧
  is_Some (arr !! Seeded.pick n (S m)) ∧
  length (Seeded.swap arr m (Seeded.pick n (S m))) = length arr.
Proof.
  intros Hm n. subst n.
  pose proof (mulberry32_range a) as Hr.
  pose proof (pick_range _ m Hr) as Hp.
  split; [exact Hr|]. split; [lia|].
  split; [apply lookup_lt_is_Some; lia|].
  split; [apply lookup_lt_is_Some; lia|apply swap_length].
Qed.

Lemma shuffle_stays_in_bounds_witness :
  let n := (Seeded.mulberry32 4).2 in
  0 ≤ n < 2 ^ 32 ∧
  (Seeded.pick n 3 ≤ 2)%nat ∧
  is_Some ([10; 20; 30] !! 2%nat) ∧
  is_Some ([10; 20; 30] !! Seeded.pick n 3) ∧
  length (Seeded.swap [10; 20; 30] 2 (Seeded.pick n 3)) = 3%nat.
Proof. apply (shuffle_stays_in_bounds [10; 20; 30] 2 4). simpl. lia. Defined.

(** X10. With four teams or more, every match of every variant's schedule
    is between two different existing teams, written with the smaller id
    first: 1 <= teams[0] < teams[1] <= n. *)
Theorem scheduled_teams_are_valid (v : Variant) (n : Z) :
  4 ≤ n →
  ∃ schedule,
    generateSchedule v n = Some schedule ∧
    ∀ p, p ∈ matchesOf schedule → 1 ≤ p.1 ∧ p.1 < p.2 ∧ p.2 ≤ n.
Proof.
  intros Hn.
  destruct (schedule_drawn_from_pairs v n Hn) as (schedule & lo & H & Hp).
  exists schedule. split; [exact H|]. intros p Hin.
  apply elem_of_generatePairs. rewrite <- Hp. apply elem_of_app. now left.
Qed.

Lemma scheduled_teams_are_valid_witness :
  ∃ schedule,
    generateSchedule LoadBalancedFixed 5 = Some schedule ∧
    ∀ p, p ∈ matchesOf schedule → 1 ≤ p.1 ∧ p.1 < p.2 ∧ p.2 ≤ 5.
Proof. apply (scheduled_teams_are_valid LoadBalancedFixed 5). lia. Defined.

(** ** Progress counters *)

Section ProgressFacts.
Import Progress.

Lemma lookup_increment (counts : gmap Z JsNumber) (k t : Z) :
  increment counts k !! t
  = incrementedBy (if k =? t then 1 else 0) (counts !! t).
Proof.
  unfold increment. destruct (Z.eqb_spec k t) as [->|Hne].
  - rewrite lookup_insert_eq. unfold incrementedBy.
    now destruct (counts !! t) as [[z|]|].
  - rewrite lookup_insert_ne by congruence. unfold incrementedBy.
    destruct (counts !! t) as [[z|]|]; try reflexivity.
    now rewrite Z.add_0_r.
Qed.

Lemma incrementedBy_add (k1 k2 : Z) (o : option JsNumber) :
  0 ≤ k1 → 0 ≤ k2 →
  incrementedBy k2 (incrementedBy k1 o) = incrementedBy (k1 + k2) o.
Proof.
  intros H1 H2. unfold incrementedBy. destruct o as [[z|]|].
  - now rewrite Z.add_assoc.
  - reflexivity.
  - destruct (Z.eqb_spec k1 0) as [->|Hk1]; [reflexivity|].
    destruct (Z.eqb_spec (k1 + k2) 0); [lia|reflexivity].
Qed.

Lemma occurrences_nonneg t pairs : 0 ≤ occurrences t pairs.
Proof. unfold occurrences. lia. Qed.

Lemma occurrences_cons t p pairs :
  occurrences t (p :: pairs)
  = (if p.1 =? t then 1 else 0) + (if p.2 =? t then 1 else 0)
    + occurrences t pairs.
Proof.
  unfold occurrences. simpl.
  destruct (p.1 =? t), (p.2 =? t); simpl; lia.
Qed.

Lemma occurrences_app t l k :
  occurrences t (l ++ k) = occurrences t l + occurrences t k.
Proof.
  induction l as [|p l IH]; [reflexivity|].
  rewrite <- app_comm_cons, !occurrences_cons, IH. lia.
Qed.

Lemma tally_lookup (pairs : list Pair) : ∀ counts t,
  tally counts pairs !! t = incrementedBy (occurrences t pairs) (counts !! t).
Proof.
  induction pairs as [|p pairs IH]; intros counts t.
  - unfold incrementedBy. simpl.
    destruct (counts !! t) as [[z|]|]; try reflexivity.
    now rewrite Z.add_0_r.
  - unfold tally in *. simpl. rewrite IH, !lookup_increment.
    pose proof (occurrences_nonneg t pairs) as H0.
    assert (0 ≤ (if p.1 =? t then 1 else 0)) as H1
      by (destruct (p.1 =? t); lia).
    assert (0 ≤ (if p.2 =? t then 1 else 0)) as H2
      by (destruct (p.2 =? t); lia).
    rewrite (incrementedBy_add _ _ _ H1 H2).
    rewrite incrementedBy_add by lia.
    now rewrite occurrences_cons.
Qed.

Lemma tally_app counts l k : tally counts (l ++ k) = tally (tally counts l) k.
Proof. apply foldl_app. Qed.

Lemma zeroCounts_fold (l : list Z) : ∀ (counts : gmap Z JsNumber) t,
  foldl (λ counts i, <[i := Num 0]> counts) counts l !! t
  = if decide (t ∈ l) then Some (Num 0) else counts !! t.
Proof.
  induction l as [|i l IH]; intros counts t; simpl.
  - destruct (decide (t ∈ [])) as [H|_]; [inversion H|reflexivity].
  - rewrite IH. destruct (decide (t ∈ l)) as [Hin|Hnin].
    + destruct (decide (t ∈ i :: l)) as [_|Hn]; [reflexivity|].
      exfalso. apply Hn. now right.
    + destruct (decide (t = i)) as [->|Hne].
      * rewrite lookup_insert_eq.
        destruct (decide (i ∈ i :: l)) as [_|Hn]; [reflexivity|].
        exfalso. apply Hn. left.
      * rewrite lookup_insert_ne by congruence.
        destruct (decide (t ∈ i :: l)) as [Hin|_]; [|reflexivity].
        apply elem_of_cons in Hin as [?|?]; contradiction.
Qed.

Lemma zeroCounts_lookup (n t : Z) :
  zeroCounts n !! t = if decide (1 ≤ t ≤ n) then Some (Num 0) else None.
Proof.
  unfold zeroCounts. rewrite zeroCounts_fold, lookup_empty.
  destruct (decide (t ∈ seqZ 1 n)) as [Hin|Hnin];
    destruct (decide (1 ≤ t ≤ n)) as [Hr|Hnr]; try reflexivity.
  - apply elem_of_seqZ in Hin. lia.
  - exfalso. apply Hnin, elem_of_seqZ. lia.
Qed.

Lemma matchesCount_inner (round : list Match) : ∀ counts,
  foldl (λ counts m,
           if complete m
           then increment (increment counts (teams m).1) (teams m).2
           else counts)
        counts round
  = tally counts (teams <$> List.filter complete round).
Proof.
  induction round as [|m round IH]; intros counts; [reflexivity|].
  simpl. rewrite IH. now destruct (complete m).
Qed.

Lemma matchesCount_tally (n : Z) (rounds : list (list Match)) :
  matchesCount n rounds = tally (zeroCounts n) (completePairs rounds).
Proof.
  unfold matchesCount, completePairs. generalize (zeroCounts n).
  induction rounds as [|round rounds IH]; intros counts; [reflexivity|].
  simpl. rewrite IH, matchesCount_inner, List.filter_app, fmap_app.
  now rewrite tally_app.
Qed.

Lemma playCounts_tally (n : Z) (schedule : list (list Pair)) :
  playCounts n schedule = tally (zeroCounts n) (concat schedule).
Proof.
  unfold playCounts. generalize (zeroCounts n).
  induction schedule as [|round schedule IH]; intros counts; [reflexivity|].
  simpl. rewrite IH. now rewrite tally_app.
Qed.

End ProgressFacts.

Lemma matchesCount_lookup (n : Z) (rounds : list (list Match)) (t : Z) :
  Progress.matchesCount n rounds !! t
  = if decide (1 ≤ t ≤ n)
    then Some (Progress.Num (occurrences t (completePairs rounds)))
    else if decide (occurrences t (completePairs rounds) = 0) then None
         else Some Progress.NaN.
Proof.
  rewrite matchesCount_tally, tally_lookup, zeroCounts_lookup.
  destruct (decide (1 ≤ t ≤ n)); simpl; [reflexivity|].
  destruct (Z.eqb_spec (occurrences t (completePairs rounds)) 0) as [H|H];
    destruct (decide (occurrences t (completePairs rounds) = 0));
    try reflexivity; contradiction.
Qed.

(** X11. [matchesCount] shows, for each team 1..teamCount, the number of
    complete matches the team takes part in; a team id outside 1..teamCount
    that occurs in a complete match gets the counter [NaN]; the object has
    no other key. *)
Theorem matchesCount_reads (n : Z) (rounds : list (list Match)) (t : Z) :
  Progress.matchesCount n rounds !! t
  = if decide (1 ≤ t ≤ n)
    then Some (Progress.Num (occurrences t (completePairs rounds)))
    else if decide (occurrences t (completePairs rounds) = 0) then None
         else Some Progress.NaN.
Proof. apply matchesCount_lookup. Qed.

Lemma sumZ_add {A} (f g : A → Z) (l : list A) :
  sumZ ((λ t, f t + g t) <$> l) = sumZ (f <$> l) + sumZ (g <$> l).
Proof.
  unfold sumZ. induction l as [|x l IH]; [reflexivity|].
  rewrite !fmap_cons. cbn [foldr]. rewrite IH. lia.
Qed.

Lemma sumZ_indicator (l : list Z) (a : Z) :
  NoDup l → a ∈ l → sumZ ((λ t, if a =? t then 1 else 0) <$> l) = 1.
Proof.
  unfold sumZ. induction 1 as [|x l Hx Hl IH]; intros Ha; [inversion Ha|].
  rewrite fmap_cons. cbn [foldr]. destruct (Z.eqb_spec a x) as [->|Hne].
  - assert (foldr Z.add 0 ((λ t, if x =? t then 1 else 0) <$> l) = 0) as ->;
      [|reflexivity].
    clear IH Hl Ha. induction l as [|y l IH]; [reflexivity|].
    rewrite fmap_cons. cbn [foldr].
    rewrite IH by (intros H; apply Hx; now right).
    destruct (Z.eqb_spec x y) as [->|_]; [|reflexivity].
    exfalso. apply Hx. left.
  - apply elem_of_cons in Ha as [?|Ha]; [contradiction|]. now rewrite IH.
Qed.

Lemma sumZ_occurrences (l : list Z) (pairs : list Pair) :
  NoDup l → (∀ p, p ∈ pairs → p.1 ∈ l ∧ p.2 ∈ l) →
  sumZ ((λ t, occurrences t pairs) <$> l) = 2 * Z.of_nat (length pairs).
Proof.
  intros Hl. induction pairs as [|p pairs IH]; intros Hin.
  - unfold sumZ. clear Hl. induction l as [|x l IHl]; [reflexivity|].
    rewrite fmap_cons. cbn [foldr]. now rewrite IHl.
  - rewrite (list_fmap_ext _
      (λ t, ((if p.1 =? t then 1 else 0) + (if p.2 =? t then 1 else 0))
            + occurrences t pairs))
      by (intros i t _; apply occurrences_cons).
    rewrite (sumZ_add (λ t, (if p.1 =? t then 1 else 0)
                            + (if p.2 =? t then 1 else 0))).
    rewrite (sumZ_add (λ t, if p.1 =? t then 1 else 0)).
    destruct (Hin p ltac:(left)) as [H1 H2].
    rewrite !sumZ_indicator by assumption.
    rewrite IH by (intros q Hq; apply Hin; now right).
    simpl length. lia.
Qed.

Lemma occurrences_absent (t : Z) (pairs : list Pair) :
  (∀ p, p ∈ pairs → p.1 ≠ t ∧ p.2 ≠ t) → occurrences t pairs = 0.
Proof.
  induction pairs as [|p pairs IH]; intros H; [reflexivity|].
  rewrite occurrences_cons, IH by (intros q Hq; apply H; now right).
  destruct (H p ltac:(left)) as [H1 H2].
  destruct (Z.eqb_spec p.1 t), (Z.eqb_spec p.2 t); try contradiction.
  reflexivity.
Qed.

(** X12. When the teams of all complete matches are teams 1..teamCount,
    [matchesCount] has exactly the keys 1..teamCount, every counter is a
    number, and the counters add up to twice the number of complete
    matches. *)
Theorem progress_adds_up (n : Z) (rounds : list (list Match)) :
  (∀ p, p ∈ completePairs rounds → 1 ≤ p.1 ≤ n ∧ 1 ≤ p.2 ≤ n) →
  (∀ t, is_Some (Progress.matchesCount n rounds !! t) ↔ 1 ≤ t ≤ n) ∧
  (∀ t, 1 ≤ t ≤ n →
        Progress.matchesCount n rounds !! t
        = Some (Progress.Num (occurrences t (completePairs rounds)))) ∧
  sumZ ((λ t, occurrences t (completePairs rounds)) <$> seqZ 1 n)
  = 2 * Z.of_nat (length (completePairs rounds)).
Proof.
  intros Hin. split; [|split].
  - intros t. rewrite matchesCount_lookup.
    destruct (decide (1 ≤ t ≤ n)) as [Ht|Ht]; [split; eauto|].
    rewrite occurrences_absent.
    + simpl. split; [intros [? ?]; discriminate|contradiction].
    + intros p Hp. specialize (Hin p Hp). lia.
  - intros t Ht. rewrite matchesCount_lookup.
    now destruct (decide (1 ≤ t ≤ n)).
  - apply sumZ_occurrences; [apply NoDup_seqZ|].
    intros p Hp. specialize (Hin p Hp). rewrite !elem_of_seqZ. lia.
Qed.

Lemma progress_adds_up_witness :
  let rounds := [[mkMatch (1, 2) true; mkMatch (3, 4) false];
                 [mkMatch (1, 3) true; mkMatch (2, 4) true]] in
  (∀ t, is_Some (Progress.matchesCount 4 rounds !! t) ↔ 1 ≤ t ≤ 4) ∧
  (∀ t, 1 ≤ t ≤ 4 →
        Progress.matchesCount 4 rounds !! t
        = Some (Progress.Num (occurrences t (completePairs rounds)))) ∧
  sumZ ((λ t, occurrences t (completePairs rounds)) <$> seqZ 1 4)
  = 2 * Z.of_nat (length (completePairs rounds)).
Proof.
  apply (progress_adds_up 4). intros p Hp. simpl in Hp.
  repeat (apply elem_of_cons in Hp as [->|Hp]; [simpl; lia|]).
  inversion Hp.
Defined.

(** ** Reset, toggles and regeneration *)

Lemma allIncomplete_no_pairs (rounds : list (list Match)) :
  allIncomplete rounds → completePairs rounds = [].
Proof.
  unfold completePairs. induction 1 as [|round rounds Hr _ IH];
    [reflexivity|].
  simpl. rewrite List.filter_app, fmap_app, IH, app_nil_r.
  clear IH. induction Hr as [|m round Hm _ IH]; [reflexivity|].
  simpl. now rewrite Hm.
Qed.

Lemma allIncomplete_reset_id (rounds : list (list Match)) :
  allIncomplete rounds → Progress.resetProgress rounds = rounds.
Proof.
  unfold Progress.resetProgress. induction 1 as [|round rounds Hr _ IH];
    [reflexivity|].
  rewrite fmap_cons, IH. f_equal.
  induction Hr as [|m round Hm _ IHr]; [reflexivity|].
  rewrite fmap_cons, IHr. f_equal. destruct m as [t c]. simpl in *.
  now subst.
Qed.

Lemma resetProgress_allIncomplete (rounds : list (list Match)) :
  allIncomplete (Progress.resetProgress rounds).
Proof.
  unfold allIncomplete, Progress.resetProgress.
  apply Forall_fmap, Forall_forall. intros round _.
  apply Forall_fmap, Forall_forall. intros m _. reflexivity.
Qed.

Lemma allIncomplete_counts (n : Z) (rounds : list (list Match)) :
  allIncomplete rounds → Progress.matchesCount n rounds = Progress.zeroCounts n.
Proof.
  intros H. now rewrite matchesCount_tally, (allIncomplete_no_pairs _ H).
Qed.

(** X13. [resetProgress] keeps the schedule (rounds, courts and team
    pairings) and leaves no match complete; resetting twice is resetting
    once, a toggle before the reset is forgotten, and after a reset every
    progress counter is 0. *)
Theorem resetProgress_clears (rounds : list (list Match))
    (roundIndex courtIndex n : Z) :
  pairsOf (Progress.resetProgress rounds) = pairsOf rounds ∧
  allIncomplete (Progress.resetProgress rounds) ∧
  Progress.resetProgress (Progress.resetProgress rounds)
  = Progress.resetProgress rounds ∧
  Progress.resetProgress
    (Completion.toggleComplete rounds roundIndex courtIndex)
  = Progress.resetProgress rounds ∧
  Progress.matchesCount n (Progress.resetProgress rounds)
  = Progress.zeroCounts n.
Proof.
  split; [|split; [|split; [|split]]].
  - unfold pairsOf, Progress.resetProgress.
    rewrite <- list_fmap_compose. apply list_fmap_ext. intros i round _.
    simpl. rewrite <- list_fmap_compose. now apply list_fmap_ext.
  - apply resetProgress_allIncomplete.
  - apply allIncomplete_reset_id, resetProgress_allIncomplete.
  - unfold Progress.resetProgress, Completion.toggleComplete.
    apply list_eq. intros r. rewrite !list_lookup_fmap, list_lookup_imap.
    destruct (rounds !! r) as [round|]; simpl; [|reflexivity].
    f_equal. apply list_eq. intros c.
    rewrite !list_lookup_fmap, list_lookup_imap.
    destruct (round !! c) as [m|]; simpl; [|reflexivity].
    now rewrite flipAt_teams.
  - apply allIncomplete_counts, resetProgress_allIncomplete.
Qed.

(** X14. Toggles commute: toggling two addresses gives the same rounds
    state in either order. *)
Theorem toggles_commute (rounds : list (list Match)) (r1 c1 r2 c2 : Z) :
  Completion.toggleComplete (Completion.toggleComplete rounds r1 c1) r2 c2
  = Completion.toggleComplete (Completion.toggleComplete rounds r2 c2) r1 c1.
Proof.
  unfold Completion.toggleComplete.
  apply list_eq. intros r. rewrite !list_lookup_imap.
  destruct (rounds !! r) as [round|]; simpl; [|reflexivity].
  f_equal. apply list_eq. intros c. rewrite !list_lookup_imap.
  destruct (round !! c) as [m|]; simpl; [|reflexivity].
  f_equal. unfold Completion.flipAt.
  destruct ((Z.of_nat r =? r1) && (Z.of_nat c =? c1)),
    ((Z.of_nat r =? r2) && (Z.of_nat c =? c2)); reflexivity.
Qed.

Section FreshFacts.
Import LoadBalanced.

Lemma balanced_visit_fresh st p :
  Forall (λ m, complete m = false) (round st) →
  Forall (λ m, complete m = false) (round (visit st p)).
Proof.
  intros H. unfold visit. destruct p as [a b].
  destruct (_ && _); [|assumption]. simpl.
  apply Forall_app. split; [assumption|]. now repeat constructor.
Qed.

Lemma balanced_fillRound_fresh l : ∀ st,
  Forall (λ m, complete m = false) (round st) →
  Forall (λ m, complete m = false) (round (fillRound st l)).
Proof.
  induction l as [|p l IH]; intros st H; simpl; [assumption|].
  destruct (_ =? _)%nat; [|apply IH]; now apply balanced_visit_fresh.
Qed.

Lemma balanced_loop_fresh fuel : ∀ b out,
  allIncomplete (rounds b) → loop fuel b = Some out → allIncomplete out.
Proof.
  induction fuel as [|fuel IH]; intros b out Hb H; [discriminate|].
  simpl in H. destruct (remainingPairs b); [now injection H as <-|].
  destruct (iteration b) as [b'|] eqn:Hit; [|now injection H as <-].
  apply (IH b'); [|assumption].
  unfold iteration in Hit. destruct (_ <? _)%nat; [discriminate|].
  injection Hit as <-. simpl. apply Forall_app. split; [assumption|].
  constructor; [|constructor]. apply balanced_fillRound_fresh. constructor.
Qed.
End FreshFacts.

Lemma freshRounds_allIncomplete (rounds : list (list Pair)) :
  allIncomplete (freshRounds rounds).
Proof.
  unfold allIncomplete, freshRounds.
  apply Forall_fmap, Forall_forall. intros round _.
  apply Forall_fmap, Forall_forall. intros m _. reflexivity.
Qed.

(** X15. A schedule that has just been generated carries no progress:
    every match that [scheduleRounds(teamCount)] or [groupRounds(pairs)]
    returns has [complete: false], so a reset changes nothing and every
    progress counter is 0 after a regeneration. *)
Theorem generated_schedule_has_no_progress (n : Z) :
  (∃ rounds, LoadBalanced.scheduleRounds n = Some rounds ∧
             allIncomplete rounds ∧
             Progress.resetProgress rounds = rounds ∧
             Progress.matchesCount n rounds = Progress.zeroCounts n) ∧
  (∀ pairs, ∃ rounds, Plain.groupRounds pairs = Some rounds ∧
             allIncomplete rounds ∧
             Progress.resetProgress rounds = rounds ∧
             Progress.matchesCount n rounds = Progress.zeroCounts n).
Proof.
  split.
  - destruct (balanced_scheduleRounds_spec n) as (more & H & _).
    exists (LoadBalanced.round1 :: more).
    assert (allIncomplete (LoadBalanced.round1 :: more)) as Hall.
    { unfold LoadBalanced.scheduleRounds in H.
      eapply balanced_loop_fresh; [|exact H]. simpl.
      repeat constructor. }
    split; [exact H|]. split; [exact Hall|].
    split; [now apply allIncomplete_reset_id|now apply allIncomplete_counts].
  - intros pairs.
    destruct (seeded_scheduleRounds_spec pairs) as (rs & H & _).
    exists (freshRounds rs).
    pose proof (freshRounds_allIncomplete rs) as Hall.
    split; [|split; [exact Hall|]].
    + unfold Plain.groupRounds, Seeded.scheduleRounds in *.
      change [] with (freshRounds []).
      etrans; [apply (plain_seeded_loop (S (length pairs)) pairs [])|].
      now rewrite H.
    + split; [now apply allIncomplete_reset_id|now apply allIncomplete_counts].
Qed.

(** ** Matches per team *)

Lemma NoDup_filter_bool {A} (f : A → bool) (l : list A) :
  NoDup l → NoDup (List.filter f l).
Proof.
  intros H. rewrite <- (filter_split f l) in H.
  now apply NoDup_app in H as (H & _ & _).
Qed.

Lemma occurrences_as_filter (t : Z) (pairs : list Pair) :
  (∀ p, p ∈ pairs → p.1 < p.2) →
  occurrences t pairs
  = Z.of_nat (length (List.filter (λ p, (p.1 =? t) || (p.2 =? t)) pairs)).
Proof.
  induction pairs as [|p pairs IH]; intros H; [reflexivity|].
  rewrite occurrences_cons, IH by (intros q Hq; apply H; now right).
  specialize (H p ltac:(left)). simpl.
  destruct (Z.eqb_spec p.1 t), (Z.eqb_spec p.2 t); simpl; lia.
Qed.

(** A team meets each other team at most once. *)
Lemma occurrences_bounded (t n : Z) (pairs : list Pair) :
  1 ≤ t ≤ n → NoDup pairs →
  (∀ p, p ∈ pairs → 1 ≤ p.1 ∧ p.1 < p.2 ∧ p.2 ≤ n) →
  occurrences t pairs ≤ n - 1.
Proof.
  intros Ht Hnd Hv.
  rewrite occurrences_as_filter by (intros p Hp; apply Hv in Hp; lia).
  set (M := List.filter (λ p, (p.1 =? t) || (p.2 =? t)) pairs).
  set (other := λ p : Pair, if p.1 =? t then p.2 else p.1).
  assert (∀ p, p ∈ M → p ∈ pairs ∧ (p.1 = t ∨ p.2 = t)) as HM.
  { intros p Hp. apply elem_of_filter_bool in Hp as [Hp Hf].
    split; [assumption|].
    apply orb_prop in Hf as [Hf|Hf]; apply Z.eqb_eq in Hf; auto. }
  assert (NoDup (t :: (other <$> M))) as Hnd'.
  { constructor.
    - intros Hin. apply list_elem_of_fmap in Hin as (p & Hp & HpM).
      destruct (HM p HpM) as [Hpin _]. apply Hv in Hpin.
      unfold other in Hp. destruct (Z.eqb_spec p.1 t); lia.
    - apply NoDup_fmap_2_strong; [|now apply NoDup_filter_bool].
      intros p q Hp Hq Heq.
      destruct (HM p Hp) as [Hpin Hpt], (HM q Hq) as [Hqin Hqt].
      apply Hv in Hpin, Hqin. unfold other in Heq.
      destruct p as [p1 p2], q as [q1 q2]. simpl in *.
      destruct (Z.eqb_spec p1 t), (Z.eqb_spec q1 t); f_equal; lia. }
  assert (t :: (other <$> M) ⊆+ seqZ 1 n) as Hsub.
  { apply NoDup_submseteq; [assumption|]. intros x Hx.
    apply elem_of_seqZ. apply elem_of_cons in Hx as [->|Hx]; [lia|].
    apply list_elem_of_fmap in Hx as (p & -> & HpM).
    destruct (HM p HpM) as [Hpin _]. apply Hv in Hpin.
    unfold other. destruct (p.1 =? t); lia. }
  apply submseteq_length in Hsub.
  rewrite length_seqZ in Hsub. simpl in Hsub. rewrite length_fmap in Hsub.
  lia.
Qed.

(** A team plays at most once in a round. *)
Lemma occurrences_per_round (t : Z) (schedule : list (list Pair)) :
  Forall fullRound schedule →
  (∀ p, p ∈ concat schedule → p.1 < p.2) →
  occurrences t (concat schedule) ≤ Z.of_nat (length schedule).
Proof.
  induction 1 as [|r schedule [Hlen HD] _ IH]; intros Hv; [reflexivity|].
  simpl concat. rewrite occurrences_app.
  assert (occurrences t (concat schedule) ≤ Z.of_nat (length schedule)) as H
    by (apply IH; intros p Hp; apply Hv, elem_of_app; now right).
  assert (occurrences t r ≤ 1) as Hr; [|simpl length; lia].
  destruct r as [|p [|q [|? ?]]]; try discriminate.
  pose proof (roundDisjoint_two _ _ HD) as Hap.
  assert (p.1 < p.2) as Hp by (apply Hv; simpl; left).
  assert (q.1 < q.2) as Hq by (apply Hv; simpl; right; left).
  rewrite !occurrences_cons.
  change (occurrences t []) with 0.
  destruct (Z.eqb_spec p.1 t) as [H1|H1], (Z.eqb_spec p.2 t) as [H2|H2],
    (Z.eqb_spec q.1 t) as [H3|H3], (Z.eqb_spec q.2 t) as [H4|H4];
    try lia; exfalso.
  all: first
    [ apply (Hap p.1); apply elem_of_teamsOf; [now left|];
      first [left; congruence | right; congruence]
    | apply (Hap p.2); apply elem_of_teamsOf; [now right|];
      first [left; congruence | right; congruence] ].
Qed.

Lemma length_concat_full (schedule : list (list Pair)) :
  Forall fullRound schedule →
  length (concat schedule) = (2 * length schedule)%nat.
Proof.
  induction 1 as [|r schedule [Hlen _] _ IH]; [reflexivity|].
  simpl. rewrite length_app, IH, Hlen. lia.
Qed.

(** X16. For four teams or more, [playCounts] of the seeded schedule has
    exactly the keys 1..teamCount; the counter of a team is the number of
    its matches in the schedule, which is at most teamCount - 1 and at
    most the number of rounds; the counters add up to four times the
    number of rounds. *)
Theorem seeded_playCounts_bounded (n : Z) :
  4 ≤ n →
  ∃ schedule,
    generateSchedule SeededFixed n = Some schedule ∧
    (∀ t, is_Some (Progress.playCounts n schedule !! t) ↔ 1 ≤ t ≤ n) ∧
    (∀ t, 1 ≤ t ≤ n →
          Progress.playCounts n schedule !! t
          = Some (Progress.Num (occurrences t (matchesOf schedule))) ∧
          0 ≤ occurrences t (matchesOf schedule) ≤ n - 1 ∧
          occurrences t (matchesOf schedule) ≤ Z.of_nat (length schedule)) ∧
    sumZ ((λ t, occurrences t (matchesOf schedule)) <$> seqZ 1 n)
    = 4 * Z.of_nat (length schedule).
Proof.
  intros Hn.
  destruct (schedule_drawn_from_pairs SeededFixed n Hn)
    as (schedule & lo & H & Hp).
  destruct (generateSchedule_full SeededFixed n) as (s' & H' & Hfull).
  rewrite H in H'. injection H' as <-.
  assert (∀ p, p ∈ matchesOf schedule → 1 ≤ p.1 ∧ p.1 < p.2 ∧ p.2 ≤ n) as Hv.
  { intros p Hin. apply elem_of_generatePairs. rewrite <- Hp.
    apply elem_of_app. now left. }
  assert (NoDup (matchesOf schedule)) as Hnd.
  { pose proof (NoDup_generatePairs n) as Hg. rewrite <- Hp in Hg.
    now apply NoDup_app in Hg as (Hg & _ & _). }
  assert (∀ t, Progress.playCounts n schedule !! t
               = incrementedBy (occurrences t (matchesOf schedule))
                   (if decide (1 ≤ t ≤ n) then Some (Progress.Num 0)
                    else None)) as Hlook.
  { intros t. now rewrite playCounts_tally, tally_lookup, zeroCounts_lookup. }
  exists schedule. split; [exact H|]. split; [|split].
  - intros t. rewrite Hlook.
    destruct (decide (1 ≤ t ≤ n)) as [Ht|Ht]; simpl; [split; eauto|].
    rewrite occurrences_absent.
    + simpl. split; [intros [? ?]; discriminate|contradiction].
    + intros p Hin. apply Hv in Hin. lia.
  - intros t Ht. rewrite Hlook.
    destruct (decide (1 ≤ t ≤ n)); [|contradiction]. simpl.
    split; [reflexivity|]. split; [split|].
    + apply occurrences_nonneg.
    + now apply occurrences_bounded.
    + apply occurrences_per_round; [assumption|].
      intros p Hin. apply Hv in Hin. lia.
  - unfold matchesOf.
    rewrite sumZ_occurrences, (length_concat_full _ Hfull);
      [lia|apply NoDup_seqZ|].
    intros p Hin. apply Hv in Hin. rewrite !elem_of_seqZ. lia.
Qed.

Lemma seeded_playCounts_bounded_witness :
  ∃ schedule,
    generateSchedule SeededFixed 6 = Some schedule ∧
    (∀ t, is_Some (Progress.playCounts 6 schedule !! t) ↔ 1 ≤ t ≤ 6) ∧
    (∀ t, 1 ≤ t ≤ 6 →
          Progress.playCounts 6 schedule !! t
          = Some (Progress.Num (occurrences t (matchesOf schedule))) ∧
          0 ≤ occurrences t (matchesOf schedule) ≤ 6 - 1 ∧
          occurrences t (matchesOf schedule) ≤ Z.of_nat (length schedule)) ∧
    sumZ ((λ t, occurrences t (matchesOf schedule)) <$> seqZ 1 6)
    = 4 * Z.of_nat (length schedule).
Proof. apply (seeded_playCounts_bounded 6). lia. Defined.

(** ** The completion object of the seeded variant *)

Section CompletedFacts.
Import Completion Progress.

Lemma NoDup_setOfArray (array : list Z) : NoDup (setOfArray array).
Proof.
  induction array as [|x rest IH]; simpl; constructor.
  - intros H. apply elem_of_filter_bool in H as [_ H].
    now rewrite Z.eqb_refl in H.
  - now apply NoDup_filter_bool.
Qed.

Lemma filter_absent (x : Z) (l : list Z) :
  x ∉ l → List.filter (λ y, negb (y =? x)) l = l.
Proof.
  induction l as [|y l IH]; intros H; [reflexivity|]. simpl.
  destruct (Z.eqb_spec y x) as [->|_]; simpl.
  - exfalso. apply H. left.
  - rewrite IH; [reflexivity|]. intros Hin. apply H. now right.
Qed.

Lemma setOfArray_NoDup_id (array : list Z) :
  NoDup array → setOfArray array = array.
Proof.
  induction 1 as [|x l Hx _ IH]; [reflexivity|]. simpl.
  now rewrite IH, filter_absent.
Qed.

Lemma filter_present_length (x : Z) (l : list Z) :
  NoDup l → x ∈ l →
  S (length (List.filter (λ y, negb (y =? x)) l)) = length l.
Proof.
  induction 1 as [|y l Hy _ IH]; intros Hx; [inversion Hx|]. simpl.
  destruct (Z.eqb_spec y x) as [->|Hne]; simpl.
  - now rewrite filter_absent.
  - apply elem_of_cons in Hx as [?|Hx]; [congruence|]. now rewrite IH.
Qed.

(** The array written for the toggled round. *)
Lemma toggled_courts_NoDup (courts : list Z) (ci : Z) :
  NoDup (if bool_decide (ci ∈ setOfArray courts)
         then List.filter (λ y, negb (y =? ci)) (setOfArray courts)
         else setOfArray courts ++ [ci]).
Proof.
  destruct (bool_decide (ci ∈ setOfArray courts)) eqn:E.
  - apply NoDup_filter_bool, NoDup_setOfArray.
  - apply bool_decide_eq_false in E. apply NoDup_app.
    split; [apply NoDup_setOfArray|]. split; [|apply NoDup_singleton].
    intros x Hx Hc. apply list_elem_of_singleton in Hc as ->. contradiction.
Qed.

Lemma completedCount_insert (cm : gmap Z (list Z)) (i : Z) (x : list Z) :
  cm !! i = None →
  completedCount (<[i := x]> cm) = (completedCount cm + length x)%nat.
Proof.
  intros H. unfold completedCount.
  rewrite map_fold_insert_L; [reflexivity| |assumption].
  intros. lia.
Qed.

Lemma completedCount_split (cm : gmap Z (list Z)) (i : Z) :
  completedCount cm
  = (completedCount (delete i cm) + length (default [] (cm !! i)))%nat.
Proof.
  destruct (cm !! i) as [x|] eqn:Hi; simpl.
  - rewrite <- (insert_delete_id cm i x Hi) at 1.
    apply completedCount_insert, lookup_delete_eq.
  - rewrite delete_id by assumption. lia.
Qed.

Lemma toggle_preserves_NoDup (cm : gmap Z (list Z)) (ri ci : Z) :
  (∀ k courts, cm !! k = Some courts → NoDup courts) →
  ∀ k courts, toggleMatchComplete cm ri ci !! k = Some courts → NoDup courts.
Proof.
  intros Hcm k courts. unfold toggleMatchComplete.
  destruct (decide (k = ri)) as [->|Hne].
  - rewrite lookup_insert_eq. intros [= <-]. apply toggled_courts_NoDup.
  - rewrite lookup_insert_ne by congruence. apply Hcm.
Qed.

Lemma afterToggles_snoc (addresses : list (Z * Z)) (a : Z * Z) :
  afterToggles (addresses ++ [a])
  = toggleMatchComplete (afterToggles addresses) a.1 a.2.
Proof. unfold afterToggles. now rewrite foldl_app. Qed.

Lemma afterToggles_NoDup (addresses : list (Z * Z)) :
  ∀ k courts, afterToggles addresses !! k = Some courts → NoDup courts.
Proof.
  induction addresses as [|a addresses IH] using rev_ind.
  - intros k courts H. unfold afterToggles in H. simpl in H.
    now rewrite lookup_empty in H.
  - rewrite afterToggles_snoc. now apply toggle_preserves_NoDup.
Qed.

Lemma toggle_completedCount (cm : gmap Z (list Z)) (ri ci : Z) :
  (∀ courts, cm !! ri = Some courts → NoDup courts) →
  if isCompleted cm ri ci
  then S (completedCount (toggleMatchComplete cm ri ci)) = completedCount cm
  else completedCount (toggleMatchComplete cm ri ci) = S (completedCount cm).
Proof.
  intros Hnd. unfold toggleMatchComplete.
  rewrite (completedCount_split cm ri).
  rewrite <- insert_delete_eq.
  rewrite completedCount_insert by apply lookup_delete_eq.
  unfold isCompleted.
  assert (NoDup (default [] (cm !! ri))) as Hold.
  { destruct (cm !! ri) as [x|]; simpl; [now apply Hnd|constructor]. }
  assert (match cm !! ri with
          | Some courts => bool_decide (ci ∈ courts)
          | None => false
          end = bool_decide (ci ∈ default [] (cm !! ri))) as ->
    by (destruct (cm !! ri); reflexivity).
  rewrite (setOfArray_NoDup_id _ Hold).
  destruct (bool_decide (ci ∈ default [] (cm !! ri))) eqn:E.
  - apply bool_decide_eq_true in E.
    pose proof (filter_present_length ci _ Hold E). lia.
  - rewrite length_app. simpl. lia.
Qed.

End CompletedFacts.

(** X17. [toggleMatchComplete] flips the flag read at its address and no
    other: the flag of every other address and the array of every other
    round stay as they were, whatever the indices are, and the array it
    writes for the round holds no index twice. *)
Theorem seeded_toggle_frame (prev : gmap Z (list Z)) (roundIndex courtIndex : Z) :
  let next := Completion.toggleMatchComplete prev roundIndex courtIndex in
  (∀ r c, Completion.isCompleted next r c
          = if decide (r = roundIndex ∧ c = courtIndex)
            then negb (Completion.isCompleted prev r c)
            else Completion.isCompleted prev r c) ∧
  (∀ r, r ≠ roundIndex → next !! r = prev !! r) ∧
  (∃ courts, next !! roundIndex = Some courts ∧ NoDup courts).
Proof.
  intros next. subst next. split; [|split].
  - intros r c. apply isCompleted_toggle.
  - intros r Hr. unfold Completion.toggleMatchComplete.
    now rewrite lookup_insert_ne by congruence.
  - unfold Completion.toggleMatchComplete. rewrite lookup_insert_eq.
    eexists. split; [reflexivity|]. apply toggled_courts_NoDup.
Qed.

(** X18. Starting from the empty completion object, after any series of
    toggles no stored array holds an index twice, a match is complete
    exactly when it was toggled an odd number of times, and one more
    toggle moves [completedCount] by exactly one: up when the match was
    not complete, down when it was. *)
Theorem toggles_count_matches (addresses : list (Z * Z)) (r c : Z) :
  let completedMatches := afterToggles addresses in
  (∀ k courts, completedMatches !! k = Some courts → NoDup courts) ∧
  Completion.isCompleted completedMatches r c
  = Nat.odd (length (List.filter
                       (λ a, (a.1 =? r) && (a.2 =? c)) addresses)) ∧
  (if Completion.isCompleted completedMatches r c
   then S (Progress.completedCount
             (Completion.toggleMatchComplete completedMatches r c))
        = Progress.completedCount completedMatches
   else Progress.completedCount
          (Completion.toggleMatchComplete completedMatches r c)
        = S (Progress.completedCount completedMatches)).
Proof.
  intros cm. subst cm. split; [|split].
  - apply afterToggles_NoDup.
  - induction addresses as [|a addresses IH] using rev_ind; [reflexivity|].
    rewrite afterToggles_snoc, isCompleted_toggle, IH.
    rewrite List.filter_app, length_app. simpl.
    destruct (decide (r = a.1 ∧ c = a.2)) as [[-> ->]|Hne].
    + rewrite !Z.eqb_refl. simpl. rewrite Nat.add_1_r, Nat.odd_succ.
      now rewrite Nat.negb_odd.
    + destruct (Z.eqb_spec a.1 r), (Z.eqb_spec a.2 c); simpl;
        try (now rewrite Nat.add_0_r).
      exfalso. apply Hne. auto.
  - apply toggle_completedCount. intros courts. apply afterToggles_NoDup.
Qed.

(** ** The keys of [playedPairs] and the JSON text of a pair *)

Lemma lacks_pretty_N_go (c : ascii) (x : N) :
  (∀ d, pretty_N_char d ≠ c) →
  ∀ s, lacks c s → lacks c (pretty_N_go x s).
Proof.
  intros Hc. induction (N.lt_wf_0 x) as [x _ IH]; intros s Hs.
  assert (x = 0 ∨ 0 < x)%N as [->|Hx] by lia.
  - now rewrite pretty_N_go_0.
  - rewrite pretty_N_go_step by assumption. apply IH.
    + now apply N.div_lt.
    + split; [apply Hc|assumption].
Qed.

Lemma lacks_pretty (c : ascii) (z : Z) :
  (∀ d, pretty_N_char d ≠ c) → 0 ≤ z → lacks c (pretty z).
Proof.
  intros Hc Hz.
  destruct z as [|x|x]; [simpl; split; [exact (Hc 0%N)|exact I]| |lia].
  unfold pretty, pretty_Z, pretty, pretty_positive, pretty, pretty_N.
  destruct (decide (N.pos x = 0%N)); [discriminate|].
  now apply lacks_pretty_N_go.
Qed.

Lemma digit_not_dash (d : N) : pretty_N_char d ≠ "-"%char.
Proof. unfold pretty_N_char. repeat case_match; discriminate. Qed.

Lemma digit_not_comma (d : N) : pretty_N_char d ≠ ","%char.
Proof. unfold pretty_N_char. repeat case_match; discriminate. Qed.

Lemma digit_not_bracket (d : N) : pretty_N_char d ≠ "]"%char.
Proof. unfold pretty_N_char. repeat case_match; discriminate. Qed.

Lemma append_sep_inj (c : ascii) (s1 : string) : ∀ s2 t1 t2,
  lacks c s1 → lacks c s2 →
  s1 +:+ String c t1 = s2 +:+ String c t2 → s1 = s2 ∧ t1 = t2.
Proof.
  induction s1 as [|d s1 IH]; intros [|e s2] t1 t2 H1 H2 Heq; simpl in *.
  - now injection Heq as ->.
  - injection Heq as <- _. now destruct H2.
  - injection Heq as -> _. now destruct H1.
  - injection Heq as -> Heq. destruct H1 as [_ H1], H2 as [_ H2].
    destruct (IH _ _ _ H1 H2 Heq) as [-> ->]. auto.
Qed.

(** The key of a pair of non-negative ids determines the pair. *)
Lemma pairKey_inj (a b c d : Z) :
  0 ≤ a → 0 ≤ c →
  LoadBalanced.pairKey a b = LoadBalanced.pairKey c d → a = c ∧ b = d.
Proof.
  intros Ha Hc Heq. unfold LoadBalanced.pairKey in Heq.
  change ("-" +:+ pretty b) with (String "-" (pretty b)) in Heq.
  change ("-" +:+ pretty d) with (String "-" (pretty d)) in Heq.
  apply append_sep_inj in Heq as [H1 H2];
    try (apply lacks_pretty; [apply digit_not_dash|assumption]).
  split; now apply (inj pretty).
Qed.

(** The JSON text of a pair of non-negative ids determines the pair. *)
Lemma stringify_inj (p q : Pair) :
  0 ≤ p.1 → 0 ≤ p.2 → 0 ≤ q.1 → 0 ≤ q.2 →
  Seeded.stringify p = Seeded.stringify q → p = q.
Proof.
  intros Hp1 Hp2 Hq1 Hq2 Heq. unfold Seeded.stringify in Heq.
  change ("[" +:+ pretty p.1 +:+ "," +:+ pretty p.2 +:+ "]")
    with (String "[" (pretty p.1 +:+ String "," (pretty p.2 +:+ String "]" "")))
    in Heq.
  change ("[" +:+ pretty q.1 +:+ "," +:+ pretty q.2 +:+ "]")
    with (String "[" (pretty q.1 +:+ String "," (pretty q.2 +:+ String "]" "")))
    in Heq.
  injection Heq as Heq.
  apply append_sep_inj in Heq as [H1 H2];
    try (apply lacks_pretty; [apply digit_not_comma|assumption]).
  apply append_sep_inj in H2 as [H2 _];
    try (apply lacks_pretty; [apply digit_not_bracket|assumption]).
  apply (inj pretty) in H1, H2. destruct p, q; simpl in *; congruence.
Qed.

(** ** Reading the load-balanced loop *)

Section BalancedReading.
Import LoadBalanced.

Lemma balanced_visit_accepts (st : Scan) (p : Pair) :
  free (usedTeams st) p = true → pairKey p.1 p.2 ∉ playedPairs st →
  visit st p = accepted st p.
Proof.
  intros Hf Hk. unfold visit, accepted. destruct p as [a b].
  unfold free in Hf. simpl in *. rewrite Hf.
  now rewrite (bool_decide_true _ Hk).
Qed.

Lemma balanced_visit_rejects (st : Scan) (p : Pair) :
  free (usedTeams st) p = false → visit st p = st.
Proof.
  intros Hf. unfold visit. destruct p as [a b].
  unfold free in Hf. simpl in *. now rewrite Hf.
Qed.

(** The inner loop, once the first match is in the round, when the guard
    on [playedPairs] lets every candidate through. *)
Lemma balanced_fillRound_second (st : Scan) (l : list Pair) :
  length (round st) = 1%nat →
  (∀ x, x ∈ l → pairKey x.1 x.2 ∉ playedPairs st) →
  fillRound st l = match takeFirst (free (usedTeams st)) l with
                   | Some (q, _) => accepted st q
                   | None => st
                   end.
Proof.
  intros Hlen. induction l as [|x l IH]; intros Hk; [reflexivity|].
  cbn [fillRound takeFirst].
  destruct (free (usedTeams st) x) eqn:Hf.
  - rewrite balanced_visit_accepts by (assumption || (apply Hk; left)).
    unfold accepted at 1. cbn [round]. rewrite length_app, Hlen. reflexivity.
  - rewrite balanced_visit_rejects by assumption. rewrite Hlen.
    cbn [Nat.eqb]. rewrite IH by (intros y Hy; apply Hk; now right).
    now destruct (takeFirst (free (usedTeams st)) l) as [[q rest']|].
Qed.

Lemma free_empty (p : Pair) : free ∅ p = true.
Proof.
  unfold free. now rewrite !bool_decide_true by apply not_elem_of_empty.
Qed.

Lemma removeFirst_found {A} (test test' : A → bool) (l : list A) q l' :
  takeFirst test l = Some (q, l') →
  (∀ x, test x = false → test' x = false) → test' q = true →
  removeFirst test' l = l'.
Proof.
  intros H Himp Hq.
  apply takeFirst_Some in H as (before & after & -> & HF & _ & ->).
  induction before as [|x before IH]; simpl.
  - now rewrite Hq.
  - apply Forall_cons in HF as [Hx HF]. now rewrite (Himp x Hx), IH.
Qed.

Lemma free_not_same (used : gset Z) (q x : Pair) :
  free used q = true → free used x = false → sameTeams q x = false.
Proof.
  intros Hq Hx. destruct (sameTeams q x) eqn:Hs; [|reflexivity]. exfalso.
  unfold free in Hq, Hx. apply andb_true_iff in Hq as [Hq1 Hq2].
  apply bool_decide_eq_true in Hq1, Hq2. unfold sameTeams in Hs.
  apply orb_prop in Hs as [Hs|Hs]; apply andb_prop in Hs as [H1 H2];
    apply Z.eqb_eq in H1, H2; rewrite H1, H2 in Hx;
    rewrite !bool_decide_true in Hx by assumption; discriminate.
Qed.


Lemma key_stays_fresh (played : gset string) (p x : Pair) :
  1 ≤ p.1 ∧ p.1 < p.2 → 1 ≤ x.1 ∧ x.1 < x.2 → x ≠ p →
  pairKey x.1 x.2 ∉ played →
  pairKey x.1 x.2 ∉ {[pairKey p.2 p.1]} ∪ ({[pairKey p.1 p.2]} ∪ played).
Proof.
  intros Hp Hx Hne Hk. rewrite !elem_of_union, !elem_of_singleton.
  intros [Heq|[Heq|Hin]]; [| |contradiction].
  - apply pairKey_inj in Heq as [H1 H2]; lia.
  - apply pairKey_inj in Heq as [H1 H2]; [|lia..].
    apply Hne. destruct x, p. simpl in *. congruence.
Qed.

(** One iteration, when the candidates are distinct, written with the
    smaller positive id first, and none has its key in [playedPairs]: the
    round is the greedy round of the sorted candidates. *)
Lemma balanced_iteration_reading (b : Build) :
  NoDup (remainingPairs b) →
  (∀ x, x ∈ remainingPairs b → 1 ≤ x.1 ∧ x.1 < x.2) →
  (∀ x, x ∈ remainingPairs b → pairKey x.1 x.2 ∉ played b) →
  iteration b
  = match sortBy (playedSum (counts b)) (remainingPairs b) with
    | [] => None
    | p :: rest =>
        match takeFirst (free ({[p.2]} ∪ ({[p.1]} ∪ ∅))) rest with
        | Some (q, rest') =>
            let st := accepted
                        (accepted (mkScan ∅ [] (played b) (counts b)) p) q in
            Some (mkBuild rest' (matchesCount st) (playedPairs st)
                          (rounds b ++ [round st]))
        | None => None
        end
    end.
Proof.
  intros Hnd Hpos Hkey. unfold iteration.
  pose proof (sortBy_Permutation (playedSum (counts b)) (remainingPairs b))
    as Hperm.
  destruct (sortBy (playedSum (counts b)) (remainingPairs b))
    as [|p rest] eqn:Hs; [reflexivity|].
  rewrite <- Hperm in Hnd.
  assert (∀ x, x ∈ p :: rest → 1 ≤ x.1 ∧ x.1 < x.2) as Hpos'
    by (intros x Hx; apply Hpos; now rewrite <- Hperm).
  assert (∀ x, x ∈ p :: rest → pairKey x.1 x.2 ∉ played b) as Hkey'
    by (intros x Hx; apply Hkey; now rewrite <- Hperm).
  apply NoDup_cons in Hnd as [Hp Hnd].
  set (st0 := mkScan ∅ [] (played b) (counts b)).
  cbn [fillRound].
  rewrite (balanced_visit_accepts st0 p)
    by (apply free_empty || (apply Hkey'; left)).
  change (length (round (accepted st0 p)) =? 2)%nat with false. cbv iota.
  rewrite balanced_fillRound_second; [|reflexivity|].
  - change (usedTeams (accepted st0 p)) with ({[p.2]} ∪ ({[p.1]} ∪ (∅ : gset Z))).
    destruct (takeFirst _ rest) as [[q rest']|] eqn:Ht; [|reflexivity].
    change (length (round (accepted (accepted st0 p) q)) <? 2)%nat with false.
    cbv iota. cbv zeta. f_equal. f_equal.
    unfold removeUsed. subst st0. cbn [foldl round accepted app teams removeFirst].
    rewrite sameTeams_refl.
    eapply removeFirst_found; [exact Ht| |apply sameTeams_refl].
    intros x Hx. eapply free_not_same; [|exact Hx].
    now apply takeFirst_Some in Ht as (_ & _ & _ & _ & Hq & _).
  - intros x Hx. apply key_stays_fresh.
    + apply Hpos'. left.
    + apply Hpos'. now right.
    + intros ->. contradiction.
    + apply Hkey'. now right.
Qed.

End BalancedReading.

Section BalancedChoice.
Import LoadBalanced.

Lemma countOf_insert (mc : gmap Z Z) (k t : Z) :
  countOf (<[k := countOf mc k + 1]> mc) t
  = countOf mc t + (if k =? t then 1 else 0).
Proof.
  unfold countOf. destruct (Z.eqb_spec k t) as [->|Hne].
  - now rewrite lookup_insert_eq.
  - rewrite lookup_insert_ne by congruence. lia.
Qed.

Lemma countOf_accepted (st : Scan) (p : Pair) (t : Z) :
  countOf (matchesCount (accepted st p)) t
  = countOf (matchesCount st) t
    + (if p.1 =? t then 1 else 0) + (if p.2 =? t then 1 else 0).
Proof.
  unfold accepted. cbn [matchesCount]. now rewrite !countOf_insert.
Qed.

Lemma zeroFold_countOf (l : list Z) : ∀ (mc : gmap Z Z) t,
  countOf (foldl (λ mc i, <[i:=0]> mc) mc l) t
  = if decide (t ∈ l) then 0 else countOf mc t.
Proof.
  induction l as [|i l IH]; intros mc t; simpl.
  - destruct (decide (t ∈ [])) as [H|_]; [inversion H|reflexivity].
  - rewrite IH. destruct (decide (t ∈ l)) as [Hin|Hnin].
    + destruct (decide (t ∈ i :: l)) as [_|Hn]; [reflexivity|].
      exfalso. apply Hn. now right.
    + unfold countOf. destruct (decide (t = i)) as [->|Hne].
      * rewrite lookup_insert_eq.
        destruct (decide (i ∈ i :: l)) as [_|Hn]; [reflexivity|].
        exfalso. apply Hn. left.
      * rewrite lookup_insert_ne by congruence.
        destruct (decide (t ∈ i :: l)) as [Hin|_]; [|reflexivity].
        apply elem_of_cons in Hin as [?|?]; contradiction.
Qed.

Lemma initialCount_countOf (n t : Z) :
  countOf (initialCount n) t = occurrences t [(1, 2); (3, 4)].
Proof.
  unfold initialCount.
  assert (∀ (mc : gmap Z Z) k, countOf (<[k:=1]> mc) t
            = if k =? t then 1 else countOf mc t) as Hins.
  { intros mc k. unfold countOf. destruct (Z.eqb_spec k t) as [->|Hne].
    - now rewrite lookup_insert_eq.
    - now rewrite lookup_insert_ne by congruence. }
  rewrite !Hins, zeroFold_countOf.
  rewrite !occurrences_cons. cbn [fst snd].
  change (occurrences t []) with 0.
  change (countOf ∅ t) with 0.
  destruct (Z.eqb_spec 4 t), (Z.eqb_spec 3 t), (Z.eqb_spec 2 t),
    (Z.eqb_spec 1 t); try lia; now destruct (decide _).
Qed.

Lemma notOpening_spec (p : Pair) :
  p.1 < p.2 → (notOpening p = true ↔ p ∉ [(1, 2); (3, 4)]).
Proof.
  destruct p as [a b]. simpl. intros Hlt. unfold notOpening.
  rewrite !not_elem_of_cons.
  rewrite negb_true_iff, !orb_false_iff, !andb_false_iff, !Z.eqb_neq.
  split.
  - intros (((H1 & H2) & H3) & H4).
    repeat split; try (intros [= -> ->]; lia). apply not_elem_of_nil.
  - intros (H1 & H2 & _). repeat split; try lia.
    + destruct (decide (a = 1)) as [->|]; [|auto]. right. congruence.
    + destruct (decide (a = 3)) as [->|]; [|auto]. right. congruence.
Qed.

Lemma initialPlayed_keys (s : string) :
  s ∈ initialPlayed ↔
  s = pairKey 4 3 ∨ s = pairKey 3 4 ∨ s = pairKey 2 1 ∨ s = pairKey 1 2.
Proof.
  unfold initialPlayed. cbn [foldl round1 teams].
  rewrite !elem_of_union, !elem_of_singleton.
  split; [|tauto]. intros [?|[?|[?|[?|H]]]]; auto.
  now apply elem_of_empty in H.
Qed.

Lemma NoDup_generated_filter (keep : Pair → bool) (n : Z) :
  NoDup (List.filter keep (generatePairs n)).
Proof.
  eapply NoDup_fmap_1, NoDup_filter_generatePairs.
Qed.

Lemma balancedState_initial (n : Z) : balancedState n (initialBuild n).
Proof.
  unfold balancedState, initialBuild, initialRemaining, scheduledSoFar.
  cbn [remainingPairs played counts rounds].
  change (concat (pairsOf [round1])) with [(1, 2); (3, 4)].
  split; [apply NoDup_generated_filter|]. split; [|split].
  - intros p. rewrite elem_of_filter_bool. split.
    + intros [Hin Hk]. split; [assumption|].
      apply notOpening_spec; [|assumption].
      apply elem_of_generatePairs in Hin. lia.
    + intros [Hin Hk]. split; [assumption|].
      apply notOpening_spec; [|assumption].
      apply elem_of_generatePairs in Hin. lia.
  - intros p. rewrite elem_of_filter_bool. intros [Hin Hk].
    apply elem_of_generatePairs in Hin.
    apply notOpening_spec in Hk; [|lia].
    rewrite !not_elem_of_cons in Hk. destruct Hk as (H1 & H2 & _).
    rewrite initialPlayed_keys.
    intros [H|[H|[H|H]]]; apply pairKey_inj in H as [Ha Hb]; try lia.
    + apply H2. destruct p; simpl in *; congruence.
    + apply H1. destruct p; simpl in *; congruence.
  - apply initialCount_countOf.
Qed.


Lemma playedSum_load (n : Z) (b : Build) (x : Pair) :
  balancedState n b → playedSum (counts b) x = loadIn (scheduledSoFar b) x.
Proof.
  intros (_ & _ & _ & Hc). unfold playedSum, loadIn. now rewrite !Hc.
Qed.

Lemma apart_irrefl (p : Pair) : ¬ apart p p.
Proof.
  intros H. apply (H p.1); unfold teamsOf; left.
Qed.

(** One iteration from a state of the loop: the round it pushes and the
    state it leaves. *)
Lemma balanced_iteration_choice (n : Z) (b b' : Build) :
  balancedState n b → iteration b = Some b' →
  ∃ p q, rounds b' = rounds b ++ [[mkMatch p false; mkMatch q false]] ∧
         leastLoaded n (scheduledSoFar b) (λ _, True) p ∧
         leastLoaded n (scheduledSoFar b) (apart p) q ∧
         balancedState n b'.
Proof.
  intros Hst Hit. pose proof Hst as (Hnd & Hmem & Hkey & Hcnt).
  assert (∀ x, x ∈ remainingPairs b → 1 ≤ x.1 ∧ x.1 < x.2) as Hpos.
  { intros x Hx. apply Hmem in Hx as [Hx _].
    apply elem_of_generatePairs in Hx. lia. }
  rewrite (balanced_iteration_reading b Hnd Hpos Hkey) in Hit.
  pose proof (sortBy_Permutation (playedSum (counts b)) (remainingPairs b))
    as Hperm.
  pose proof (sortBy_sorted (playedSum (counts b)) (remainingPairs b))
    as Hsorted.
  destruct (sortBy (playedSum (counts b)) (remainingPairs b))
    as [|p rest]; [discriminate|].
  destruct (takeFirst _ rest) as [[q rest']|] eqn:Ht; [|discriminate].
  apply takeFirst_Some in Ht as (before & after & -> & Hbefore & Hq & ->).
  injection Hit as Hb'.
  set (st0 := mkScan ∅ [] (played b) (counts b)) in Hb'.
  assert (remainingPairs b' = before ++ after) as Hr'
    by (now rewrite <- Hb').
  assert (counts b' = matchesCount (accepted (accepted st0 p) q)) as Hc'
    by (now rewrite <- Hb').
  assert (played b' = {[pairKey q.2 q.1]} ∪ ({[pairKey q.1 q.2]}
            ∪ ({[pairKey p.2 p.1]} ∪ ({[pairKey p.1 p.2]} ∪ played b))))
    as Hp' by (now rewrite <- Hb').
  assert (rounds b' = rounds b ++ [[mkMatch p false; mkMatch q false]])
    as Hrd by (now rewrite <- Hb').
  assert (scheduledSoFar b' = scheduledSoFar b ++ [p; q]) as Hsch.
  { unfold scheduledSoFar, pairsOf. rewrite Hrd, fmap_app, concat_app.
    reflexivity. }
  clear Hb'.
  apply free_apart in Hq.
  rewrite <- Hperm in Hnd.
  apply NoDup_cons in Hnd as [Hp Hnd].
  apply StronglySorted_inv in Hsorted as [Hsorted Hpmin].
  assert (∀ x, x ∈ remainingPairs b ↔ x = p ∨ x ∈ before ∨ x = q ∨ x ∈ after)
    as Hrem.
  { intros x. rewrite <- Hperm, elem_of_cons, elem_of_app, elem_of_cons.
    tauto. }
  assert (∀ x, playedSum (counts b) x = loadIn (scheduledSoFar b) x) as Hload
    by (intros x; now apply (playedSum_load n)).
  exists p, q. split; [exact Hrd|]. split; [|split].
  - assert (p ∈ remainingPairs b) as Hin by (apply Hrem; auto).
    apply Hmem in Hin as [Hg Hn]. repeat split; try assumption.
    intros x Hx Hnx _. rewrite <- !Hload.
    assert (x ∈ remainingPairs b) as Hxr by (apply Hmem; auto).
    rewrite <- Hperm in Hxr. apply elem_of_cons in Hxr as [->|Hxr]; [lia|].
    rewrite Forall_forall in Hpmin. now apply Hpmin.
  - assert (q ∈ remainingPairs b) as Hin by (apply Hrem; auto).
    apply Hmem in Hin as [Hg Hn]. repeat split; try assumption.
    intros x Hx Hnx Hax. rewrite <- !Hload.
    assert (x ∈ remainingPairs b) as Hxr by (apply Hmem; auto).
    apply Hrem in Hxr as [->|[Hxb|[->|Hxa]]].
    + now apply apart_irrefl in Hax.
    + rewrite Forall_forall in Hbefore. apply Hbefore in Hxb.
      apply free_not_apart in Hxb. contradiction.
    + lia.
    + apply StronglySorted_app_1_r in Hsorted.
      apply StronglySorted_inv in Hsorted as [_ Hqmin].
      rewrite Forall_forall in Hqmin. now apply Hqmin.
  - unfold balancedState. rewrite Hr', Hc', Hp', Hsch.
    apply NoDup_app in Hnd as (Hnb & Hba & Hna).
    apply NoDup_cons in Hna as [Hqa Hna].
    assert (q ∉ before) as Hqb.
    { intros Hqb. apply (Hba q Hqb). left. }
    assert (∀ x, x ∈ before ++ after ↔
                 x ∈ remainingPairs b ∧ x ≠ p ∧ x ≠ q) as Hnew.
    { intros x. rewrite Hrem, elem_of_app. split.
      - intros Hx. split; [tauto|]. split; intros ->.
        + apply Hp. rewrite elem_of_app, elem_of_cons. tauto.
        + tauto.
      - tauto. }
    split; [|split; [|split]].
    + apply NoDup_app. repeat split; try assumption.
      intros x Hx1 Hx2. apply (Hba x Hx1). now right.
    + intros x. rewrite Hnew, Hmem, elem_of_app, !elem_of_cons, elem_of_nil.
      tauto.
    + intros x Hx. apply Hnew in Hx as (Hx & Hxp & Hxq).
      assert (1 ≤ p.1 ∧ p.1 < p.2) by (apply Hpos, Hrem; auto).
      assert (1 ≤ q.1 ∧ q.1 < q.2) by (apply Hpos, Hrem; auto).
      apply key_stays_fresh; try assumption; [now apply Hpos|].
      apply key_stays_fresh; try assumption; [now apply Hpos|].
      now apply Hkey.
    + intros t. rewrite !countOf_accepted. subst st0. cbn [matchesCount].
      rewrite Hcnt, occurrences_app, !occurrences_cons.
      change (occurrences t []) with 0. lia.
Qed.


Lemma balanced_loop_extends fuel : ∀ b out,
  loop fuel b = Some out → ∃ more, out = rounds b ++ more.
Proof.
  induction fuel as [|fuel IH]; intros b out H; [discriminate|].
  cbn [loop] in H. destruct (remainingPairs b) as [|x l].
  { injection H as <-. exists []. now rewrite app_nil_r. }
  destruct (iteration b) as [b'|] eqn:Hit.
  - apply balanced_iteration_spec in Hit as (r & Hr & _).
    apply IH in H as (more & ->). rewrite Hr, <- app_assoc. eauto.
  - injection H as <-. exists []. now rewrite app_nil_r.
Qed.

(** Every round the loop pushes from a state it can be in. *)
Lemma balanced_loop_choice (n : Z) fuel : ∀ b out,
  balancedState n b → loop fuel b = Some out →
  ∀ j r, out !! (length (rounds b) + j)%nat = Some r →
  ∃ p q, r = [mkMatch p false; mkMatch q false] ∧
         leastLoaded n
           (concat (pairsOf (take (length (rounds b) + j) out)))
           (λ _, True) p ∧
         leastLoaded n
           (concat (pairsOf (take (length (rounds b) + j) out)))
           (apart p) q.
Proof.
  induction fuel as [|fuel IH]; intros b out Hst H j r Hr; [discriminate|].
  cbn [loop] in H.
  assert (out = rounds b → False) as Hout.
  { intros ->. apply lookup_lt_Some in Hr. lia. }
  destruct (remainingPairs b) as [|x l].
  { injection H as <-. now destruct Hout. }
  destruct (iteration b) as [b'|] eqn:Hit.
  2:{ injection H as <-. now destruct Hout. }
  destruct (balanced_iteration_choice n b b' Hst Hit)
    as (p & q & Hrd & Hp & Hq & Hst').
  destruct j as [|j].
  - destruct (balanced_loop_extends _ _ _ H) as (more & ->).
    rewrite Hrd, <- app_assoc in Hr |- *.
    rewrite Nat.add_0_r in Hr |- *.
    rewrite lookup_app_r in Hr by lia. rewrite Nat.sub_diag in Hr.
    injection Hr as <-.
    rewrite take_app_length. exists p, q. auto.
  - assert (length (rounds b) + S j = length (rounds b') + j)%nat as Heq.
    { rewrite Hrd, length_app. simpl. lia. }
    rewrite Heq in Hr |- *. exact (IH b' out Hst' H j r Hr).
Qed.

End BalancedChoice.

(** X19. Every round after the opening of the load-balanced schedule takes,
    as its first match, a pair not scheduled before whose two teams have
    together played the fewest matches so far, and as its second match a
    pair with the fewest such matches among the unscheduled pairs that
    share no team with the first. *)
Theorem balanced_rounds_take_least_loaded (n : Z) :
  ∃ rounds,
    LoadBalanced.scheduleRounds n = Some rounds ∧
    ∀ i r, rounds !! S i = Some r →
      let before := concat (pairsOf (take (S i) rounds)) in
      ∃ p q, r = [mkMatch p false; mkMatch q false] ∧
             leastLoaded n before (λ _, True) p ∧
             leastLoaded n before (apart p) q.
Proof.
  destruct (balanced_scheduleRounds_spec n) as (more & Heq & _).
  exists (LoadBalanced.round1 :: more). split; [exact Heq|].
  intros i r Hr.
  exact (balanced_loop_choice n _ (LoadBalanced.initialBuild n) _
           (balancedState_initial n) Heq i r Hr).
Qed.

(** ** The leave warning *)

Section LeaveWarning.
Import Completion Progress.

Lemma courts_of_two (courts : list Z) :
  NoDup courts → (∀ c, c ∈ courts → 0 ≤ c < 2) →
  (length courts ≤ 2)%nat ∧
  (length courts = 2%nat ↔ 0 ∈ courts ∧ 1 ∈ courts).
Proof.
  intros Hnd Hin.
  assert (courts ⊆+ [0; 1]) as Hsub.
  { apply NoDup_submseteq; [assumption|]. intros c Hc.
    apply Hin in Hc. rewrite !elem_of_cons.
    destruct (decide (c = 0)); [auto|right; left; lia]. }
  pose proof (submseteq_length _ _ Hsub) as Hlen. simpl in Hlen.
  split; [assumption|]. split.
  - intros H2.
    assert (courts ≡ₚ [0; 1]) as Hp
      by (apply submseteq_length_Permutation; [assumption|simpl; lia]).
    rewrite Hp, !elem_of_cons. auto.
  - intros [H0 H1].
    assert ([0; 1] ⊆+ courts) as Hsup.
    { apply NoDup_submseteq.
      - repeat constructor; rewrite ?elem_of_cons, ?elem_of_nil; lia.
      - intros c. rewrite !elem_of_cons, elem_of_nil.
        intros [->|[->|[]]]; assumption. }
    apply submseteq_length in Hsup. simpl in Hsup. lia.
Qed.

Lemma completedCount_empty : completedCount ∅ = 0%nat.
Proof. reflexivity. Qed.

Lemma isCompleted_delete (cm : gmap Z (list Z)) (i r c : Z) :
  r ≠ i → isCompleted (delete i cm) r c = isCompleted cm r c.
Proof.
  intros Hne. unfold isCompleted. now rewrite lookup_delete_ne by congruence.
Qed.

(** With every stored array free of repetitions and every stored address
    inside [roundCount] rounds of two courts, the count is at most
    [2 * roundCount] and reaches it exactly when every address is stored. *)
Lemma completedCount_bound (roundCount : nat) : ∀ cm : gmap Z (list Z),
  (∀ k courts, cm !! k = Some courts →
     0 ≤ k < Z.of_nat roundCount ∧ NoDup courts ∧
     ∀ c, c ∈ courts → 0 ≤ c < 2) →
  (completedCount cm ≤ 2 * roundCount)%nat ∧
  (completedCount cm = (2 * roundCount)%nat ↔
   ∀ r c, 0 ≤ r < Z.of_nat roundCount → 0 ≤ c < 2 →
          isCompleted cm r c = true).
Proof.
  induction roundCount as [|R IH]; intros cm Hcm.
  - assert (cm = ∅) as ->.
    { apply map_empty. intros k. destruct (cm !! k) as [courts|] eqn:E;
        [|reflexivity]. apply Hcm in E. lia. }
    rewrite completedCount_empty. split; [lia|].
    split; [intros _ r c Hr; lia|reflexivity].
  - remember (Z.of_nat R) as i eqn:Hi.
    rewrite (completedCount_split cm i).
    destruct (IH (delete i cm)) as [Hle Hiff].
    { intros k courts Hk. apply lookup_delete_Some in Hk as [Hne Hk].
      apply Hcm in Hk as (Hr & Hnd & Hc). split; [lia|split; assumption]. }
    assert ((length (default [] (cm !! i)) ≤ 2)%nat ∧
            (length (default [] (cm !! i)) = 2%nat ↔
             ∀ c, 0 ≤ c < 2 → isCompleted cm i c = true)) as [Hl Hliff].
    { unfold isCompleted. destruct (cm !! i) as [courts|] eqn:E; simpl.
      - apply Hcm in E as (_ & Hnd & Hc).
        destruct (courts_of_two courts Hnd Hc) as [H1 H2].
        split; [assumption|]. rewrite H2. split.
        + intros [H0 H1'] c Hc'. apply bool_decide_eq_true.
          destruct (decide (c = 0)) as [->|]; [assumption|].
          replace c with 1 by lia. assumption.
        + intros H. split; eapply bool_decide_eq_true_1, H; lia.
      - split; [lia|]. split; [lia|]. intros H.
        specialize (H 0 ltac:(lia)). discriminate. }
    split; [lia|]. split.
    + intros Hsum r c Hr Hc.
      destruct (decide (r = i)) as [->|Hne].
      * apply Hliff; [lia|assumption].
      * rewrite <- (isCompleted_delete cm i) by assumption.
        apply Hiff; [lia|lia|assumption].
    + intros Hall.
      assert (completedCount (delete i cm) = (2 * R)%nat) as ->.
      { apply Hiff. intros r c Hr Hc.
        rewrite isCompleted_delete by lia. apply Hall; lia. }
      assert (length (default [] (cm !! i)) = 2%nat) as ->; [|lia].
      apply Hliff. intros c Hc. apply Hall; lia.
Qed.

Lemma afterToggles_inside (roundCount : Z) (addresses : list (Z * Z)) :
  (∀ a, a ∈ addresses → 0 ≤ a.1 < roundCount ∧ 0 ≤ a.2 < 2) →
  ∀ k courts, afterToggles addresses !! k = Some courts →
    0 ≤ k < roundCount ∧ ∀ c, c ∈ courts → 0 ≤ c < 2.
Proof.
  induction addresses as [|a addresses IH] using rev_ind; intros Ha k courts.
  - unfold afterToggles. simpl. now rewrite lookup_empty.
  - rewrite afterToggles_snoc.
    assert (∀ k courts, afterToggles addresses !! k = Some courts →
              0 ≤ k < roundCount ∧ ∀ c, c ∈ courts → 0 ≤ c < 2) as IH'.
    { apply IH. intros x Hx. apply Ha, elem_of_app. now left. }
    destruct (Ha a) as [Ha1 Ha2]; [apply elem_of_app; right; left|].
    unfold toggleMatchComplete.
    destruct (decide (k = a.1)) as [->|Hne].
    + rewrite lookup_insert_eq. intros [= <-]. split; [assumption|].
      intros c Hc. apply elem_of_toggled in Hc as [[Hc _]|[-> _]];
        [|assumption].
      destruct (afterToggles addresses !! a.1) as [old|] eqn:E; simpl in Hc.
      * now apply (IH' _ _ E).
      * inversion Hc.
    + rewrite lookup_insert_ne by congruence. apply IH'.
Qed.

Lemma shown_two_courts (rounds : list (list Pair)) (r c : Z) :
  Forall (λ round, length round = 2%nat) rounds →
  shown rounds r c ↔ 0 ≤ r < Z.of_nat (length rounds) ∧ 0 ≤ c < 2.
Proof.
  intros Hall. unfold shown. split.
  - intros (Hr & Hc & round & Hl & Hlt).
    pose proof (lookup_lt_Some _ _ _ Hl) as Hlen.
    rewrite Forall_forall in Hall.
    rewrite (Hall round) in Hlt by (eapply list_elem_of_lookup_2, Hl). lia.
  - intros [Hr Hc].
    destruct (lookup_lt_is_Some_2 rounds (Z.to_nat r)) as [round Hl]; [lia|].
    split; [lia|]. split; [lia|]. exists round. split; [assumption|].
    rewrite Forall_forall in Hall.
    rewrite (Hall round) by (eapply list_elem_of_lookup_2, Hl). lia.
Qed.

Lemma leave_warning_spec (rounds : list (list Pair))
    (addresses : list (Z * Z)) :
  Forall (λ round, length round = 2%nat) rounds →
  (∀ a, a ∈ addresses → shown rounds a.1 a.2) →
  (completedCount (afterToggles addresses) ≤ totalMatches rounds)%nat ∧
  (warnsOnLeave rounds (afterToggles addresses) = false ↔
   ∀ r c, shown rounds r c → isCompleted (afterToggles addresses) r c = true).
Proof.
  intros Hall Haddr.
  destruct (completedCount_bound (length rounds) (afterToggles addresses))
    as [Hle Hiff].
  { intros k courts Hk.
    destruct (afterToggles_inside (Z.of_nat (length rounds)) addresses)
      with (k := k) (courts := courts) as [H1 H2]; [|assumption|].
    - intros a Ha. now apply shown_two_courts, Haddr.
    - split; [lia|]. split; [|assumption].
      eapply afterToggles_NoDup, Hk. }
  unfold warnsOnLeave, totalMatches. split; [lia|].
  rewrite Nat.ltb_ge. split.
  - intros Hge r c Hs. apply shown_two_courts in Hs; [|assumption].
    apply Hiff; [lia|lia|lia].
  - intros Hc.
    assert (completedCount (afterToggles addresses) = (2 * length rounds)%nat)
      as ->; [|lia].
    apply Hiff. intros r c Hr Hc'. apply Hc, shown_two_courts; auto.
Qed.

End LeaveWarning.

(** X20. When only the buttons the component shows are pressed on a
    schedule of two-court rounds, the count of completed matches never
    exceeds the number of matches, and the leave warning stays silent
    exactly when every match shown is complete. *)
Theorem leave_warning_reads (rounds : list (list Pair))
    (addresses : list (Z * Z)) :
  Forall (λ round, length round = 2%nat) rounds →
  (∀ a, a ∈ addresses → shown rounds a.1 a.2) →
  let completedMatches := afterToggles addresses in
  (Progress.completedCount completedMatches
   ≤ Progress.totalMatches rounds)%nat ∧
  (Progress.warnsOnLeave rounds completedMatches = false ↔
   ∀ r c, shown rounds r c →
          Completion.isCompleted completedMatches r c = true).
Proof. apply leave_warning_spec. Qed.

Lemma leave_warning_reads_witness :
  let rounds := [[(1, 2); (3, 4)]] in
  let completedMatches := afterToggles [(0, 0); (0, 1)] in
  (Progress.completedCount completedMatches
   ≤ Progress.totalMatches rounds)%nat ∧
  (Progress.warnsOnLeave rounds completedMatches = false ↔
   ∀ r c, shown rounds r c →
          Completion.isCompleted completedMatches r c = true).
Proof.
  apply (leave_warning_reads [[(1, 2); (3, 4)]] [(0, 0); (0, 1)]).
  - repeat constructor.
  - intros a Ha. unfold shown.
    rewrite !elem_of_cons, elem_of_nil in Ha.
    destruct Ha as [->|[->|[]]]; simpl;
      (split; [lia|]; split; [lia|]; eexists; split; [reflexivity|simpl; lia]).
Defined.

(** ** The schedule behind the number input *)

Lemma seeded_schedule_of_valid_count (schedules : gmap Z (list (list Pair)))
    (n : Z) :
  (∀ n, schedules !! n
        = if decide (4 ≤ n ≤ 15) then Seeded.scheduleFor n else None) →
  4 ≤ n ≤ 15 →
  ∃ more, Seeded.scheduleOf schedules n = Seeded.firstRound :: more ∧
          Forall fullRound more.
Proof.
  intros Hs Hn. unfold Seeded.scheduleOf. rewrite Hs.
  destruct (decide (4 ≤ n ≤ 15)) as [_|]; [|contradiction].
  destruct (scheduleFor_spec n) as (more & -> & Hfull & _).
  exists more. split; [reflexivity|assumption].
Qed.

(** X21. Whatever is typed into the number input of the seeded variant,
    the clamped team count has a precomputed schedule, which begins with
    the fixed opening round and holds only full rounds; the clamp leaves a
    count in 4..15 as it is.  The team count read at start-up is not
    clamped: with nothing stored it is 7, which has a schedule, but a
    stored count outside 4..15 is taken as it is and shows no round. *)
Theorem clamped_count_has_schedule :
  ∃ schedules,
    Seeded.precomputeSchedules = Some schedules ∧
    (∀ parsed, ∃ more,
       Seeded.scheduleOf schedules (clampTeamCount parsed)
       = Seeded.firstRound :: more ∧ Forall fullRound more) ∧
    (∀ v, 4 ≤ v ≤ 15 → clampTeamCount (Some v) = v) ∧
    (∃ more, Seeded.scheduleOf schedules (initialTeamCount 7 None)
             = Seeded.firstRound :: more) ∧
    (∀ v, v ≠ 0 → ¬ (4 ≤ v ≤ 15) →
          Seeded.scheduleOf schedules (initialTeamCount 7 (Some v)) = []).
Proof.
  destruct precomputeSchedules_spec as (schedules & Heq & Hs).
  exists schedules. split; [exact Heq|]. split; [|split; [|split]].
  - intros parsed. apply seeded_schedule_of_valid_count; [exact Hs|].
    unfold clampTeamCount. lia.
  - intros v Hv. unfold clampTeamCount.
    destruct v; lia.
  - destruct (seeded_schedule_of_valid_count schedules 7 Hs ltac:(lia))
      as (more & H & _). now exists more.
  - intros v Hv Hout. unfold Seeded.scheduleOf.
    assert (initialTeamCount 7 (Some v) = v) as ->
      by (destruct v; [contradiction|reflexivity..]).
    rewrite Hs. now destruct (decide (4 ≤ v ≤ 15)).
Qed.

(** ** The first round of the plain schedule *)

Lemma generatePairs_opening (n : Z) :
  4 ≤ n →
  ∃ before after,
    generatePairs n = (1, 2) :: before ++ (3, 4) :: after ∧
    Forall (λ x, free ({[2]} ∪ ({[1]} ∪ ∅)) x = false) before.
Proof.
  intros Hn. unfold generatePairs.
  rewrite (seqZ_cons 1) by lia. rewrite (seqZ_cons (Z.succ 1)) by lia.
  rewrite (seqZ_cons (Z.succ (Z.succ 1))) by lia.
  cbn [mbind list_bind].
  rewrite (seqZ_cons (1 + 1)) by lia.
  rewrite (seqZ_cons (Z.succ (Z.succ 1) + 1)) by lia.
  rewrite !fmap_cons.
  exists (((λ j, (1, j)) <$> seqZ (Z.succ (1 + 1)) (Z.pred (n - 1)))
          ++ ((λ j, (Z.succ 1, j)) <$> seqZ (Z.succ 1 + 1) (n - Z.succ 1))).
  eexists. split.
  - cbn [app]. rewrite <- !app_assoc. reflexivity.
  - apply Forall_app. split; apply Forall_fmap, Forall_forall; intros j _;
      reflexivity.
Qed.

Lemma greedy_schedule_opening (n : Z) :
  4 ≤ n →
  ∃ more, Seeded.scheduleRounds (generatePairs n)
          = Some ([(1, 2); (3, 4)] :: more).
Proof.
  intros Hn.
  destruct (generatePairs_opening n Hn) as (before & after & Hg & Hb).
  unfold Seeded.scheduleRounds. rewrite Hg.
  assert (Seeded.iteration ((1, 2) :: before ++ (3, 4) :: after)
          = Some ([(1, 2); (3, 4)], before ++ after)) as Hit.
  { rewrite seeded_iteration_greedy. unfold greedyRound.
    assert (takeFirst (free ({[(1, 2).2]} ∪ ({[(1, 2).1]} ∪ ∅)))
              (before ++ (3, 4) :: after) = Some ((3, 4), before ++ after))
      as ->; [|reflexivity].
    apply takeFirst_Some. exists before, after.
    split; [reflexivity|]. split; [exact Hb|]. split; reflexivity. }
  set (pairs := (1, 2) :: before ++ (3, 4) :: after) in *.
  change (Seeded.loop (S (length pairs)) pairs [])
    with (match Seeded.iteration pairs with
          | None => Some []
          | Some (r, remaining') =>
              Seeded.loop (length pairs) remaining' ([] ++ [r])
          end).
  rewrite Hit.
  destruct (seeded_loop_spec (length pairs) (before ++ after)
              ([] ++ [[(1, 2); (3, 4)]])) as (more & -> & _).
  { subst pairs. simpl. rewrite !length_app. simpl. lia. }
  now exists more.
Qed.

Lemma greedy_schedule_below_four (n : Z) :
  n < 4 → Seeded.scheduleRounds (generatePairs n) = Some [].
Proof.
  intros Hn. assert (n ≤ 1 ∨ n = 2 ∨ n = 3) as [H|[->| ->]] by lia.
  - now rewrite generatePairs_nil.
  - reflexivity.
  - reflexivity.
Qed.

(** X22. The plain variant too opens with (1,2) and (3,4): for four teams
    or more the first round [groupRounds(generatePairs(n))] builds is the
    round the other variants fix; below four teams it builds no round at
    all. *)
Theorem plain_schedule_opening (n : Z) :
  (4 ≤ n → ∃ more, generateSchedule PlainGreedy n
                   = Some ([(1, 2); (3, 4)] :: more)) ∧
  (n < 4 → generateSchedule PlainGreedy n = Some []).
Proof.
  unfold generateSchedule.
  rewrite (proj2 (plain_groupRounds_pairs (generatePairs n))).
  split; [apply greedy_schedule_opening|apply greedy_schedule_below_four].
Qed.

(** ** The two ways of dropping the opening pairs *)

Lemma filter_agree {A} (f g : A → bool) (l : list A) :
  (∀ x, x ∈ l → f x = g x) → List.filter f l = List.filter g l.
Proof.
  intros H. apply List.filter_ext_in. intros x Hx.
  now apply H, list_elem_of_In.
Qed.

Lemma stringified_opening (p : Pair) :
  1 ≤ p.1 → p.1 < p.2 →
  negb (bool_decide
          (Seeded.stringify (normalizePair p)
           ∈ Seeded.stringify <$> (normalizePair <$> Seeded.firstRound)))
  = LoadBalanced.notOpening p.
Proof.
  intros H1 H2.
  assert (normalizePair p = p) as ->.
  { unfold normalizePair. destruct (Z.ltb_spec p.1 p.2); [|lia].
    now destruct p. }
  destruct (LoadBalanced.notOpening p) eqn:E.
  - apply negb_true_iff, bool_decide_eq_false.
    apply notOpening_spec in E; [|assumption].
    intros Hin. apply E.
    cbn [fmap list_fmap Seeded.firstRound] in Hin.
    rewrite !elem_of_cons, elem_of_nil in Hin.
    rewrite !elem_of_cons.
    destruct Hin as [H|[H|[]]]; apply stringify_inj in H;
      simpl; try lia; auto.
  - apply negb_false_iff, bool_decide_eq_true.
    assert (¬ (p ∉ [(1, 2); (3, 4)])) as Hn.
    { intros Hn. apply notOpening_spec in Hn; [|assumption]. congruence. }
    destruct (decide (p ∈ [(1, 2); (3, 4)])) as [Hin|]; [|contradiction].
    cbn [fmap list_fmap Seeded.firstRound].
    rewrite !elem_of_cons, elem_of_nil in Hin. rewrite !elem_of_cons.
    destruct Hin as [->|[->|[]]]; auto.
Qed.

(** X23. The seeded variant drops the opening pairs from the candidates by
    comparing JSON texts of normalised pairs, [App.js] by comparing the ids
    in both orientations: the two filters keep the same candidates in the
    same order, namely the generated pairs other than (1,2) and (3,4). *)
Theorem opening_filters_agree (n : Z) :
  Seeded.remainingPairs n = LoadBalanced.initialRemaining n ∧
  (∀ p, p ∈ Seeded.remainingPairs n ↔
        p ∈ generatePairs n ∧ p ∉ [(1, 2); (3, 4)]).
Proof.
  assert (Seeded.remainingPairs n = LoadBalanced.initialRemaining n) as H.
  { unfold Seeded.remainingPairs, LoadBalanced.initialRemaining,
      Seeded.generateAllPairs.
    apply filter_agree. intros p Hp. apply elem_of_generatePairs in Hp.
    apply stringified_opening; lia. }
  split; [exact H|]. intros p. rewrite H.
  unfold LoadBalanced.initialRemaining. rewrite elem_of_filter_bool.
  split; intros [Hin Hk]; (split; [assumption|]);
    apply elem_of_generatePairs in Hin; apply notOpening_spec; (lia || assumption).
Qed.
